(** * Rebase utilities of the tree2 DDS (core/rebase/utils.ts)

    A shallow embedding of [findCommonAncestor], [rebaseBranch] and
    [rebaseChange], together with the properties of the commit graph that
    the design document states about them.

    Commits are JavaScript objects compared by identity, so they live in a
    store: a reference is an index into an append-only arena of commit
    records, and minting a commit allocates a new cell.  Nothing in the
    embedded code writes to an existing cell. *)

From stdpp Require Import base tactics option list gmap strings.

Set Default Proof Using "Type".

(** ** Results of a call *)

(** How a call can end other than by returning. *)
Inductive Failure : Type :=
  | AssertionFailed (msg : string)   (* [assert(cond, msg)] with a false [cond] *)
  | AlgebraException                 (* the supplied ChangeRebaser threw *)
  | TypeError                        (* property read on [undefined] *)
  | DanglingRef (r : nat)            (* a reference outside the store; no JS counterpart *)
  | OutOfFuel.                       (* loop bound of the embedding exhausted *)

Inductive Outcome (A : Type) : Type :=
  | Ok (a : A)
  | Err (f : Failure).
Arguments Ok {A} a.
Arguments Err {A} f.

#[global] Instance outcome_ret : MRet Outcome := @Ok.
#[global] Instance outcome_bind : MBind Outcome := λ A B k m,
  match m with
  | Ok a => k a
  | Err f => Err f
  end.

(** [assert] of common-utils. *)
Definition assertO (cond : bool) (msg : string) : Outcome unit :=
  if cond then Ok tt else Err (AssertionFailed msg).

(** ** The commit graph *)

(** A reference to a commit object is an index into the store.
    Modelled from the spec: [RevisionTag] and [SessionId] of rebase/types.ts
    are opaque identifiers compared by equality; tags are numbers here so
    that [mintRevisionTag] can draw them from a counter. *)
Abbreviation ref := nat (only parsing).
Abbreviation RevisionTag := nat (only parsing).
Abbreviation SessionId := string (only parsing).

Section Graph.
Context {TChange : Type}.

(** Modelled from the spec: the [GraphCommit] interface of rebase/types.ts
    (revision, sessionId, change, optional parent). *)
Record GraphCommit : Type := mkCommit {
  revision : RevisionTag;
  sessionId : SessionId;
  change : TChange;
  parent : option ref;
}.

(** The store: cell [r] holds the commit object that reference [r] denotes. *)
#[local] Abbreviation Heap := (list GraphCommit) (only parsing).

Definition deref (h : Heap) (r : ref) : Outcome GraphCommit :=
  match h !! r with
  | Some c => Ok c
  | None => Err (DanglingRef r)
  end.

(** [pathB.findIndex((r) => Object.is(r, a))] followed by
    [pathB.splice(0, index + 1)]; an index of -1 removes nothing. *)
Fixpoint findIndex (x : ref) (l : list ref) : option nat :=
  match l with
  | [] => None
  | y :: l' => if decide (y = x) then Some 0 else S <$> findIndex x l'
  end.

Definition spliceThrough (x : ref) (l : list ref) : list ref :=
  match findIndex x l with
  | Some i => drop (S i) l
  | None => l
  end.

(** [path?.unshift(x)] *)
Definition unshiftOpt (x : ref) (path : option (list ref)) : option (list ref) :=
  cons x <$> path.

(** [if (path !== undefined) path.length = 0] *)
Definition clearOpt (path : option (list ref)) : option (list ref) :=
  (fun _ => []) <$> path.

(** The [while (a !== undefined || b !== undefined)] loop of
    [findCommonAncestor].  One unit of fuel per iteration. *)
Fixpoint fcaLoop (h : Heap) (fuel : nat) (a b : option ref) (visited : gset ref)
    (pathA pathB : option (list ref))
    : Outcome (option ref * option (list ref) * option (list ref)) :=
  match a, b with
  | None, None => Ok (None, clearOpt pathA, clearOpt pathB)
  | _, _ =>
    match fuel with
    | 0 => Err OutOfFuel
    | S fuel' =>
      let stepB (a : option ref) (visited : gset ref) (pathA : option (list ref)) :=
        match b with
        | Some y =>
          if decide (y ∈ visited) then
            Ok (Some y, spliceThrough y <$> pathA, pathB)
          else
            (cy ← deref h y ;
             fcaLoop h fuel' a (parent cy) ({[y]} ∪ visited) pathA (unshiftOpt y pathB))
        | None => fcaLoop h fuel' a None visited pathA pathB
        end in
      match a with
      | Some x =>
        if decide (x ∈ visited) then
          Ok (Some x, pathA, spliceThrough x <$> pathB)
        else
          (cx ← deref h x ;
           stepB (parent cx) ({[x]} ∪ visited) (unshiftOpt x pathA))
      | None => stepB None visited pathA
      end
    end
  end.

Definition isEmptyOpt (path : option (list ref)) : bool :=
  match path with
  | Some (_ :: _) => false
  | _ => true
  end.

(** [findCommonAncestor(descendantA, descendantB)].  A descendant given as
    a bare commit is passed with path [None]; given as [[commit, path]] it
    is passed with [Some path]. *)
Definition findCommonAncestor (h : Heap)
    (a : option ref) (pathA : option (list ref))
    (b : option ref) (pathB : option (list ref))
    : Outcome (option ref * option (list ref) * option (list ref)) :=
  (_ ← assertO (isEmptyOpt pathA) "Path A must be empty" ;
   _ ← assertO (isEmptyOpt pathB) "Path B must be empty" ;
   if decide (a = b) then Ok (a, pathA, pathB)
   else fcaLoop h (S (length h + length h)) a b ∅ pathA pathB).

(** The [for (let cur = d; cur !== undefined; cur = cur.parent)] loop of
    [findAncestor].  The predicate is called on the commit object; it may
    read the store, which the search does not change. *)
Fixpoint findAncestorLoop (h : Heap) (fuel : nat) (predicate : ref → bool)
    (cur : option ref) (path : option (list ref))
    : Outcome (option ref * option (list ref)) :=
  match cur with
  | None => Ok (None, clearOpt path)
  | Some c =>
    match fuel with
    | 0 => Err OutOfFuel
    | S fuel' =>
      if predicate c then Ok (Some c, path)
      else
        cc ← deref h c;
        findAncestorLoop h fuel' predicate (parent cc) (unshiftOpt c path)
    end
  end.

(** [findAncestor(descendant, predicate)].  As for [findCommonAncestor], a
    bare descendant is passed with path [None].  The path is not required
    to be empty here. *)
Definition findAncestor (h : Heap) (d : option ref) (path : option (list ref))
    (predicate : ref → bool) : Outcome (option ref * option (list ref)) :=
  findAncestorLoop h (S (length h)) predicate d path.

(** *** Parent chains

    [ancestry h s l]: following parent links from [s] visits exactly the
    commits [l], nearest first, and then reaches a root.  A commit has such
    a chain precisely when its history is finite, which is the case for
    every graph built by minting. *)
Inductive ancestry (h : Heap) : option ref → list ref → Prop :=
  | ancestry_root : ancestry h None []
  | ancestry_step a c l :
      h !! a = Some c → ancestry h (parent c) l → ancestry h (Some a) (a :: l).

(** [linked h l]: each commit of [l] after the first has the commit just
    before it as parent. *)
Definition linked (h : Heap) (l : list ref) : Prop :=
  ∀ l1 x y l2, l = l1 ++ x :: y :: l2 →
    ∃ c, h !! y = Some c ∧ parent c = Some x.

(** The out-path handed to [findCommonAncestor]: absent, or holding the
    commits [d] walked so far, most distant first. *)
Definition pathOf (supplied : bool) (d : list ref) : option (list ref) :=
  if supplied then Some (reverse d) else None.

(** *** Reading along a list of references *)

Fixpoint derefAll (h : Heap) (l : list ref) : Outcome (list GraphCommit) :=
  match l with
  | [] => Ok []
  | r :: l' => c ← deref h r; cs ← derefAll h l'; Ok (c :: cs)
  end.

(** ** The change algebra *)

(** Modelled from the spec: the [TaggedChange] interface of
    rebase/changeRebaser.ts, a change with the revision it comes from and,
    for a rollback inverse, the revision it rolls back. *)
Record TaggedChange : Type := mkTagged {
  tcRevision : option RevisionTag;
  tcChange : TChange;
  rollbackOf : option RevisionTag;
}.

(** Modelled from the spec: [tagRollbackInverse(change, newTag, rolledBackTag)]
    of rebase/changeRebaser.ts wraps an inverse change, marking which original
    revision it undoes. *)
Definition tagRollbackInverse (inverseChange : TChange)
    (newTag rolledBackTag : RevisionTag) : TaggedChange :=
  {| tcRevision := Some newTag; tcChange := inverseChange;
     rollbackOf := Some rolledBackTag |}.

(** A commit handed to the algebra where a [TaggedChange] is expected. *)
Definition asTagged (c : GraphCommit) : TaggedChange :=
  {| tcRevision := Some (revision c); tcChange := change c; rollbackOf := None |}.

(** Modelled from the spec: the [ChangeRebaser] interface of
    rebase/changeRebaser.ts.  [None] stands for an exception thrown by the
    supplied implementation. *)
Record ChangeRebaser : Type := mkRebaser {
  rebase : TChange → TaggedChange → option TChange;
  invert : TaggedChange → bool → option TChange;
  compose : list TaggedChange → option TChange;
}.

(** One invocation of the algebra, as recorded in the call log. *)
Inductive AlgCall : Type :=
  | CallRebase (c : TChange) (over : TaggedChange)
  | CallInvert (c : TaggedChange) (isRollback : bool)
  | CallCompose (cs : list TaggedChange).

(** ** The state threaded through a rebase *)

Record World : Type := mkWorld {
  heap : Heap;              (* every commit object allocated so far *)
  tagCounter : nat;         (* supply of [mintRevisionTag] *)
  calls : list AlgCall;     (* algebra invocations, oldest first *)
}.

Definition M (A : Type) : Type := World → Outcome A * World.

#[global] Instance M_ret : MRet M := λ A a w, (Ok a, w).
#[global] Instance M_bind : MBind M := λ A B k m w,
  match m w with
  | (Ok a, w') => k a w'
  | (Err f, w') => (Err f, w')
  end.

Definition failM {A} (f : Failure) : M A := λ w, (Err f, w).

(** A computation that only reads the store. *)
Definition liftR {A} (f : Heap → Outcome A) : M A := λ w, (f (heap w), w).

Definition assertM (cond : bool) (msg : string) : M unit :=
  liftR (λ _, assertO cond msg).

(** Object creation: a fresh cell at the end of the arena. *)
Definition alloc (c : GraphCommit) : M ref := λ w,
  (Ok (length (heap w)),
   {| heap := heap w ++ [c]; tagCounter := tagCounter w; calls := calls w |}).

(** Modelled from the spec: [mintRevisionTag()] of rebase/types.ts issues a
    fresh tag on each call, here from a monotonic counter. *)
Definition mintRevisionTag : M RevisionTag := λ w,
  (Ok (tagCounter w),
   {| heap := heap w; tagCounter := S (tagCounter w); calls := calls w |}).

(** Modelled from the spec: [mintCommit(parent, commitToCopy)] of
    rebase/types.ts copies revision, sessionId and change from an existing
    commit and reparents the copy. *)
Definition mintCommit (newParent : ref) (commit : ref) : M ref :=
  c ← liftR (λ h, deref h commit);
  alloc {| revision := revision c; sessionId := sessionId c;
           change := change c; parent := Some newParent |}.

Definition logCall {A} (call : AlgCall) (result : option A) : M A := λ w,
  (match result with Some a => Ok a | None => Err AlgebraException end,
   {| heap := heap w; tagCounter := tagCounter w; calls := calls w ++ [call] |}).

Section WithRebaser.
Variable changeRebaser : ChangeRebaser.

Definition callRebase (c : TChange) (over : TaggedChange) : M TChange :=
  logCall (CallRebase c over) (rebase changeRebaser c over).
Definition callInvert (c : TaggedChange) (isRollback : bool) : M TChange :=
  logCall (CallInvert c isRollback) (invert changeRebaser c isRollback).
Definition callCompose (cs : list TaggedChange) : M TChange :=
  logCall (CallCompose cs) (compose changeRebaser cs).

(** [changesToRebaseOver.reduce((a, b) => changeRebaser.rebase(a, b), changeToRebase)] *)
Fixpoint rebaseChangeOverChanges (changeToRebase : TChange)
    (changesToRebaseOver : list TaggedChange) : M TChange :=
  match changesToRebaseOver with
  | [] => mret changeToRebase
  | b :: rest =>
    a ← callRebase changeToRebase b;
    rebaseChangeOverChanges a rest
  end.

(** [inverseFromCommit]: arguments are evaluated left to right, so the
    algebra is called before the tag is minted. *)
Definition inverseFromCommit (commit : GraphCommit) : M TaggedChange :=
  inv ← callInvert (asTagged commit) true;
  tag ← mintRevisionTag;
  mret (tagRollbackInverse inv tag (revision commit)).

(** The cancel-out scan over [targetPath] (the first [for] loop of
    [rebaseBranch]); [rest] is [targetPath] from index [i] on. *)
Fixpoint scanTarget (h : Heap) (targetCommitIndex i : nat) (rest : list ref)
    (sourceSet : gset RevisionTag) (newBaseIndex : nat)
    : Outcome (gset RevisionTag * nat) :=
  match rest with
  | [] => Ok (sourceSet, newBaseIndex)
  | t :: rest' =>
    c ← deref h t;
    if decide (revision c ∈ sourceSet) then
      scanTarget h targetCommitIndex (S i) rest'
        (sourceSet ∖ {[revision c]}) (newBaseIndex `max` i)
    else if decide (targetCommitIndex ≤ i) then
      Ok (sourceSet, newBaseIndex)
    else
      scanTarget h targetCommitIndex (S i) rest' sourceSet newBaseIndex
  end.

(** The prefix-stripping loop: [n] iterations remain.  Reading
    [sourcePath[0].revision] of an empty array is a TypeError. *)
Fixpoint stripLoop (h : Heap) (n : nat) (sourcePath targetRebasePath : list ref)
    : Outcome (list ref * list ref) :=
  match n with
  | 0 => Ok (sourcePath, targetRebasePath)
  | S n' =>
    match sourcePath, targetRebasePath with
    | s :: sourcePath', t :: targetRebasePath' =>
      cs ← deref h s;
      ct ← deref h t;
      if decide (revision cs = revision ct) then
        stripLoop h n' sourcePath' targetRebasePath'
      else
        stripLoop h n' sourcePath targetRebasePath
    | _, _ => Err TypeError
    end
  end.

(** [newSourceCommits[newSourceCommits.length - 1] ?? newBase] *)
Definition lastOr (newBase : ref) (newSourceCommits : list ref) : ref :=
  default newBase (last newSourceCommits).

(** The reparenting loop taken when the target rebase path is empty. *)
Fixpoint reparentLoop (sourcePath : list ref) (newBase : ref)
    (newSourceCommits : list ref) : M (list ref) :=
  match sourcePath with
  | [] => mret newSourceCommits
  | c :: rest =>
    c' ← mintCommit (lastOr newBase newSourceCommits) c;
    reparentLoop rest newBase (newSourceCommits ++ [c'])
  end.

(** The per-commit loop ([for (const c of sourcePath)]) of the general case. *)
Fixpoint rebaseLoop (sourceSet : gset RevisionTag) (sourcePath : list ref)
    (newHead : ref) (inverses : list TaggedChange)
    (targetRebasePath newSourceCommits : list ref)
    : M (ref * list TaggedChange * list ref * list ref) :=
  match sourcePath with
  | [] => mret (newHead, inverses, targetRebasePath, newSourceCommits)
  | r :: rest =>
    c ← liftR (λ h, deref h r);
    '(newHead, targetRebasePath, newSourceCommits) ←
      (if decide (revision c ∈ sourceSet) then
         over ← liftR (λ h, derefAll h targetRebasePath);
         change' ← rebaseChangeOverChanges (change c)
                     (inverses ++ (asTagged <$> over));
         newHead' ← alloc {| revision := revision c; sessionId := sessionId c;
                             change := change'; parent := Some newHead |};
         copy ← alloc {| revision := revision c; sessionId := sessionId c;
                         change := change'; parent := parent c |};
         mret (newHead', targetRebasePath ++ [copy], newSourceCommits ++ [newHead'])
       else mret (newHead, targetRebasePath, newSourceCommits));
    inv ← inverseFromCommit c;
    rebaseLoop sourceSet rest newHead (inv :: inverses)
      targetRebasePath newSourceCommits
  end.

Record RebasedCommits : Type := mkRebased {
  newBase : ref;
  deletedSourceCommits : list ref;
  newSourceCommits : list ref;
}.

(** [rebaseBranch(changeRebaser, sourceHead, targetCommit, targetHead = targetCommit)].
    The three-argument overload passes its [targetHead] as [targetCommit]
    and leaves [targetHead] out ([None]). *)
Definition rebaseBranch (sourceHead targetCommit : ref) (targetHead : option ref)
    : M (ref * option TChange * RebasedCommits) :=
  let targetHead := default targetCommit targetHead in
  '(ancestor, sourcePath, targetPath) ← liftR (λ h,
     findCommonAncestor h (Some sourceHead) (Some []) (Some targetHead) (Some []));
  match ancestor with
  | None => failM (AssertionFailed "branches must be related")
  | Some ancestor =>
    let sourcePath := default [] sourcePath in
    let targetPath := default [] targetPath in
    match findIndex targetCommit targetPath with
    | None =>
      '(related, _, _) ← liftR (λ h,
         findCommonAncestor h (Some targetCommit) None (Some targetHead) None);
      _ ← assertM (bool_decide (related ≠ None)) "target commit is not in target branch";
      mret (sourceHead, None,
            {| newBase := ancestor; deletedSourceCommits := [];
               newSourceCommits := [] |})
    | Some targetCommitIndex =>
      sourceCommits ← liftR (λ h, derefAll h sourcePath);
      let sourceSet : gset RevisionTag := list_to_set (revision <$> sourceCommits) in
      '(sourceSet, newBaseIndex) ← liftR (λ h,
         scanTarget h targetCommitIndex 0 targetPath sourceSet targetCommitIndex);
      (* [newBaseIndex] is always a valid index of [targetPath]
         (lemma [scanTarget_bounds]), so the read below never misses. *)
      match targetPath !! newBaseIndex with
      | None => failM TypeError
      | Some newBase =>
        let targetRebasePath := take (S newBaseIndex) targetPath in
        let deletedSourceCommits := sourcePath in
        let newSourceCommits := targetRebasePath in
        let minLength := length sourcePath `min` length targetRebasePath in
        '(sourcePath, targetRebasePath) ← liftR (λ h,
           stripLoop h minLength sourcePath targetRebasePath);
        match targetRebasePath with
        | [] =>
          (* [newSourceCommits] starts as a copy of the target rebase path,
             which holds index 0 at least: its last element always exists. *)
          newSourceCommits ← reparentLoop sourcePath newBase newSourceCommits;
          mret (lastOr newBase newSourceCommits, None,
                {| newBase := newBase;
                   deletedSourceCommits := deletedSourceCommits;
                   newSourceCommits := newSourceCommits |})
        | _ :: _ =>
          '(newHead, inverses, targetRebasePath, newSourceCommits) ←
            rebaseLoop sourceSet sourcePath newBase [] targetRebasePath
              newSourceCommits;
          over ← liftR (λ h, derefAll h targetRebasePath);
          sourceChange ← callCompose (inverses ++ (asTagged <$> over));
          mret (newHead, Some sourceChange,
                {| newBase := newBase;
                   deletedSourceCommits := deletedSourceCommits;
                   newSourceCommits := newSourceCommits |})
        end
      end
    end
  end.

(** [sourcePath.reduceRight(...)] of [rebaseChange]: from the commit
    closest to the head back to the ancestor. *)
Fixpoint rebaseOverInverses (commits : list GraphCommit) (newChange : TChange)
    : M TChange :=
  match commits with
  | [] => mret newChange
  | branchCommit :: rest =>
    inv ← inverseFromCommit branchCommit;
    newChange' ← callRebase newChange inv;
    rebaseOverInverses rest newChange'
  end.

(** [rebaseChange(changeRebaser, change, sourceHead, targetHead)] *)
Definition rebaseChange (change : TChange) (sourceHead targetHead : ref)
    : M TChange :=
  '(ancestor, sourcePath, targetPath) ← liftR (λ h,
     findCommonAncestor h (Some sourceHead) (Some []) (Some targetHead) (Some []));
  _ ← assertM (bool_decide (ancestor ≠ None)) "branch A and branch B must be related";
  sourceCommits ← liftR (λ h, derefAll h (default [] sourcePath));
  changeRebasedToRef ← rebaseOverInverses (reverse sourceCommits) change;
  targetCommits ← liftR (λ h, derefAll h (default [] targetPath));
  rebaseChangeOverChanges changeRebasedToRef (asTagged <$> targetCommits).

End WithRebaser.

End Graph.
Arguments GraphCommit : clear implicits.
Abbreviation Heap TChange := (list (GraphCommit TChange)) (only parsing).
Arguments TaggedChange : clear implicits.
Arguments ChangeRebaser : clear implicits.
Arguments AlgCall : clear implicits.
Arguments World : clear implicits.
Arguments RebasedCommits : clear implicits.


(** ** Vocabulary of the properties *)

Section Vocabulary.
Context {TChange : Type}.
Implicit Types (h : Heap TChange).

(** What a finished search must satisfy, for total chains [CA] and [CB]:
    a found ancestor splits both chains at their common tail; a failed
    search means the chains are disjoint. *)
Definition fca_post h (fa fb : bool) (CA CB : list ref)
    (res : option ref * option (list ref) * option (list ref)) : Prop :=
  match res with
  | (Some x, pA, pB) =>
    ∃ pa pb cx, ancestry h (Some x) cx ∧ CA = pa ++ cx ∧ CB = pb ++ cx ∧
      (∀ y, y ∈ pa → y ∉ pb) ∧ pA = pathOf fa pa ∧ pB = pathOf fb pb
  | (None, pA, pB) =>
    (∀ y, y ∈ CA → y ∉ CB) ∧ pA = pathOf fa [] ∧ pB = pathOf fb []
  end.

(** A computation that only ever extends the store. *)
Definition frames {A} (m : M A) : Prop :=
  ∀ w : World TChange, heap w `prefix_of` heap (m w).2.

(** The cells written by the reparenting loop: copies of [cs], the first
    parented on [p], each later one on the copy before it; [n] is the
    address of the first copy. *)
Fixpoint reparented (p : ref) (n : nat) (cs : list (GraphCommit TChange))
    : list (GraphCommit TChange) :=
  match cs with
  | [] => []
  | c :: cs' =>
    {| revision := revision c; sessionId := sessionId c; change := change c;
       parent := Some p |} :: reparented n (S n) cs'
  end.

(** The commits on which the algebra's [invert] was called, in call order. *)
Definition invertedCommits (cs : list (AlgCall TChange)) : list (TaggedChange TChange) :=
  omap (λ c, match c with CallInvert t _ => Some t | _ => None end) cs.

(** [strippedTo h sp tp tc ss nbi sp' trp']: with source path [sp] and
    target path [tp], [rebaseBranch] finds [targetCommit], ends its scan
    with source set [ss] and new base index [nbi], and is left, after
    stripping the common prefix, with source path [sp'] and target rebase
    path [trp']. *)
Definition strippedTo h (sp tp : list ref) (targetCommit : ref)
    (ss : gset RevisionTag) (nbi : nat) (sp' trp' : list ref) : Prop :=
  ∃ tci cs,
    findIndex targetCommit tp = Some tci ∧
    derefAll h sp = Ok cs ∧
    scanTarget h tci 0 tp (list_to_set (revision <$> cs)) tci = Ok (ss, nbi) ∧
    stripLoop h (length sp `min` length (take (S nbi) tp)) sp (take (S nbi) tp)
      = Ok (sp', trp').

(** The ways a call on well-formed arguments may end: a result, a failed
    assertion, an exception of the algebra. *)
Definition expected {A} (o : Outcome A) : Prop :=
  match o with
  | Ok _ | Err AlgebraException | Err (AssertionFailed _) => True
  | _ => False
  end.

(** Every reference of [l] denotes a commit of the store. *)
Definition bound h (l : list ref) : Prop :=
  ∀ x, x ∈ l → is_Some (h !! x).

(** An algebra none of whose operations throws. *)
Definition neverThrows (R : ChangeRebaser TChange) : Prop :=
  (∀ c over, is_Some (rebase R c over)) ∧
  (∀ c b, is_Some (invert R c b)) ∧
  (∀ cs, is_Some (compose R cs)).

(** Length of the longest common prefix of two lists of tags. *)
Fixpoint commonPrefix (l1 l2 : list RevisionTag) : nat :=
  match l1, l2 with
  | x :: l1', y :: l2' => if decide (x = y) then S (commonPrefix l1' l2') else 0
  | _, _ => 0
  end.

(** Rebasing [c] over the changes [overs], one after the other, with the
    algebra alone: the change this gives, if no call throws. *)
Fixpoint foldRebase (R : ChangeRebaser TChange) (c : TChange)
    (overs : list (TaggedChange TChange)) : option TChange :=
  match overs with
  | [] => Some c
  | b :: rest =>
    match rebase R c b with
    | Some a => foldRebase R a rest
    | None => None
    end
  end.

(** The calls of the algebra this takes, up to the first that throws. *)
Fixpoint rebaseCalls (R : ChangeRebaser TChange) (c : TChange)
    (overs : list (TaggedChange TChange)) : list (AlgCall TChange) :=
  match overs with
  | [] => []
  | b :: rest =>
    CallRebase c b ::
    match rebase R c b with
    | Some a => rebaseCalls R a rest
    | None => []
    end
  end.

(** What a commit contributes to a branch: tag, session and payload. *)
Definition content (c : GraphCommit TChange) : RevisionTag * SessionId * TChange :=
  (revision c, sessionId c, change c).

(** [loopVisits R ss t inv over cs lc inv' over' emitted]: what visiting
    the source commits [cs] in order amounts to, when [ss] holds the tags
    that were not cancelled out, [t] is the next fresh tag, [inv] the
    inverses so far and [over] the changes of the target rebase path.
    A cancelled commit is only inverted.  A commit that was not cancelled
    is first rebased over the inverses followed by the target rebase path,
    emitted with the change this gives and put at the end of the target
    rebase path; then it is inverted.  The rollback inverse of either is
    put in front of the inverses for the commits after it.  [lc] are the
    calls of the algebra in order, [inv'] and [over'] the two lists at the
    end, [emitted] the contents of the commits emitted. *)
Inductive loopVisits (R : ChangeRebaser TChange) (ss : gset RevisionTag) :
    RevisionTag → list (TaggedChange TChange) → list (TaggedChange TChange) →
    list (GraphCommit TChange) → list (AlgCall TChange) →
    list (TaggedChange TChange) → list (TaggedChange TChange) →
    list (RevisionTag * SessionId * TChange) → Prop :=
  | visits_done t inv over :
      loopVisits R ss t inv over [] [] inv over []
  | visits_cancelled t inv over c rest x lc inv' over' emitted :
      revision c ∉ ss →
      invert R (asTagged c) true = Some x →
      loopVisits R ss (S t) (tagRollbackInverse x t (revision c) :: inv) over
        rest lc inv' over' emitted →
      loopVisits R ss t inv over (c :: rest)
        (CallInvert (asTagged c) true :: lc) inv' over' emitted
  | visits_kept t inv over c rest change' x lc inv' over' emitted :
      revision c ∈ ss →
      foldRebase R (change c) (inv ++ over) = Some change' →
      invert R (asTagged c) true = Some x →
      loopVisits R ss (S t) (tagRollbackInverse x t (revision c) :: inv)
        (over ++ [ {| tcRevision := Some (revision c); tcChange := change';
                      rollbackOf := None |} ])
        rest lc inv' over' emitted →
      loopVisits R ss t inv over (c :: rest)
        (rebaseCalls R (change c) (inv ++ over)
           ++ CallInvert (asTagged c) true :: lc)
        inv' over' ((revision c, sessionId c, change') :: emitted).

(** The rollback inverses of the commits [cs], given the changes [xs] that
    [invert] returned for them and the first fresh tag [t]. *)
Fixpoint rollbacks (t : RevisionTag) (cs : list (GraphCommit TChange))
    (xs : list TChange) : list (TaggedChange TChange) :=
  match cs, xs with
  | c :: cs', x :: xs' =>
    tagRollbackInverse x t (revision c) :: rollbacks (S t) cs' xs'
  | _, _ => []
  end.

(** Two call sequences taken in turn: one of the first, one of the second. *)
Fixpoint interleave {A} (l1 l2 : list A) : list A :=
  match l1, l2 with
  | a :: l1', b :: l2' => a :: b :: interleave l1' l2'
  | _, _ => []
  end.

End Vocabulary.

(** ** Concrete graphs

    The integer-counter algebra of the design document and a few small
    commit graphs.  Commit [r] of a graph is the cell with index [r]. *)

Definition counterAlgebra : ChangeRebaser Z :=
  {| rebase := λ c _, Some c;
     invert := λ c _, Some (- tcChange c)%Z;
     compose := λ cs, Some (foldr Z.add 0%Z (tcChange <$> cs)) |}.

(** An algebra whose every operation throws. *)
Definition throwingAlgebra : ChangeRebaser Z :=
  {| rebase := λ _ _, None; invert := λ _ _, None; compose := λ _, None |}.

Definition startWorld (h : Heap Z) : World Z :=
  {| heap := h; tagCounter := 100; calls := [] |}.

(** [A(0) - B(1) - C(2)] is the target branch, [A(0) - B'(3) - D(4)] the
    source branch; [B'] carries the revision tag of [B] and another payload. *)
Definition cancelHeap : Heap Z :=
  [ mkCommit 0 "root" 0%Z None;
    mkCommit 1 "target" 1%Z (Some 0);
    mkCommit 2 "target" 2%Z (Some 1);
    mkCommit 1 "source" 5%Z (Some 0);
    mkCommit 3 "source" 3%Z (Some 3) ].

(** [A(0) - B(1) - C(2)] is the target branch,
    [A(0) - X(3) - B'(4) - D(5)] the source branch; [B'] carries the tag of [B]
    but is not at the start of the source branch. *)
Definition interleavedHeap : Heap Z :=
  [ mkCommit 0 "root" 0%Z None;
    mkCommit 1 "target" 1%Z (Some 0);
    mkCommit 2 "target" 2%Z (Some 1);
    mkCommit 5 "source" 7%Z (Some 0);
    mkCommit 1 "source" 5%Z (Some 3);
    mkCommit 3 "source" 3%Z (Some 4) ].

(** [A(0) - B(1) - C(2) - D(3)] is the target branch,
    [A(0) - B'(4) - C'(5) - F(6)] the source branch; [B'] and [C'] carry the
    tags of [B] and [C]. *)
Definition advanceHeap : Heap Z :=
  [ mkCommit 0 "root" 0%Z None;
    mkCommit 1 "target" 1%Z (Some 0);
    mkCommit 2 "target" 2%Z (Some 1);
    mkCommit 3 "target" 4%Z (Some 2);
    mkCommit 1 "source" 1%Z (Some 0);
    mkCommit 2 "source" 2%Z (Some 4);
    mkCommit 9 "source" 8%Z (Some 5) ].

(** [A(0) - B(1) - C(2) - D(3) - E(4)] is the target branch,
    [A(0) - B'(5) - D'(6) - F(7)] the source branch; [B'] and [D'] carry the
    tags of [B] and [D], the tag of [C] is not on the source branch. *)
Definition skipHeap : Heap Z :=
  [ mkCommit 0 "root" 0%Z None;
    mkCommit 1 "target" 1%Z (Some 0);
    mkCommit 2 "target" 2%Z (Some 1);
    mkCommit 3 "target" 3%Z (Some 2);
    mkCommit 4 "target" 4%Z (Some 3);
    mkCommit 1 "source" 1%Z (Some 0);
    mkCommit 3 "source" 3%Z (Some 5);
    mkCommit 6 "source" 6%Z (Some 6) ].

(** [A(0) - T(1) - U(2)] is the target branch, [A(0) - S(3) - V(4)] the
    source branch; no tag occurs on both. *)
Definition plainHeap : Heap Z :=
  [ mkCommit 0 "root" 0%Z None;
    mkCommit 1 "target" 1%Z (Some 0);
    mkCommit 2 "target" 2%Z (Some 1);
    mkCommit 7 "alice" 10%Z (Some 0);
    mkCommit 8 "bob" 20%Z (Some 3) ].

(** Two roots with no history in common. *)
Definition unrelatedHeap : Heap Z :=
  [ mkCommit 0 "left" 0%Z None;
    mkCommit 1 "right" 1%Z None ].


(** * Properties *)

Section AncestryFacts.
Context {TChange : Type}.
Implicit Types (h : Heap TChange) (l : list ref) (s : option ref).

Lemma deref_Some h r c : h !! r = Some c → deref h r = Ok c.
Proof. unfold deref. by intros ->. Qed.

Lemma ancestry_det h s l1 l2 :
  ancestry h s l1 → ancestry h s l2 → l1 = l2.
Proof.
  intros H1. revert l2.
  induction H1 as [|a c l Ha _ IH]; intros l2 H2; inversion H2; subst; auto.
  f_equal. apply IH. congruence.
Qed.

Lemma ancestry_suffix h s l1 y l2 :
  ancestry h s (l1 ++ y :: l2) → ancestry h (Some y) (y :: l2).
Proof.
  revert s. induction l1 as [|x l1 IH]; intros s H; simpl in H.
  - inversion H; subst. econstructor; eauto.
  - inversion H; subst. eauto.
Qed.

Lemma ancestry_bound h s l x : ancestry h s l → x ∈ l → is_Some (h !! x).
Proof.
  induction 1 as [|a c l Ha _ IH]; intros Hx.
  - by apply elem_of_nil in Hx.
  - apply elem_of_cons in Hx as [->|Hx]; eauto.
Qed.

Lemma ancestry_NoDup h s l : ancestry h s l → NoDup l.
Proof.
  induction 1 as [|a c l Ha Hl IH]; constructor; auto.
  intros Hin. apply list_elem_of_split in Hin as (l1 & l2 & ->).
  pose proof (ancestry_suffix _ _ _ _ _ Hl) as Hs.
  assert (Hs' : ancestry h (Some a) (a :: l1 ++ a :: l2)) by (econstructor; eauto).
  pose proof (ancestry_det _ _ _ _ Hs Hs') as Heq.
  apply (f_equal length) in Heq. simpl in Heq. rewrite length_app in Heq.
  simpl in Heq. lia.
Qed.

Lemma ancestry_length h s l : ancestry h s l → length l ≤ length h.
Proof.
  intros H.
  assert (Hsub : l ⊆ seq 0 (length h)).
  { intros x Hx. apply elem_of_seq.
    destruct (ancestry_bound _ _ _ _ H Hx) as [c Hc].
    apply lookup_lt_Some in Hc. lia. }
  pose proof (submseteq_length _ _ (NoDup_submseteq _ _ (ancestry_NoDup _ _ _ H) (λ x, Hsub x))) as Hl.
  by rewrite length_seq in Hl.
Qed.

Lemma ancestry_mono h h' s l : h `prefix_of` h' → ancestry h s l → ancestry h' s l.
Proof.
  intros Hp. induction 1; econstructor; eauto.
  eapply prefix_lookup_Some; eauto.
Qed.

End AncestryFacts.

Section FindCommonAncestor.
Context {TChange : Type}.
Implicit Types (h : Heap TChange) (l d : list ref) (s a b : option ref).

Lemma findIndex_app x l1 l2 :
  x ∉ l1 → findIndex x (l1 ++ x :: l2) = Some (length l1).
Proof.
  induction l1 as [|y l1 IH]; intros Hx; simpl.
  - by rewrite decide_True.
  - apply not_elem_of_cons in Hx as [Hne Hx].
    rewrite decide_False by done. by rewrite IH.
Qed.

Lemma findIndex_None x l : x ∉ l → findIndex x l = None.
Proof.
  induction l as [|y l IH]; intros Hx; simpl; [done|].
  apply not_elem_of_cons in Hx as [Hne Hx].
  rewrite decide_False by done. by rewrite IH.
Qed.

Lemma findIndex_Some x l i : findIndex x l = Some i → l !! i = Some x.
Proof.
  revert i. induction l as [|y l IH]; intros i; simpl; [done|].
  destruct (decide (y = x)) as [->|_].
  - by intros [= <-].
  - destruct (findIndex x l) as [j|]; simpl; [|done].
    intros [= <-]. simpl. by apply IH.
Qed.

Lemma spliceThrough_reverse x d1 d2 :
  x ∉ d2 → spliceThrough x (reverse (d1 ++ x :: d2)) = reverse d1.
Proof.
  intros Hx. rewrite reverse_app, reverse_cons, <- app_assoc. simpl.
  unfold spliceThrough. rewrite findIndex_app by by rewrite elem_of_reverse.
  generalize (reverse d2) as l. induction l as [|z l IHl]; simpl; done.
Qed.

Lemma spliceThrough_pathOf f x d1 d2 :
  x ∉ d2 → spliceThrough x <$> pathOf f (d1 ++ x :: d2) = pathOf f d1.
Proof.
  intros Hx. destruct f; simpl; [|done]. by rewrite spliceThrough_reverse.
Qed.

Lemma unshiftOpt_pathOf f x d : unshiftOpt x (pathOf f d) = pathOf f (d ++ [x]).
Proof. destruct f; simpl; [|done]. by rewrite reverse_app. Qed.

Lemma clearOpt_pathOf f d : clearOpt (pathOf f d) = pathOf f [].
Proof. by destruct f. Qed.

Lemma fcaLoop_spec h fuel : ∀ a b visited fa fb da db ca cb a0 b0,
  ancestry h a ca → ancestry h b cb →
  ancestry h a0 (da ++ ca) → ancestry h b0 (db ++ cb) →
  (∀ x, x ∈ visited ↔ x ∈ da ∨ x ∈ db) →
  (∀ x, x ∈ da → x ∉ db) →
  length ca + length cb < fuel →
  ∃ res, fcaLoop h fuel a b visited (pathOf fa da) (pathOf fb db) = Ok res
         ∧ fca_post h fa fb (da ++ ca) (db ++ cb) res.
Proof.
  induction fuel as [|fuel IH]; intros a b visited fa fb da db ca cb a0 b0
    Ha Hb HA HB Hvis Hdisj Hfuel; [lia|].
  pose proof (ancestry_NoDup _ _ _ HA) as NDA.
  pose proof (ancestry_NoDup _ _ _ HB) as NDB.
  (* the B half of an iteration, once the A half has advanced *)
  assert (stepB : ∀ a' visited' da' ca',
    ancestry h a' ca' → ancestry h a0 (da' ++ ca') →
    da' ++ ca' = da ++ ca →
    (∀ x, x ∈ visited' ↔ x ∈ da' ∨ x ∈ db) →
    (∀ x, x ∈ da' → x ∉ db) →
    length ca' + length cb < match b with Some _ => S fuel | None => fuel end →
    ∃ res,
      match b with
      | Some y =>
        if decide (y ∈ visited') then
          Ok (Some y, spliceThrough y <$> pathOf fa da', pathOf fb db)
        else
          cy ← deref h y;
          fcaLoop h fuel a' (parent cy) ({[y]} ∪ visited') (pathOf fa da')
            (unshiftOpt y (pathOf fb db))
      | None => fcaLoop h fuel a' None visited' (pathOf fa da') (pathOf fb db)
      end = Ok res ∧ fca_post h fa fb (da ++ ca) (db ++ cb) res).
  { intros a' visited' da' ca' Ha' HA' Heq Hvis' Hdisj' Hlen.
    pose proof (ancestry_NoDup _ _ _ HA') as NDA'.
    destruct b as [y|].
    - inversion Hb as [|? cy cb' Hy Hcb']; subst.
      destruct (decide (y ∈ visited')) as [Hin|Hnin].
      + eexists; split; [done|]. simpl.
        apply Hvis' in Hin as [Hin|Hin].
        2:{ apply NoDup_app in NDB as (_ & Hno & _). exfalso.
            apply (Hno y Hin). left. }
        apply list_elem_of_split in Hin as (d1 & d2 & ->).
        assert (Hyd2 : y ∉ d2).
        { rewrite <- app_assoc in NDA'. apply NoDup_app in NDA' as (_ & _ & ND).
          simpl in ND. apply NoDup_cons in ND as [ND _].
          intros ?. apply ND. apply elem_of_app. by left. }
        rewrite <- app_assoc in HA'. simpl in HA'.
        pose proof (ancestry_suffix _ _ _ _ _ HA') as Hsuf.
        assert (Hy' : ancestry h (Some y) (y :: cb')) by (econstructor; eauto).
        pose proof (ancestry_det _ _ _ _ Hsuf Hy') as E.
        exists d1, db, (y :: cb'). split_and!; auto.
        * rewrite <- Heq, <- app_assoc. simpl. by rewrite E.
        * intros z Hz. apply Hdisj'. apply elem_of_app. by left.
        * by apply spliceThrough_pathOf.
      + rewrite (deref_Some _ _ _ Hy). simpl.
        rewrite unshiftOpt_pathOf.
        destruct (IH a' (parent cy) ({[y]} ∪ visited') fa fb da' (db ++ [y]) ca' cb' a0 b0)
          as (res & Hres & Hpost); auto.
        * by rewrite <- app_assoc.
        * intros x. rewrite elem_of_union, elem_of_singleton, Hvis', elem_of_app, list_elem_of_singleton. tauto.
        * intros x Hx. rewrite elem_of_app, list_elem_of_singleton.
          intros [Hx'| ->]; [by apply (Hdisj' x)|].
          apply Hnin, Hvis'. by left.
        * simpl in Hlen. lia.
        * exists res. split; [done|].
          rewrite Heq, <- app_assoc in Hpost. done.
    - inversion Hb; subst.
      destruct (IH a' None visited' fa fb da' db ca' [] a0 b0)
          as (res & Hres & Hpost); auto.
      exists res. split; [done|]. by rewrite Heq in Hpost. }
  destruct a as [x|].
  - inversion Ha as [|? cx ca' Hx Hca']; subst.
    assert (E : fcaLoop h (S fuel) (Some x) b visited (pathOf fa da) (pathOf fb db) =
      if decide (x ∈ visited) then
        Ok (Some x, pathOf fa da, spliceThrough x <$> pathOf fb db)
      else
        cx ← deref h x;
        match b with
        | Some y =>
          if decide (y ∈ {[x]} ∪ visited) then
            Ok (Some y, spliceThrough y <$> unshiftOpt x (pathOf fa da), pathOf fb db)
          else
            cy ← deref h y;
            fcaLoop h fuel (parent cx) (parent cy) ({[y]} ∪ ({[x]} ∪ visited))
              (unshiftOpt x (pathOf fa da)) (unshiftOpt y (pathOf fb db))
        | None => fcaLoop h fuel (parent cx) None ({[x]} ∪ visited)
                    (unshiftOpt x (pathOf fa da)) (pathOf fb db)
        end) by (by destruct b).
    rewrite E. clear E.
    destruct (decide (x ∈ visited)) as [Hin|Hnin].
    + eexists; split; [done|]. simpl.
      apply Hvis in Hin as [Hin|Hin].
      { apply NoDup_app in NDA as (_ & Hno & _). exfalso.
        apply (Hno x Hin). left. }
      apply list_elem_of_split in Hin as (d1 & d2 & ->).
      assert (Hxd2 : x ∉ d2).
      { rewrite <- app_assoc in NDB. apply NoDup_app in NDB as (_ & _ & ND).
        simpl in ND. apply NoDup_cons in ND as [ND _].
        intros ?. apply ND. apply elem_of_app. by left. }
      rewrite <- app_assoc in HB. simpl in HB.
      pose proof (ancestry_suffix _ _ _ _ _ HB) as Hsuf.
      pose proof (ancestry_det _ _ _ _ Hsuf Ha) as E.
      exists da, d1, (x :: ca'). split_and!; auto.
      * rewrite <- app_assoc. simpl. by rewrite E.
      * intros z Hz Hz'. apply (Hdisj z Hz). apply elem_of_app. by left.
      * by apply spliceThrough_pathOf.
    + rewrite (deref_Some _ _ _ Hx). simpl.
      rewrite unshiftOpt_pathOf.
      apply (stepB (parent cx) ({[x]} ∪ visited) (da ++ [x]) ca'); auto.
      * by rewrite <- app_assoc.
      * by rewrite <- app_assoc.
      * intros z. rewrite elem_of_union, elem_of_singleton, Hvis, elem_of_app, list_elem_of_singleton. tauto.
      * intros z. rewrite elem_of_app, list_elem_of_singleton.
        intros [Hz| ->]; [by apply Hdisj|].
        intros Hz. apply Hnin, Hvis. by right.
      * simpl in Hfuel. destruct b; lia.
  - inversion Ha; subst.
    destruct b as [y|].
    + apply (stepB None visited da []); auto.
    + inversion Hb; subst. simpl.
      eexists; split; [done|]. simpl.
      rewrite !clearOpt_pathOf, !app_nil_r. split_and!; auto.
Qed.

#[local] Arguments fcaLoop : simpl never.

Lemma findCommonAncestor_spec h a b fa fb ca cb :
  ancestry h a ca → ancestry h b cb →
  ∃ res, findCommonAncestor h a (pathOf fa []) b (pathOf fb []) = Ok res
         ∧ fca_post h fa fb ca cb res.
Proof.
  intros Ha Hb. unfold findCommonAncestor.
  assert (He : ∀ f, isEmptyOpt (pathOf f []) = true) by (by intros []).
  rewrite !He. simpl.
  destruct (decide (a = b)) as [<-|Hne].
  - pose proof (ancestry_det _ _ _ _ Ha Hb) as <-.
    eexists; split; [done|]. destruct a as [x|]; simpl.
    + exists [], [], ca. split_and!; auto. intros y Hy. by apply elem_of_nil in Hy.
    + inversion Ha; subst. split_and!; auto. intros y Hy. by apply elem_of_nil in Hy.
  - apply (fcaLoop_spec h _ a b ∅ fa fb [] [] ca cb a b); auto.
    + intros x. rewrite elem_of_empty, !elem_of_nil. tauto.
    + intros x Hx. by apply elem_of_nil in Hx.
    + pose proof (ancestry_length _ _ _ Ha). pose proof (ancestry_length _ _ _ Hb). lia.
Qed.

(** The split of two chains at their deepest common commit is unique. *)
Lemma fca_post_split h fa fb ps pt anc ca res b :
  ancestry h b (pt ++ anc :: ca) →
  (∀ y, y ∈ ps → y ∉ pt) →
  fca_post h fa fb (ps ++ anc :: ca) (pt ++ anc :: ca) res →
  res = (Some anc, pathOf fa ps, pathOf fb pt).
Proof.
  intros HB Hdisj. destruct res as [[[x|] pA] pB]; simpl.
  - intros (pa & pb & cx & Hx & EA & EB & Hd & -> & ->).
    apply app_eq_app in EA as [l [[-> ->]|[-> E]]].
    + rewrite (app_assoc pb) in EB. apply app_inv_tail in EB as ->.
      destruct l as [|z l].
      * rewrite !app_nil_r. simpl in Hx. inversion Hx; subst. done.
      * exfalso. apply (Hdisj z); apply elem_of_app; right; left.
    + rewrite E, (app_assoc pt) in EB. apply app_inv_tail in EB as <-.
      destruct l as [|z l].
      * rewrite !app_nil_r. simpl in E. subst cx. inversion Hx; subst. done.
      * exfalso. apply (Hd z); apply elem_of_app; right; left.
  - intros (Hd & _). exfalso. apply (Hd anc); apply elem_of_app; right; left.
Qed.

(** [findCommonAncestor] on two related commits, against the graph. *)
Lemma findCommonAncestor_split h a b fa fb ps pt anc ca :
  ancestry h a (ps ++ anc :: ca) → ancestry h b (pt ++ anc :: ca) →
  (∀ y, y ∈ ps → y ∉ pt) →
  findCommonAncestor h a (pathOf fa []) b (pathOf fb [])
  = Ok (Some anc, pathOf fa ps, pathOf fb pt).
Proof.
  intros Ha Hb Hd.
  destruct (findCommonAncestor_spec h a b fa fb _ _ Ha Hb) as (res & -> & Hpost).
  f_equal. eapply fca_post_split; eauto.
Qed.

(** On unrelated commits the search reports no ancestor. *)
Lemma findCommonAncestor_unrelated h a b fa fb ca cb :
  ancestry h a ca → ancestry h b cb → (∀ y, y ∈ ca → y ∉ cb) →
  findCommonAncestor h a (pathOf fa []) b (pathOf fb [])
  = Ok (None, pathOf fa [], pathOf fb []).
Proof.
  intros Ha Hb Hd.
  destruct (findCommonAncestor_spec h a b fa fb _ _ Ha Hb) as (res & -> & Hpost).
  f_equal. destruct res as [[[x|] pA] pB]; simpl in Hpost.
  - destruct Hpost as (pa & pb & cx & Hx & -> & -> & _). exfalso.
    inversion Hx; subst. apply (Hd x); apply elem_of_app; right; left.
  - by destruct Hpost as (_ & -> & ->).
Qed.

(** Two related chains always have a split. *)
Lemma related_split h a b ca cb z :
  ancestry h a ca → ancestry h b cb → z ∈ ca → z ∈ cb →
  ∃ ps pt anc c, ca = ps ++ anc :: c ∧ cb = pt ++ anc :: c ∧ (∀ y, y ∈ ps → y ∉ pt).
Proof.
  intros Ha Hb Hza Hzb.
  destruct (findCommonAncestor_spec h a b true true _ _ Ha Hb) as (res & _ & Hpost).
  destruct res as [[[x|] pA] pB]; simpl in Hpost.
  - destruct Hpost as (pa & pb & cx & Hx & -> & -> & Hd & _).
    inversion Hx; subst. eauto 10.
  - destruct Hpost as (Hd & _). by destruct (Hd z).
Qed.

(** C4. For two commits with a common ancestor, [findCommonAncestor] returns
    their unique deepest common ancestor; each supplied, initially empty
    out-path ends up holding, most distant first, the commits strictly below
    the ancestor down to and including the descendant, so that the path
    (read backwards) followed by the ancestor's own chain is the
    descendant's whole parent chain; for equal arguments the ancestor is
    that commit and both paths are empty. *)
Theorem findCommonAncestor_deepest h (a b : ref) ca cb z :
  ancestry h (Some a) ca → ancestry h (Some b) cb → z ∈ ca → z ∈ cb →
  ∃ anc pathA pathB chain,
    findCommonAncestor h (Some a) (Some []) (Some b) (Some [])
      = Ok (Some anc, Some pathA, Some pathB)
    ∧ ancestry h (Some anc) chain
    ∧ ca = reverse pathA ++ chain
    ∧ cb = reverse pathB ++ chain
    ∧ (∀ y, y ∈ ca → y ∈ cb → y ∈ chain)
    ∧ (∀ anc' chain', ancestry h (Some anc') chain' →
         anc' ∈ ca → anc' ∈ cb →
         (∀ y, y ∈ ca → y ∈ cb → y ∈ chain') → anc' = anc)
    ∧ (a = b → anc = a ∧ pathA = [] ∧ pathB = []).
Proof.
  intros Ha Hb Hza Hzb.
  destruct (related_split _ _ _ _ _ _ Ha Hb Hza Hzb) as (ps & pt & anc & c & -> & -> & Hd).
  pose proof (findCommonAncestor_split h _ _ true true _ _ _ _ Ha Hb Hd) as E.
  simpl in E.
  pose proof (ancestry_NoDup _ _ _ Ha) as NDA.
  pose proof (ancestry_suffix _ _ _ _ _ Ha) as Hanc.
  assert (Hdeep : ∀ y, y ∈ ps ++ anc :: c → y ∈ pt ++ anc :: c → y ∈ anc :: c).
  { intros y Hya Hyb. apply elem_of_app in Hya as [Hya|]; [|done].
    apply elem_of_app in Hyb as [Hyb|Hyb]; [by destruct (Hd y)|].
    apply NoDup_app in NDA as (_ & Hno & _). by destruct (Hno y). }
  exists anc, (reverse ps), (reverse pt), (anc :: c).
  rewrite !reverse_involutive. split_and!; auto.
  - intros anc' chain' Hanc' Ha' Hb' Hdeep'.
    pose proof (Hdeep _ Ha' Hb') as Hin.
    apply elem_of_cons in Hin as [->|Hin]; [done|].
    apply list_elem_of_split in Hin as (c1 & c2 & ->).
    pose proof (ancestry_suffix _ _ (anc :: c1) _ _ Hanc) as Hs.
    pose proof (ancestry_det _ _ _ _ Hanc' Hs) as ->.
    assert (Hin : anc ∈ anc' :: c2).
    { apply Hdeep'; apply elem_of_app; right; left. }
    pose proof (ancestry_NoDup _ _ _ Hanc) as ND.
    apply NoDup_cons in ND as [ND _]. exfalso. apply ND.
    apply elem_of_app. by right.
  - intros <-. pose proof (ancestry_det _ _ _ _ Ha Hb) as Eq.
    assert (ps = pt) as <-.
    { apply (f_equal reverse) in Eq. rewrite !reverse_app in Eq.
      apply app_inv_head in Eq. by apply (inj reverse). }
    destruct ps as [|y ps].
    + inversion Ha; subst. done.
    + exfalso. apply (Hd y); left.
Qed.

End FindCommonAncestor.

(** ** Running the state monad *)

Section MonadFacts.
Context {TChange : Type}.
Implicit Types (h : Heap TChange) (w : World TChange).

Lemma bind_Ok {A B} (m : M A) (k : A → M B) w a w1 :
  m w = (Ok a, w1) → (m ≫= k) w = k a w1.
Proof. unfold mbind, M_bind. by intros ->. Qed.

Lemma bind_Err {A B} (m : M A) (k : A → M B) w f w1 :
  m w = (Err f, w1) → (m ≫= k) w = (Err f, w1).
Proof. unfold mbind, M_bind. by intros ->. Qed.

Lemma bind_inv {A B} (m : M A) (k : A → M B) w b w' :
  (m ≫= k) w = (Ok b, w') → ∃ a w1, m w = (Ok a, w1) ∧ k a w1 = (Ok b, w').
Proof.
  unfold mbind, M_bind. destruct (m w) as [[a|f] w1]; [eauto|done].
Qed.

Lemma liftR_Ok {A} (f : Heap TChange → Outcome A) w a :
  f (heap w) = Ok a → liftR f w = (Ok a, w).
Proof. unfold liftR. by intros ->. Qed.

Lemma liftR_inv {A} (f : Heap TChange → Outcome A) w a w' :
  liftR f w = (Ok a, w') → f (heap w) = Ok a ∧ w' = w.
Proof. unfold liftR. by intros [= -> ->]. Qed.

Lemma mret_inv {A} (a b : A) w w' :
  (mret a : M A) w = (Ok b, w') → b = a ∧ w' = w.
Proof. unfold mret, M_ret. by intros [= -> ->]. Qed.

(** *** Reading is stable under allocation *)

Lemma deref_mono h h' r c : h `prefix_of` h' → deref h r = Ok c → deref h' r = Ok c.
Proof.
  intros Hp. unfold deref. destruct (h !! r) as [c'|] eqn:E; [|done].
  intros [= ->]. apply deref_Some. by apply (prefix_lookup_Some _ _ _ _ E Hp).
Qed.

Lemma deref_inv h r c : deref h r = Ok c → h !! r = Some c.
Proof. unfold deref. by destruct (h !! r); intros [= ->]. Qed.

Lemma derefAll_mono h h' l cs :
  h `prefix_of` h' → derefAll h l = Ok cs → derefAll h' l = Ok cs.
Proof.
  intros Hp. revert cs. induction l as [|r l IH]; intros cs; simpl; [done|].
  destruct (deref h r) as [c|] eqn:Er; [|done]. simpl.
  destruct (derefAll h l) as [cs'|] eqn:El; [|done]. simpl.
  intros [= <-]. by rewrite (deref_mono _ _ _ _ Hp Er), (IH _ eq_refl).
Qed.

Lemma derefAll_lookup h l cs :
  derefAll h l = Ok cs ↔ length cs = length l ∧ ∀ i r, l !! i = Some r → h !! r = cs !! i.
Proof.
  revert cs. induction l as [|r l IH]; intros cs; simpl.
  - split.
    + intros [= <-]. split; [done|]. by intros [].
    + intros [Hl _]. by destruct cs.
  - split.
    + destruct (deref h r) as [c|] eqn:Er; [|done]. simpl.
      destruct (derefAll h l) as [cs'|] eqn:El; [|done]. simpl.
      intros [= <-]. apply deref_inv in Er.
      destruct (proj1 (IH cs') eq_refl) as [Hl Hi]. split; [simpl; lia|].
      intros [|i] r'; simpl; [by intros [= <-]|]. apply Hi.
    + intros [Hl Hi]. destruct cs as [|c cs]; [done|].
      rewrite (deref_Some h r c) by (by rewrite (Hi 0 r)). simpl.
      rewrite (proj2 (IH cs)); [done|]. split; [simpl in Hl; lia|].
      intros i r' Hr. apply (Hi (S i) r' Hr).
Qed.

Lemma derefAll_app h l1 l2 cs1 cs2 :
  derefAll h l1 = Ok cs1 → derefAll h l2 = Ok cs2 →
  derefAll h (l1 ++ l2) = Ok (cs1 ++ cs2).
Proof.
  revert cs1. induction l1 as [|r l1 IH]; intros cs1; simpl.
  - by intros [= <-].
  - destruct (deref h r) as [c|]; [|done]. simpl.
    destruct (derefAll h l1) as [cs'|]; [|done]. simpl.
    intros [= <-] H2. by rewrite (IH _ eq_refl H2).
Qed.

Lemma derefAll_app_inv h l1 l2 cs :
  derefAll h (l1 ++ l2) = Ok cs →
  ∃ cs1 cs2, cs = cs1 ++ cs2 ∧ derefAll h l1 = Ok cs1 ∧ derefAll h l2 = Ok cs2.
Proof.
  revert cs. induction l1 as [|r l1 IH]; intros cs; simpl.
  - intros H. by exists [], cs.
  - destruct (deref h r) as [c|]; [|done]. simpl.
    destruct (derefAll h (l1 ++ l2)) as [cs'|] eqn:E; [|done]. simpl.
    intros [= <-]. destruct (IH _ eq_refl) as (cs1 & cs2 & -> & -> & ->).
    by exists (c :: cs1), cs2.
Qed.

Lemma derefAll_bound h l : (∀ x, x ∈ l → is_Some (h !! x)) → ∃ cs, derefAll h l = Ok cs.
Proof.
  induction l as [|r l IH]; intros Hb; simpl; [eauto|].
  destruct (Hb r) as [c Hc]; [left|]. rewrite (deref_Some _ _ _ Hc). simpl.
  destruct IH as [cs ->]; [|simpl; eauto].
  intros x Hx. apply Hb. by right.
Qed.

(** *** Frame: a computation only ever extends the store *)

Lemma frames_ret {A} (a : A) : frames (TChange:=TChange) (mret a).
Proof. by intros w. Qed.

Lemma frames_fail {A} f : frames (TChange:=TChange) (failM f : M A).
Proof. by intros w. Qed.

Lemma frames_liftR {A} (f : Heap TChange → Outcome A) : frames (liftR f).
Proof. by intros w. Qed.

Lemma frames_assert cond msg : frames (assertM (TChange:=TChange) cond msg).
Proof. by intros w. Qed.

Lemma frames_alloc c : frames (alloc (TChange:=TChange) c).
Proof. intros w. simpl. by apply prefix_app_r. Qed.

Lemma frames_mintRevisionTag : frames (mintRevisionTag (TChange:=TChange)).
Proof. by intros w. Qed.

Lemma frames_logCall {A} call (r : option A) : frames (logCall (TChange:=TChange) call r).
Proof. by intros w. Qed.

Lemma frames_bind {A B} (m : M (TChange:=TChange) A) (k : A → M B) :
  frames m → (∀ a, frames (k a)) → frames (m ≫= k).
Proof.
  intros Hm Hk w. unfold mbind, M_bind. specialize (Hm w).
  destruct (m w) as [[a|f] w1]; simpl in *; [|done].
  etrans; [done|]. apply Hk.
Qed.

End MonadFacts.

(** ** The store is never written *)

Section Frame.
Context {TChange : Type} (changeRebaser : ChangeRebaser TChange).

Create HintDb frames.
#[local] Hint Resolve frames_ret frames_fail frames_liftR frames_assert
  frames_alloc frames_mintRevisionTag frames_logCall : frames.

Ltac frames_step :=
  first
    [ apply frames_bind; [|intros ?]
    | progress eauto with frames
    | match goal with
      | |- frames (let '(_, _) := ?p in _) => destruct p
      | |- frames (match ?x with _ => _ end) => destruct x
      end ].

Lemma frames_rebaseChangeOverChanges c overs :
  frames (rebaseChangeOverChanges changeRebaser c overs).
Proof.
  revert c. induction overs as [|b rest IH]; intros c; simpl.
  - apply frames_ret.
  - apply frames_bind; [apply frames_logCall|auto].
Qed.

Lemma frames_inverseFromCommit c : frames (inverseFromCommit changeRebaser c).
Proof. unfold inverseFromCommit, callInvert. repeat frames_step. Qed.

Lemma frames_mintCommit p c : frames (mintCommit (TChange:=TChange) p c).
Proof. unfold mintCommit. repeat frames_step. Qed.

Lemma frames_reparentLoop sp nb nsc : frames (reparentLoop (TChange:=TChange) sp nb nsc).
Proof.
  revert nsc. induction sp as [|c rest IH]; intros nsc; simpl.
  - apply frames_ret.
  - apply frames_bind; [apply frames_mintCommit|auto].
Qed.

Lemma frames_rebaseLoop ss sp nh inv trp nsc :
  frames (rebaseLoop changeRebaser ss sp nh inv trp nsc).
Proof.
  revert nh inv trp nsc. induction sp as [|r rest IH]; intros nh inv trp nsc; simpl.
  - apply frames_ret.
  - apply frames_bind; [apply frames_liftR|intros c].
    apply frames_bind.
    + destruct (decide _); [|apply frames_ret].
      apply frames_bind; [apply frames_liftR|intros over].
      apply frames_bind; [apply frames_rebaseChangeOverChanges|intros c'].
      repeat frames_step.
    + intros [[nh' trp'] nsc'].
      apply frames_bind; [apply frames_inverseFromCommit|auto].
Qed.

Lemma frames_rebaseBranch s tc th : frames (rebaseBranch changeRebaser s tc th).
Proof.
  unfold rebaseBranch.
  apply frames_bind; [apply frames_liftR|intros [[[anc|] sp] tp]]; [|apply frames_fail].
  destruct (findIndex _ _) as [tci|].
  - apply frames_bind; [apply frames_liftR|intros cs].
    apply frames_bind; [apply frames_liftR|intros [ss nbi]].
    destruct (_ !! nbi) as [nb|]; [|apply frames_fail].
    apply frames_bind; [apply frames_liftR|intros [sp' [|t trp']]].
    + apply frames_bind; [apply frames_reparentLoop|intros ?; apply frames_ret].
    + apply frames_bind; [apply frames_rebaseLoop|intros [[[nh inv] trp''] nsc]].
      apply frames_bind; [apply frames_liftR|intros over].
      apply frames_bind; [apply frames_logCall|intros ?; apply frames_ret].
  - apply frames_bind; [apply frames_liftR|intros [[rel ?] ?]].
    apply frames_bind; [apply frames_assert|intros ?; apply frames_ret].
Qed.

(** C9. [rebaseBranch] never modifies a commit that existed before the
    call: however the call ends (a result, a failed assertion, an exception
    of the algebra), every reference of the initial store still holds the
    same revision, sessionId, change and parent afterwards. *)
Theorem rebaseBranch_frame s tc th (w : World TChange) :
  heap w `prefix_of` heap (rebaseBranch changeRebaser s tc th w).2
  ∧ ∀ r c, heap w !! r = Some c →
      heap (rebaseBranch changeRebaser s tc th w).2 !! r = Some c.
Proof.
  pose proof (frames_rebaseBranch s tc th w) as Hp. split; [done|].
  intros r c Hr. by apply (prefix_lookup_Some _ _ _ _ Hr Hp).
Qed.

End Frame.

(** ** The read-only loops of [rebaseBranch] *)

Section Loops.
Context {TChange : Type}.
Implicit Types (h : Heap TChange) (w : World TChange) (l sp tp trp : list ref).

Lemma scanTarget_bounds h tci : ∀ rest i ss nbi ss' nbi',
  scanTarget h tci i rest ss nbi = Ok (ss', nbi') →
  nbi ≤ nbi' ∧ (nbi' = nbi ∨ i ≤ nbi' < i + length rest).
Proof.
  induction rest as [|t rest IH]; intros i ss nbi ss' nbi'; simpl.
  - intros [= _ <-]. lia.
  - destruct (deref h t) as [c|]; [|done]. simpl.
    destruct (decide (revision c ∈ ss)).
    + intros H. apply IH in H. lia.
    + destruct (decide (tci ≤ i)).
      * intros [= _ <-]. lia.
      * intros H. apply IH in H. lia.
Qed.

(** The scan only ever removes tags from the source set. *)
Lemma scanTarget_subset h tci : ∀ rest i ss nbi ss' nbi',
  scanTarget h tci i rest ss nbi = Ok (ss', nbi') → ss' ⊆ ss.
Proof.
  induction rest as [|t rest IH]; intros i ss nbi ss' nbi'; simpl.
  - by intros [= <- _].
  - destruct (deref h t) as [c|]; [|done]. simpl.
    destruct (decide (revision c ∈ ss)).
    + intros H. pose proof (IH _ _ _ _ _ H) as Hs.
      intros y Hy. apply Hs in Hy. by apply elem_of_difference in Hy as [? _].
    + destruct (decide (tci ≤ i)).
      * by intros [= <- _].
      * intros H. by apply IH in H.
Qed.

Lemma scanTarget_total h tci : ∀ rest cs i ss nbi,
  derefAll h rest = Ok cs → ∃ res, scanTarget h tci i rest ss nbi = Ok res.
Proof.
  induction rest as [|t rest IH]; intros cs i ss nbi; simpl; [eauto|].
  destruct (deref h t) as [c|]; [|done]. simpl.
  destruct (derefAll h rest) as [cs'|]; [|done]. simpl. intros _.
  destruct (decide _); [by eapply IH|].
  destruct (decide _); [eauto|by eapply IH].
Qed.

Lemma stripLoop_drop h : ∀ n sp trp sp' trp',
  stripLoop h n sp trp = Ok (sp', trp') →
  ∃ k, k ≤ n ∧ k ≤ length sp ∧ k ≤ length trp ∧ sp' = drop k sp ∧ trp' = drop k trp.
Proof.
  induction n as [|n IH]; intros sp trp sp' trp'; simpl.
  - intros [= <- <-]. exists 0. split_and!; auto; lia.
  - destruct sp as [|s sp], trp as [|t trp]; try done.
    destruct (deref h s) as [cs|]; [|done]. simpl.
    destruct (deref h t) as [ct|]; [|done]. simpl.
    destruct (decide _).
    + intros H. destruct (IH _ _ _ _ H) as (k & ? & ? & ? & -> & ->).
      exists (S k). simpl. split_and!; auto; lia.
    + intros H. destruct (IH _ _ _ _ H) as (k & ? & ? & ? & -> & ->).
      exists k. simpl. split_and!; auto; lia.
Qed.

(** With as many iterations as the shorter path is long, the loop never
    reads past the end of a path. *)
Lemma stripLoop_total h : ∀ n sp trp cs ct,
  derefAll h sp = Ok cs → derefAll h trp = Ok ct →
  n ≤ length sp → n ≤ length trp →
  ∃ res, stripLoop h n sp trp = Ok res.
Proof.
  induction n as [|n IH]; intros sp trp cs ct Hs Ht Hn1 Hn2; simpl; [eauto|].
  destruct sp as [|s sp], trp as [|t trp]; simpl in *; try lia.
  destruct (deref h s) as [c1|] eqn:E1; [|done]. simpl in *.
  destruct (deref h t) as [c2|] eqn:E2; [|done]. simpl in *.
  destruct (derefAll h sp) as [cs'|] eqn:E3; [|done].
  destruct (derefAll h trp) as [ct'|] eqn:E4; [|done].
  destruct (decide _).
  - eapply IH; eauto; lia.
  - eapply (IH (s :: sp) (t :: trp)); simpl; eauto; try lia.
    + by rewrite E1, E3.
    + by rewrite E2, E4.
Qed.

(** A source path whose tags are, in order, a proper prefix of the tags of
    the target rebase path is stripped away completely. *)
Lemma stripLoop_source_prefix h : ∀ sp trp cs ct n,
  derefAll h sp = Ok cs → derefAll h trp = Ok ct →
  revision <$> cs = take (length cs) (revision <$> ct) →
  length sp ≤ length trp → n = length sp →
  stripLoop h n sp trp = Ok ([], drop (length sp) trp).
Proof.
  induction sp as [|s sp IH]; intros trp cs ct n Hs Ht Hrev Hlen ->; simpl; [done|].
  destruct trp as [|t trp]; simpl in *; [lia|].
  destruct (deref h s) as [c1|] eqn:E1; [|done]. simpl in *.
  destruct (deref h t) as [c2|] eqn:E2; [|done]. simpl in *.
  destruct (derefAll h sp) as [cs'|] eqn:E3; [|done].
  destruct (derefAll h trp) as [ct'|] eqn:E4; [|done].
  simpl in *. injection Hs as <-. injection Ht as <-. simpl in Hrev.
  injection Hrev as Hr Hrev. rewrite decide_True by done.
  eapply IH; eauto. lia.
Qed.

(** *** Reparenting *)

Lemma lastOr_snoc nb l x : lastOr nb (l ++ [x]) = x.
Proof. unfold lastOr. by rewrite last_snoc. Qed.

End Loops.

Section Reparent.
Context {TChange : Type}.
Implicit Types (h : Heap TChange) (w : World TChange) (l sp tp trp : list ref).

Lemma length_reparented p n (cs : list (GraphCommit TChange)) :
  length (reparented p n cs) = length cs.
Proof. revert p n. induction cs; intros; simpl; auto. Qed.

Lemma reparentLoop_spec : ∀ sp cs nb nsc w,
  derefAll (heap w) sp = Ok cs →
  reparentLoop sp nb nsc w =
    (Ok (nsc ++ seq (length (heap w)) (length sp)),
     {| heap := heap w ++ reparented (lastOr nb nsc) (length (heap w)) cs;
        tagCounter := tagCounter w; calls := calls w |}).
Proof.
  induction sp as [|r sp IH]; intros cs nb nsc w; simpl.
  - intros [= <-]. simpl. rewrite !app_nil_r. by destruct w.
  - destruct (deref (heap w) r) as [c|] eqn:Er; [|done]. simpl.
    destruct (derefAll (heap w) sp) as [cs'|] eqn:Es; [|done]. simpl.
    intros [= <-]. unfold mintCommit.
    erewrite bind_Ok; [|erewrite bind_Ok; [|by apply liftR_Ok]; reflexivity].
    simpl. erewrite IH.
    2:{ simpl. eapply derefAll_mono; [|done]. by apply prefix_app_r. }
    simpl. rewrite lastOr_snoc, length_app. simpl.
    rewrite <- !app_assoc. simpl. repeat f_equal; lia.
Qed.

(** The copy at position [i] of the reparented commits. *)
Lemma reparented_lookup : ∀ (cs : list (GraphCommit TChange)) p n i c,
  cs !! i = Some c →
  reparented p n cs !! i =
    Some {| revision := revision c; sessionId := sessionId c; change := change c;
            parent := Some (match i with 0 => p | S j => n + j end) |}.
Proof.
  induction cs as [|c0 cs IH]; intros p n [|i] c; simpl; try done.
  - by intros [= ->].
  - intros H. rewrite (IH _ _ _ _ H). repeat f_equal. destruct i; lia.
Qed.

End Reparent.

(** ** The paths through [rebaseBranch] *)

Section Branch.
Context {TChange : Type} (changeRebaser : ChangeRebaser TChange).
Implicit Types (w : World TChange) (sp tp trp : list ref).

Lemma last_take_lookup {A} (l : list A) i x :
  l !! i = Some x → last (take (S i) l) = Some x.
Proof.
  intros H. rewrite last_lookup, length_take.
  pose proof (lookup_lt_Some _ _ _ H).
  replace (pred (S i `min` length l)) with i by lia.
  rewrite lookup_take_lt by lia. done.
Qed.

(** Every way [rebaseBranch] can return a result. *)
Lemma rebaseBranch_inv s tc oth w hd chg rc w' :
  rebaseBranch changeRebaser s tc oth w = (Ok (hd, chg, rc), w') →
  ∃ anc osp otp,
    findCommonAncestor (heap w) (Some s) (Some []) (Some (default tc oth)) (Some [])
      = Ok (Some anc, osp, otp) ∧
    let sp := default [] osp in
    let tp := default [] otp in
    (findIndex tc tp = None ∧ hd = s ∧ chg = None ∧ w' = w ∧
     rc = {| newBase := anc; deletedSourceCommits := []; newSourceCommits := [] |})
    ∨ ∃ tci cs ss nbi nb sp' trp',
        findIndex tc tp = Some tci ∧
        derefAll (heap w) sp = Ok cs ∧
        scanTarget (heap w) tci 0 tp (list_to_set (revision <$> cs)) tci = Ok (ss, nbi) ∧
        tp !! nbi = Some nb ∧
        stripLoop (heap w) (length sp `min` length (take (S nbi) tp)) sp
          (take (S nbi) tp) = Ok (sp', trp') ∧
        ((trp' = [] ∧ chg = None ∧
          ∃ nsc, reparentLoop sp' nb (take (S nbi) tp) w = (Ok nsc, w') ∧
            hd = lastOr nb nsc ∧
            rc = {| newBase := nb; deletedSourceCommits := sp;
                    newSourceCommits := nsc |})
         ∨ (trp' ≠ [] ∧
            ∃ inv trp'' nsc w1 over sc,
              rebaseLoop changeRebaser ss sp' nb [] trp' (take (S nbi) tp) w
                = (Ok (hd, inv, trp'', nsc), w1) ∧
              derefAll (heap w1) trp'' = Ok over ∧
              callCompose changeRebaser (inv ++ (asTagged <$> over)) w1 = (Ok sc, w') ∧
              chg = Some sc ∧
              rc = {| newBase := nb; deletedSourceCommits := sp;
                      newSourceCommits := nsc |})).
Proof.
  unfold rebaseBranch. intros H.
  apply bind_inv in H as ([[anc osp] otp] & w1 & H1 & H).
  apply liftR_inv in H1 as [H1 ->].
  destruct anc as [anc|]; [|done].
  exists anc, osp, otp. split; [done|]. simpl.
  destruct (findIndex tc (default [] otp)) as [tci|].
  - right.
    apply bind_inv in H as (cs & w1 & H2 & H). apply liftR_inv in H2 as [H2 ->].
    apply bind_inv in H as ([ss nbi] & w1 & H3 & H). apply liftR_inv in H3 as [H3 ->].
    destruct (default [] otp !! nbi) as [nb|] eqn:Hnb; [|done].
    apply bind_inv in H as ([sp' trp'] & w1 & H4 & H). apply liftR_inv in H4 as [H4 ->].
    exists tci, cs, ss, nbi, nb, sp', trp'. split_and!; auto.
    destruct trp' as [|t trp'].
    + left. split_and!; auto.
      * apply bind_inv in H as (nsc & w1 & H5 & H). by apply mret_inv in H as [[= _ -> _] _].
      * apply bind_inv in H as (nsc & w1 & H5 & H). apply mret_inv in H as [[= -> _ ->] ->].
        eauto.
    + right. split; [done|].
      apply bind_inv in H as ([[[nh inv] trp''] nsc] & w1 & H5 & H).
      apply bind_inv in H as (over & w2 & H6 & H). apply liftR_inv in H6 as [H6 ->].
      apply bind_inv in H as (sc & w2 & H7 & H). apply mret_inv in H as [[= -> -> ->] ->].
      exists inv, trp'', nsc, w1, over, sc. split_and!; auto.
  - left.
    apply bind_inv in H as ([[rel ?] ?] & w1 & H2 & H). apply liftR_inv in H2 as [H2 ->].
    apply bind_inv in H as (? & w1 & H3 & H). apply liftR_inv in H3 as [H3 ->].
    apply mret_inv in H as [[= -> -> ->] ->]. done.
Qed.

(** The first early return: [targetCommit] is not on the target path. *)
Lemma rebaseBranch_notfound s tc th w anc sp tp rel :
  findCommonAncestor (heap w) (Some s) (Some []) (Some th) (Some [])
    = Ok (Some anc, Some sp, Some tp) →
  findIndex tc tp = None →
  findCommonAncestor (heap w) (Some tc) None (Some th) None = Ok (Some rel, None, None) →
  rebaseBranch changeRebaser s tc (Some th) w =
    (Ok (s, None, {| newBase := anc; deletedSourceCommits := [];
                     newSourceCommits := [] |}), w).
Proof.
  intros H1 H2 H3. unfold rebaseBranch. simpl.
  erewrite bind_Ok; [|by apply liftR_Ok]. simpl. rewrite H2.
  erewrite bind_Ok; [|by apply liftR_Ok]. simpl.
  erewrite bind_Ok; [done|]. unfold assertM. by apply liftR_Ok.
Qed.

(** The second early return: nothing is left of the target rebase path
    once the common prefix has been stripped. *)
Lemma rebaseBranch_reparent s tc th w anc sp tp tci cs ss nbi nb sp' :
  findCommonAncestor (heap w) (Some s) (Some []) (Some th) (Some [])
    = Ok (Some anc, Some sp, Some tp) →
  findIndex tc tp = Some tci →
  derefAll (heap w) sp = Ok cs →
  scanTarget (heap w) tci 0 tp (list_to_set (revision <$> cs)) tci = Ok (ss, nbi) →
  tp !! nbi = Some nb →
  stripLoop (heap w) (length sp `min` length (take (S nbi) tp)) sp (take (S nbi) tp)
    = Ok (sp', []) →
  ∃ k cs', sp' = drop k sp ∧ cs' = drop k cs ∧
    let nsc := take (S nbi) tp ++ seq (length (heap w)) (length sp') in
    rebaseBranch changeRebaser s tc (Some th) w =
      (Ok (lastOr nb nsc, None,
           {| newBase := nb; deletedSourceCommits := sp; newSourceCommits := nsc |}),
       {| heap := heap w ++ reparented nb (length (heap w)) cs';
          tagCounter := tagCounter w; calls := calls w |}).
Proof.
  intros H1 H2 H3 H4 H5 H6.
  destruct (stripLoop_drop _ _ _ _ _ _ H6) as (k & _ & _ & _ & -> & _).
  exists k, (drop k cs). split_and!; auto. simpl.
  assert (Hcs' : derefAll (heap w) (drop k sp) = Ok (drop k cs)).
  { rewrite <- (take_drop k sp) in H3.
    apply derefAll_app_inv in H3 as (cs1 & cs2 & -> & Hc1 & Hc2).
    apply derefAll_lookup in Hc1 as [Hl1 _].
    rewrite Hc2. f_equal.
    destruct (decide (k ≤ length sp)).
    - rewrite length_take in Hl1. rewrite drop_app_length'; [done|lia].
    - apply derefAll_lookup in Hc2 as [Hl2 _].
      rewrite drop_ge in Hl2 by lia. destruct cs2; [|done].
      rewrite app_nil_r, drop_ge; [done|]. rewrite length_take in Hl1. lia. }
  unfold rebaseBranch. simpl.
  erewrite bind_Ok; [|by apply liftR_Ok]. simpl. rewrite H2.
  erewrite bind_Ok; [|by apply liftR_Ok].
  erewrite bind_Ok; [|by apply liftR_Ok]. simpl. rewrite H5.
  erewrite bind_Ok; [|by apply liftR_Ok]. cbv iota beta.
  erewrite bind_Ok; [|by apply reparentLoop_spec].
  unfold lastOr at 2. rewrite (last_take_lookup _ _ _ H5). done.
Qed.

End Branch.

(** ** Preconditions and the early return *)

Section EarlyExits.
Context {TChange : Type} (changeRebaser : ChangeRebaser TChange).
Implicit Types (w : World TChange).

(** C6. When the source head and the target head have no common ancestor,
    [rebaseBranch] and [rebaseChange] both stop at their assertion: the
    outcome is an assertion failure, never a result, and nothing has been
    allocated or asked of the algebra. *)
Theorem unrelated_branches_fail w (sourceHead targetCommit : ref)
    (targetHead : option ref) (c : TChange) cs ct :
  ancestry (heap w) (Some sourceHead) cs →
  ancestry (heap w) (Some (default targetCommit targetHead)) ct →
  (∀ y, y ∈ cs → y ∉ ct) →
  rebaseBranch changeRebaser sourceHead targetCommit targetHead w
    = (Err (AssertionFailed "branches must be related"), w)
  ∧ rebaseChange changeRebaser c sourceHead (default targetCommit targetHead) w
    = (Err (AssertionFailed "branch A and branch B must be related"), w).
Proof.
  intros Hs Ht Hd.
  pose proof (findCommonAncestor_unrelated _ _ _ true true _ _ Hs Ht Hd) as E.
  simpl in E. split.
  - unfold rebaseBranch. simpl.
    erewrite bind_Ok; [|by apply liftR_Ok]. done.
  - unfold rebaseChange.
    erewrite bind_Ok; [|by apply liftR_Ok]. simpl.
    erewrite bind_Err; [done|]. done.
Qed.

(** C7. When [targetCommit] does not occur on the path from the common
    ancestor to [targetHead], being at or behind that ancestor,
    [rebaseBranch] returns the input [sourceHead], no cumulative change,
    empty [deletedSourceCommits] and [newSourceCommits], and the common
    ancestor as [newBase]; the world is left as it was. *)
Theorem target_not_on_path w (sourceHead targetCommit targetHead : ref)
    ps pt anc ca :
  ancestry (heap w) (Some sourceHead) (ps ++ anc :: ca) →
  ancestry (heap w) (Some targetHead) (pt ++ anc :: ca) →
  (∀ y, y ∈ ps → y ∉ pt) →
  targetCommit ∉ pt →
  targetCommit ∈ anc :: ca →
  rebaseBranch changeRebaser sourceHead targetCommit (Some targetHead) w
    = (Ok (sourceHead, None,
           {| newBase := anc; deletedSourceCommits := [];
              newSourceCommits := [] |}), w).
Proof.
  intros Hs Ht Hd Hnot Hin.
  pose proof (findCommonAncestor_split _ _ _ true true _ _ _ _ Hs Ht Hd) as E.
  simpl in E.
  apply list_elem_of_split in Hin as (c1 & c2 & Hc).
  assert (Htc : ancestry (heap w) (Some targetCommit) (targetCommit :: c2)).
  { rewrite Hc, app_assoc in Ht. by apply ancestry_suffix in Ht. }
  assert (E2 : findCommonAncestor (heap w) (Some targetCommit) None (Some targetHead) None
               = Ok (Some targetCommit, None, None)).
  { apply (findCommonAncestor_split _ _ _ false false [] (pt ++ c1) targetCommit c2).
    - done.
    - by rewrite <- app_assoc, <- Hc.
    - intros y Hy. by apply elem_of_nil in Hy. }
  eapply rebaseBranch_notfound; eauto.
  apply findIndex_None. by rewrite elem_of_reverse.
Qed.

End EarlyExits.

(** ** The per-commit loop *)

Section RebaseLoop.
Context {TChange : Type} (changeRebaser : ChangeRebaser TChange).
Implicit Types (w : World TChange) (sp tp trp nsc : list ref).

Lemma logCall_inv {A} call (r : option A) w a w' :
  logCall call r w = (Ok a, w') →
  r = Some a ∧
  w' = {| heap := heap w; tagCounter := tagCounter w; calls := calls w ++ [call] |}.
Proof. unfold logCall. destruct r; [|done]. by intros [= -> <-]. Qed.

Lemma rebaseChangeOverChanges_inv : ∀ overs c w c' w',
  rebaseChangeOverChanges changeRebaser c overs w = (Ok c', w') →
  ∃ rc, w' = {| heap := heap w; tagCounter := tagCounter w; calls := calls w ++ rc |}
        ∧ invertedCommits rc = [].
Proof.
  induction overs as [|b rest IH]; intros c w c' w'; simpl.
  - intros H. apply mret_inv in H as [_ ->].
    exists []. rewrite app_nil_r. by destruct w.
  - intros H. apply bind_inv in H as (a & w1 & H1 & H).
    apply logCall_inv in H1 as [_ ->].
    apply IH in H as (rc & -> & Hrc). simpl.
    exists (CallRebase c b :: rc). rewrite <- app_assoc. done.
Qed.

Lemma inverseFromCommit_inv c w i w' :
  inverseFromCommit changeRebaser c w = (Ok i, w') →
  ∃ x, invert changeRebaser (asTagged c) true = Some x ∧
    i = tagRollbackInverse x (tagCounter w) (revision c) ∧
    w' = {| heap := heap w; tagCounter := S (tagCounter w);
            calls := calls w ++ [CallInvert (asTagged c) true] |}.
Proof.
  unfold inverseFromCommit. intros H.
  apply bind_inv in H as (x & w1 & H1 & H).
  apply logCall_inv in H1 as [Hx ->].
  apply bind_inv in H as (t & w2 & H2 & H).
  injection H2 as <- <-. apply mret_inv in H as [-> ->]. eauto.
Qed.

(** One iteration, read back from a successful run. *)
Lemma rebaseLoop_cons_inv ss r rest nh inv trp nsc w res w' :
  rebaseLoop changeRebaser ss (r :: rest) nh inv trp nsc w = (Ok res, w') →
  ∃ c x nh1 trp1 nsc1 h1 calls1,
    deref (heap w) r = Ok c ∧
    invert changeRebaser (asTagged c) true = Some x ∧
    rebaseLoop changeRebaser ss rest nh1
      (tagRollbackInverse x (tagCounter w) (revision c) :: inv) trp1 nsc1
      {| heap := h1; tagCounter := S (tagCounter w);
         calls := calls1 ++ [CallInvert (asTagged c) true] |} = (Ok res, w') ∧
    (((revision c ∉ ss) ∧ nh1 = nh ∧ trp1 = trp ∧ nsc1 = nsc ∧
      h1 = heap w ∧ calls1 = calls w)
     ∨ (revision c ∈ ss ∧ ∃ change' rc,
          nh1 = length (heap w) ∧
          trp1 = trp ++ [S (length (heap w))] ∧
          nsc1 = nsc ++ [length (heap w)] ∧
          h1 = heap w ++
               [ {| revision := revision c; sessionId := sessionId c;
                    change := change'; parent := Some nh |};
                 {| revision := revision c; sessionId := sessionId c;
                    change := change'; parent := parent c |} ] ∧
          calls1 = calls w ++ rc ∧ invertedCommits rc = [])).
Proof.
  simpl. intros H. apply bind_inv in H as (c & w1 & H1 & H).
  apply liftR_inv in H1 as [Hc ->].
  apply bind_inv in H as ([[nh1 trp1] nsc1] & w1 & Hstep & H).
  apply bind_inv in H as (i & w2 & Hinv & H).
  apply inverseFromCommit_inv in Hinv as (x & Hx & -> & ->).
  destruct (decide (revision c ∈ ss)) as [Hin|Hnin].
  - apply bind_inv in Hstep as (over & w3 & H3 & Hstep).
    apply liftR_inv in H3 as [Hover ->].
    apply bind_inv in Hstep as (change' & w3 & H4 & Hstep).
    apply rebaseChangeOverChanges_inv in H4 as (rc & -> & Hrc).
    apply bind_inv in Hstep as (a1 & w4 & H5 & Hstep).
    injection H5 as <- <-.
    apply bind_inv in Hstep as (a2 & w5 & H6 & Hstep).
    injection H6 as <- <-.
    apply mret_inv in Hstep as [[= -> -> ->] ->]. simpl in *.
    rewrite length_app in H. simpl in H.
    replace (length (heap w) + 1) with (S (length (heap w))) in H by lia.
    exists c, x. eexists _, _, _, _, _. split_and!; [done|done|..].
    + rewrite <- app_assoc in H. exact H.
    + right. split; [done|]. exists change', rc. split_and!; auto.
  - apply mret_inv in Hstep as [[= -> -> ->] ->].
    exists c, x. eexists _, _, _, _, _. split_and!; [done|done|exact H|].
    left. split_and!; auto.
Qed.

Lemma linked_mono (h h' : Heap TChange) l :
  h `prefix_of` h' → linked h l → linked h' l.
Proof.
  intros Hp Hl l1 x y l2 E. destruct (Hl _ _ _ _ E) as (c & Hc & Hpar).
  exists c. split; [|done]. by eapply prefix_lookup_Some.
Qed.

Lemma linked_snoc (h : Heap TChange) l z :
  linked h l →
  (∀ x, last l = Some x → ∃ c, h !! z = Some c ∧ parent c = Some x) →
  linked h (l ++ [z]).
Proof.
  intros Hl Hz l1 x y l2 E.
  destruct l2 as [|e l2 _] using rev_ind.
  - change (l1 ++ [x; y]) with (l1 ++ [x] ++ [y]) in E.
    rewrite app_assoc in E. apply app_inj_tail in E as [-> ->].
    apply Hz. by rewrite last_snoc.
  - change (x :: y :: l2 ++ [e]) with ((x :: y :: l2) ++ [e]) in E.
    rewrite app_assoc in E. apply app_inj_tail in E as [-> _].
    by eapply Hl.
Qed.

Lemma linked_app_l (h : Heap TChange) l1 l2 : linked h (l1 ++ l2) → linked h l1.
Proof.
  intros Hl k1 x y k2 ->. apply (Hl k1 x y (k2 ++ l2)).
  by rewrite <- app_assoc.
Qed.

Lemma ancestry_linked (h : Heap TChange) s l : ancestry h s l → linked h (reverse l).
Proof.
  intros Ha l1 x y l2 E.
  apply (f_equal reverse) in E. rewrite reverse_involutive in E.
  rewrite reverse_app, !reverse_cons, <- !app_assoc in E. simpl in E. subst l.
  apply ancestry_suffix in Ha. inversion Ha as [|? c ? Hy Hp]; subst.
  exists c. split; [done|]. inversion Hp; subst. done.
Qed.

(** What the loop does to the inverses, the call log and the new commits. *)
Lemma rebaseLoop_effects ss : ∀ sp cs nh inv trp nsc w nh' inv' trp' nsc' w',
  derefAll (heap w) sp = Ok cs →
  rebaseLoop changeRebaser ss sp nh inv trp nsc w = (Ok (nh', inv', trp', nsc'), w') →
  ∃ newInv newCalls minted mc,
    inv' = newInv ++ inv ∧
    rollbackOf <$> newInv = Some <$> reverse (revision <$> cs) ∧
    calls w' = calls w ++ newCalls ∧
    invertedCommits newCalls = asTagged <$> cs ∧
    nsc' = nsc ++ minted ∧
    derefAll (heap w') minted = Ok mc ∧
    revision <$> mc = filter (λ t, t ∈ ss) (revision <$> cs) ∧
    heap w `prefix_of` heap w'.
Proof.
  induction sp as [|r sp IH]; intros cs nh inv trp nsc w nh' inv' trp' nsc' w' Hcs H.
  - simpl in *. injection Hcs as <-. apply mret_inv in H as [[= -> -> -> ->] ->].
    exists [], [], [], []. rewrite !app_nil_r. done.
  - pose proof (frames_rebaseLoop changeRebaser ss (r :: sp) nh inv trp nsc w) as Hfr.
    rewrite H in Hfr. simpl in Hfr.
    apply rebaseLoop_cons_inv in H
      as (c & x & nh1 & trp1 & nsc1 & h1 & calls1 & Hc & Hx & H & Hcase).
    simpl in Hcs. rewrite Hc in Hcs. simpl in Hcs.
    destruct (derefAll (heap w) sp) as [cs'|] eqn:Hcs'; [|done].
    injection Hcs as <-.
    assert (Hp1 : heap w `prefix_of` h1).
    { destruct Hcase as [(_&_&_&_&->&_)|(_&?&?&_&_&_&->&_)]; [done|by apply prefix_app_r]. }
    eapply IH in H as (newInv & newCalls & minted & mc & -> & Hrb & Hcalls & Hic & -> & Hmc & Hrev & Hpre);
      [|simpl; by eapply derefAll_mono].
    simpl in Hpre, Hcalls, Hmc.
    destruct Hcase as [(Hnin & -> & -> & -> & -> & ->)
                      |(Hin & change' & rc & -> & -> & -> & -> & -> & Hrc)].
    + exists (newInv ++ [tagRollbackInverse x (tagCounter w) (revision c)]),
        (CallInvert (asTagged c) true :: newCalls), minted, mc.
      split_and!; auto.
      * by rewrite <- app_assoc.
      * rewrite (fmap_cons revision), reverse_cons, !fmap_app, Hrb. done.
      * rewrite Hcalls, <- app_assoc. done.
      * unfold invertedCommits in *. simpl. f_equal. exact Hic.
      * rewrite fmap_cons, filter_cons_False; done.
    + exists (newInv ++ [tagRollbackInverse x (tagCounter w) (revision c)]),
        (rc ++ CallInvert (asTagged c) true :: newCalls),
        (length (heap w) :: minted),
        ({| revision := revision c; sessionId := sessionId c; change := change';
            parent := Some nh |} :: mc).
      split_and!; auto.
      * by rewrite <- app_assoc.
      * rewrite (fmap_cons revision), reverse_cons, !fmap_app, Hrb. done.
      * rewrite Hcalls, <- !app_assoc. done.
      * unfold invertedCommits in *. rewrite omap_app, Hrc. simpl. f_equal. exact Hic.
      * by rewrite <- app_assoc.
      * simpl. erewrite deref_Some, Hmc; [done|].
        eapply prefix_lookup_Some; [|done].
        rewrite lookup_app_r by lia. by rewrite Nat.sub_diag.
      * rewrite !fmap_cons, filter_cons_True by done. simpl. by f_equal.
Qed.

(** The new commits stay a chain and the running head is its last link. *)
Lemma rebaseLoop_linked ss : ∀ sp nh inv trp nsc w nh' inv' trp' nsc' w',
  rebaseLoop changeRebaser ss sp nh inv trp nsc w = (Ok (nh', inv', trp', nsc'), w') →
  linked (heap w) nsc → last nsc = Some nh →
  linked (heap w') nsc' ∧ last nsc' = Some nh'.
Proof.
  induction sp as [|r sp IH]; intros nh inv trp nsc w nh' inv' trp' nsc' w' H Hl Hlast.
  - simpl in *. by apply mret_inv in H as [[= -> -> -> ->] ->].
  - apply rebaseLoop_cons_inv in H
      as (c & x & nh1 & trp1 & nsc1 & h1 & calls1 & Hc & Hx & H & Hcase).
    destruct Hcase as [(Hnin & -> & -> & -> & -> & ->)
                      |(Hin & change' & rc & -> & -> & -> & -> & -> & Hrc)].
    + by eapply IH in H.
    + eapply IH in H; [done|..]; simpl.
      * apply linked_snoc.
        -- eapply linked_mono; [|done]. by apply prefix_app_r.
        -- intros y Hy. rewrite Hlast in Hy. injection Hy as <-.
           eexists. split.
           ++ rewrite lookup_app_r by lia. rewrite Nat.sub_diag. reflexivity.
           ++ reflexivity.
      * by rewrite last_snoc.
Qed.

(** The fold of [rebaseChangeOverChanges], whatever its outcome. *)
Lemma rebaseChangeOverChanges_trace : ∀ overs c w,
  rebaseChangeOverChanges changeRebaser c overs w
  = (match foldRebase changeRebaser c overs with
     | Some c' => Ok c'
     | None => Err AlgebraException
     end,
     {| heap := heap w; tagCounter := tagCounter w;
        calls := calls w ++ rebaseCalls changeRebaser c overs |}).
Proof.
  induction overs as [|b rest IH]; intros c w; simpl.
  - rewrite app_nil_r. by destruct w.
  - unfold mbind, M_bind, callRebase, logCall.
    destruct (rebase changeRebaser c b) as [a|]; [|done].
    rewrite IH. simpl. by rewrite <- app_assoc.
Qed.

Lemma rebaseChangeOverChanges_trace_inv overs c w c' w' :
  rebaseChangeOverChanges changeRebaser c overs w = (Ok c', w') →
  foldRebase changeRebaser c overs = Some c' ∧
  w' = {| heap := heap w; tagCounter := tagCounter w;
          calls := calls w ++ rebaseCalls changeRebaser c overs |}.
Proof.
  rewrite rebaseChangeOverChanges_trace.
  destruct (foldRebase changeRebaser c overs); [|done]. by intros [= -> <-].
Qed.

(** One iteration of the per-commit loop, read back from a successful run
    with every call of the algebra. *)
Lemma rebaseLoop_cons_trace ss r rest nh inv trp nsc w ct res w' :
  derefAll (heap w) trp = Ok ct →
  rebaseLoop changeRebaser ss (r :: rest) nh inv trp nsc w = (Ok res, w') →
  ∃ c x,
    deref (heap w) r = Ok c ∧
    invert changeRebaser (asTagged c) true = Some x ∧
    (((revision c ∉ ss) ∧
      rebaseLoop changeRebaser ss rest nh
        (tagRollbackInverse x (tagCounter w) (revision c) :: inv) trp nsc
        {| heap := heap w; tagCounter := S (tagCounter w);
           calls := calls w ++ [CallInvert (asTagged c) true] |} = (Ok res, w'))
     ∨ (revision c ∈ ss ∧ ∃ change',
          foldRebase changeRebaser (change c) (inv ++ (asTagged <$> ct)) = Some change' ∧
          rebaseLoop changeRebaser ss rest (length (heap w))
            (tagRollbackInverse x (tagCounter w) (revision c) :: inv)
            (trp ++ [S (length (heap w))]) (nsc ++ [length (heap w)])
            {| heap := heap w ++
                 [ {| revision := revision c; sessionId := sessionId c;
                      change := change'; parent := Some nh |};
                   {| revision := revision c; sessionId := sessionId c;
                      change := change'; parent := parent c |} ];
               tagCounter := S (tagCounter w);
               calls := calls w
                 ++ rebaseCalls changeRebaser (change c) (inv ++ (asTagged <$> ct))
                 ++ [CallInvert (asTagged c) true] |} = (Ok res, w'))).
Proof.
  intros Hct. simpl. intros H. apply bind_inv in H as (c & w1 & H1 & H).
  apply liftR_inv in H1 as [Hc ->].
  apply bind_inv in H as ([[nh1 trp1] nsc1] & w1 & Hstep & H).
  apply bind_inv in H as (i & w2 & Hinv & H).
  apply inverseFromCommit_inv in Hinv as (x & Hx & -> & ->).
  exists c, x. split_and!; [done|done|].
  destruct (decide (revision c ∈ ss)) as [Hin|Hnin].
  - right. split; [done|].
    apply bind_inv in Hstep as (over & w3 & H3 & Hstep).
    apply liftR_inv in H3 as [Hover ->]. rewrite Hct in Hover. injection Hover as <-.
    apply bind_inv in Hstep as (change' & w3 & H4 & Hstep).
    apply rebaseChangeOverChanges_trace_inv in H4 as [Hfold ->].
    apply bind_inv in Hstep as (a1 & w4 & H5 & Hstep).
    injection H5 as <- <-.
    apply bind_inv in Hstep as (a2 & w5 & H6 & Hstep).
    injection H6 as <- <-.
    apply mret_inv in Hstep as [[= -> -> ->] ->]. simpl in *.
    rewrite length_app in H. simpl in H.
    replace (length (heap w) + 1) with (S (length (heap w))) in H by lia.
    exists change'. split; [done|].
    rewrite <- !app_assoc in H. exact H.
  - left. split; [done|].
    apply mret_inv in Hstep as [[= -> -> ->] ->]. exact H.
Qed.

(** The per-commit loop does what [loopVisits] says. *)
Lemma rebaseLoop_visits ss : ∀ sp cs nh inv trp nsc w ct nh' inv' trp' nsc' w',
  derefAll (heap w) sp = Ok cs →
  derefAll (heap w) trp = Ok ct →
  rebaseLoop changeRebaser ss sp nh inv trp nsc w = (Ok (nh', inv', trp', nsc'), w') →
  ∃ lc ct' emitted minted mc,
    loopVisits changeRebaser ss (tagCounter w) inv (asTagged <$> ct) cs
      lc inv' (asTagged <$> ct') emitted ∧
    calls w' = calls w ++ lc ∧
    derefAll (heap w') trp' = Ok ct' ∧
    nsc' = nsc ++ minted ∧
    derefAll (heap w') minted = Ok mc ∧
    content <$> mc = emitted ∧
    length (heap w) ≤ length (heap w') ∧
    (∀ m, m ∈ minted → length (heap w) ≤ m) ∧
    heap w `prefix_of` heap w'.
Proof.
  induction sp as [|r sp IH];
    intros cs nh inv trp nsc w ct nh' inv' trp' nsc' w' Hcs Hct H.
  - simpl in *. injection Hcs as <-. apply mret_inv in H as [[= -> -> -> ->] ->].
    exists [], ct, [], [], []. rewrite !app_nil_r.
    split_and!; try done; [constructor|].
    intros m Hm. by apply elem_of_nil in Hm.
  - apply (rebaseLoop_cons_trace _ _ _ _ _ _ _ _ _ _ _ Hct) in H
      as (c & x & Hc & Hx & Hcase).
    simpl in Hcs. rewrite Hc in Hcs. simpl in Hcs.
    destruct (derefAll (heap w) sp) as [cs'|] eqn:Hcs'; [|done].
    injection Hcs as <-.
    destruct Hcase as [(Hnin & H)|(Hin & change' & Hfold & H)].
    + eapply IH in H
        as (lc & ct' & emitted & minted & mc & Hv & Hcalls & Hct' & -> & Hmc & Hem & Hlen & Hfresh & Hpre);
        [|exact Hcs'|exact Hct].
      simpl in *.
      exists (CallInvert (asTagged c) true :: lc), ct', emitted, minted, mc.
      split_and!; try done.
      * by eapply visits_cancelled.
      * rewrite Hcalls, <- app_assoc. done.
    + eapply IH in H
        as (lc & ct' & emitted & minted & mc & Hv & Hcalls & Hct' & -> & Hmc & Hem & Hlen & Hfresh & Hpre);
        [| |].
      2:{ simpl. eapply derefAll_mono; [|exact Hcs']. by apply prefix_app_r. }
      2:{ simpl. apply derefAll_app.
          - eapply derefAll_mono; [|exact Hct]. by apply prefix_app_r.
          - simpl. erewrite deref_Some; [done|].
            rewrite lookup_app_r by lia.
            replace (S (length (heap w)) - length (heap w)) with 1 by lia. done. }
      simpl in *. rewrite length_app in Hlen, Hfresh. simpl in Hlen, Hfresh.
      exists (rebaseCalls changeRebaser (change c) (inv ++ (asTagged <$> ct))
                ++ CallInvert (asTagged c) true :: lc),
        ct', ((revision c, sessionId c, change') :: emitted),
        (length (heap w) :: minted),
        ({| revision := revision c; sessionId := sessionId c; change := change';
            parent := Some nh |} :: mc).
      split_and!; try done.
      * eapply visits_kept; [done|done|done|].
        rewrite fmap_app in Hv. exact Hv.
      * rewrite Hcalls, <- !app_assoc. done.
      * by rewrite <- app_assoc.
      * simpl. erewrite deref_Some, Hmc; [done|].
        eapply prefix_lookup_Some; [|done].
        rewrite lookup_app_r by lia. by rewrite Nat.sub_diag.
      * simpl. unfold content at 1. simpl. by f_equal.
      * lia.
      * intros m Hm. apply elem_of_cons in Hm as [->|Hm]; [lia|].
        apply Hfresh in Hm. lia.
      * etrans; [|exact Hpre]. by apply prefix_app_r.
Qed.

End RebaseLoop.

(** ** The shape of the result *)

Section ResultShape.
Context {TChange : Type} (changeRebaser : ChangeRebaser TChange).
Implicit Types (w : World TChange) (sp tp trp nsc : list ref).

Lemma findCommonAncestor_paths (h : Heap TChange) (a b : ref) ps pt anc ca :
  ancestry h (Some a) (ps ++ anc :: ca) → ancestry h (Some b) (pt ++ anc :: ca) →
  (∀ y, y ∈ ps → y ∉ pt) →
  findCommonAncestor h (Some a) (Some []) (Some b) (Some [])
  = Ok (Some anc, Some (reverse ps), Some (reverse pt)).
Proof. intros Ha Hb Hd. exact (findCommonAncestor_split h _ _ true true _ _ _ _ Ha Hb Hd). Qed.

Lemma findIndex_None_inv x l : findIndex x l = None → x ∉ l.
Proof.
  induction l as [|y l IH]; simpl; [intros _; apply not_elem_of_nil|].
  destruct (decide (y = x)); [done|].
  destruct (findIndex x l); [done|]. intros _.
  apply not_elem_of_cons. auto.
Qed.

Lemma linked_app_r (h : Heap TChange) l1 l2 : linked h (l1 ++ l2) → linked h l2.
Proof.
  intros Hl k1 x y k2 ->. apply (Hl (l1 ++ k1) x y k2).
  by rewrite <- app_assoc.
Qed.

Lemma derefAll_drop (h : Heap TChange) l cs k :
  derefAll h l = Ok cs → derefAll h (drop k l) = Ok (drop k cs).
Proof.
  revert cs k. induction l as [|r l IH]; intros cs k; simpl.
  - intros [= <-]. by rewrite !drop_nil.
  - destruct (deref h r) as [c|] eqn:Er; [|done]. simpl.
    destruct (derefAll h l) as [cs'|] eqn:El; [|done]. simpl.
    intros [= <-]. destruct k as [|k]; simpl.
    + by rewrite Er, El.
    + by apply IH.
Qed.

Lemma reparentLoop_linked : ∀ sp nb nsc w nsc' w',
  reparentLoop sp nb nsc w = (Ok nsc', w') →
  linked (heap w) nsc →
  linked (heap w') nsc' ∧ (∃ m, nsc' = nsc ++ m) ∧ calls w' = calls w.
Proof.
  induction sp as [|r sp IH]; intros nb nsc w nsc' w' H Hl; simpl in H.
  - apply mret_inv in H as [-> ->]. split_and!; auto. exists []. by rewrite app_nil_r.
  - apply bind_inv in H as (c' & w1 & H1 & H).
    unfold mintCommit in H1.
    apply bind_inv in H1 as (c & w2 & H2 & H1). apply liftR_inv in H2 as [Hc ->].
    injection H1 as <- <-.
    apply IH in H as (Hl' & (m & ->) & Hcalls).
    + split_and!; auto. exists (length (heap w) :: m). by rewrite <- app_assoc.
    + simpl. apply linked_snoc.
      * eapply linked_mono; [|done]. by apply prefix_app_r.
      * intros y Hy. eexists. split.
        -- rewrite lookup_app_r by lia. rewrite Nat.sub_diag. reflexivity.
        -- simpl. unfold lastOr. by rewrite Hy.
Qed.

(** The chain of [newBase] inside the chain of the target head. *)
Lemma target_path_suffix (h : Heap TChange) th pt cx nbi nb :
  ancestry h (Some th) (pt ++ cx) →
  reverse pt !! nbi = Some nb →
  ancestry h (Some nb) (nb :: reverse (take nbi (reverse pt)) ++ cx).
Proof.
  intros Ht Hnb.
  pose proof (take_drop_middle _ _ _ Hnb) as E.
  apply (f_equal reverse) in E. rewrite reverse_involutive in E.
  rewrite reverse_app, reverse_cons, <- app_assoc in E. simpl in E.
  rewrite <- E, <- app_assoc in Ht. simpl in Ht.
  by apply ancestry_suffix in Ht.
Qed.

(** C5, as the code has it.  When [targetCommit] lies on the branch of
    [targetHead], the [newBase] of every successful [rebaseBranch] is
    [targetCommit] or a descendant of it: [targetCommit] is on the parent
    chain of [newBase].  The algorithm can advance [newBase] past
    [targetCommit]: on [advanceHeap], rebasing [F] onto [B] yields [C]. *)
Theorem newBase_descends_from_target :
  (∀ w (sourceHead targetCommit targetHead : ref) ps pt anc ca hd chg rc w',
     ancestry (heap w) (Some sourceHead) (ps ++ anc :: ca) →
     ancestry (heap w) (Some targetHead) (pt ++ anc :: ca) →
     (∀ y, y ∈ ps → y ∉ pt) →
     targetCommit ∈ pt ++ anc :: ca →
     rebaseBranch changeRebaser sourceHead targetCommit (Some targetHead) w
       = (Ok (hd, chg, rc), w') →
     ∃ chain, ancestry (heap w) (Some (newBase rc)) chain ∧ targetCommit ∈ chain)
  ∧ (∃ hd chg rc (w' : World Z),
       rebaseBranch counterAlgebra 6 1 (Some 3) (startWorld advanceHeap)
         = (Ok (hd, chg, rc), w')
       ∧ newBase rc = 2).
Proof.
  split; [|eexists _, _, _, _; split; [vm_compute; reflexivity|reflexivity]].
  intros w s tc th ps pt anc ca hd chg rc w' Hs Ht Hd Htc H.
  pose proof (findCommonAncestor_paths _ _ _ _ _ _ _ Hs Ht Hd) as E.
  apply rebaseBranch_inv in H as (anc' & osp & otp & E' & H).
  simpl in E'. rewrite E in E'. injection E' as <- <- <-. simpl in H.
  destruct H as [(Hnone & -> & -> & -> & ->)
                |(tci & cs & ss & nbi & nb & sp' & trp' & Hidx & Hcs & Hscan & Hnb & Hstrip & H)].
  - simpl. exists (anc :: ca). split; [by eapply ancestry_suffix|].
    apply findIndex_None_inv in Hnone. rewrite elem_of_reverse in Hnone.
    apply elem_of_app in Htc as [?|?]; done.
  - assert (newBase rc = nb) as ->.
    { destruct H as [(_ & _ & nsc & _ & _ & ->)|(_ & ? & ? & ? & ? & ? & ? & _ & _ & _ & _ & ->)]; done. }
    eexists. split; [by eapply target_path_suffix|].
    apply scanTarget_bounds in Hscan as [Hle _].
    apply findIndex_Some in Hidx.
    destruct (decide (tci = nbi)) as [->|Hne].
    + rewrite Hnb in Hidx. injection Hidx as ->. left.
    + right. apply elem_of_app. left. apply elem_of_reverse.
      apply list_elem_of_lookup. exists tci. rewrite lookup_take_lt by lia. done.
Qed.

(** C8, as the code has it.  In every successful [rebaseBranch] the
    returned [newSourceCommits] is a parent-linked chain: each commit other
    than the first has the commit just before it in the list as parent, and
    the first is a target-branch commit whose parent is the old common
    ancestor.  A non-empty list contains [newBase] and ends in the returned
    [newSourceHead]; with an empty list the returned head is the input
    [sourceHead].  No commit of the initial store is changed. *)
Theorem newSourceCommits_chain w (sourceHead targetCommit targetHead : ref)
    ps pt anc ca hd chg rc w' :
  ancestry (heap w) (Some sourceHead) (ps ++ anc :: ca) →
  ancestry (heap w) (Some targetHead) (pt ++ anc :: ca) →
  (∀ y, y ∈ ps → y ∉ pt) →
  rebaseBranch changeRebaser sourceHead targetCommit (Some targetHead) w
    = (Ok (hd, chg, rc), w') →
  linked (heap w') (newSourceCommits rc)
  ∧ (∀ x, head (newSourceCommits rc) = Some x →
       ∃ c, heap w' !! x = Some c ∧ parent c = Some anc)
  ∧ (newSourceCommits rc = [] → hd = sourceHead)
  ∧ (newSourceCommits rc ≠ [] →
       last (newSourceCommits rc) = Some hd ∧ newBase rc ∈ newSourceCommits rc)
  ∧ heap w `prefix_of` heap w'.
Proof.
  intros Hs Ht Hd H.
  pose proof (frames_rebaseBranch changeRebaser sourceHead targetCommit (Some targetHead) w) as Hfr.
  rewrite H in Hfr. simpl in Hfr.
  pose proof (findCommonAncestor_paths _ _ _ _ _ _ _ Hs Ht Hd) as E.
  apply rebaseBranch_inv in H as (anc' & osp & otp & E' & H).
  simpl in E'. rewrite E in E'. injection E' as <- <- <-. simpl in H.
  destruct H as [(Hnone & -> & -> & -> & ->)
                |(tci & cs & ss & nbi & nb & sp' & trp' & Hidx & Hcs & Hscan & Hnb & Hstrip & H)].
  - simpl. split_and!; [|done..].
    intros l1 x y l2 El. destruct l1; discriminate.
  - set (tp := reverse pt) in *.
    assert (Hltp : linked (heap w) (take (S nbi) tp)).
    { apply ancestry_linked in Ht. rewrite reverse_app in Ht.
      apply linked_app_r in Ht. fold tp in Ht.
      rewrite <- (take_drop (S nbi) tp) in Ht. by apply linked_app_l in Ht. }
    assert (Hlast : last (take (S nbi) tp) = Some nb) by by apply last_take_lookup.
    assert (Hhead : ∀ m x, head (take (S nbi) tp ++ m) = Some x →
              ∃ c, heap w' !! x = Some c ∧ parent c = Some anc).
    { intros m x Hx.
      assert (Hx' : tp !! 0 = Some x).
      { destruct tp as [|t tp']; [done|]. simpl in Hx. done. }
      unfold tp in Hx'. rewrite reverse_lookup in Hx'.
      2:{ apply lookup_lt_Some in Hnb. unfold tp in Hnb. rewrite length_reverse in Hnb. lia. }
      apply list_elem_of_split_length in Hx' as (l1 & l2 & -> & Hlen).
      rewrite length_app in Hlen. simpl in Hlen.
      assert (l2 = []) as -> by (destruct l2; [done|simpl in Hlen; lia]).
      rewrite <- app_assoc in Ht. simpl in Ht.
      apply ancestry_suffix in Ht. inversion Ht as [|? c ? Hc Hp]; subst.
      exists c. split; [by eapply prefix_lookup_Some|].
      inversion Hp; subst. done. }
    assert (Hin : ∀ m, nb ∈ take (S nbi) tp ++ m).
    { intros m. apply elem_of_app. left. apply list_elem_of_lookup.
      exists nbi. apply lookup_lt_Some in Hnb as Hlt.
      rewrite lookup_take_lt by lia. done. }
    assert (Hnil : ∀ m, take (S nbi) tp ++ m ≠ []).
    { intros m E0. apply app_eq_nil in E0 as [E0 _]. by rewrite E0 in Hlast. }
    destruct H as [(-> & -> & nsc & Hloop & -> & ->)
                  |(Hne & inv & trp'' & nsc & w1 & over & sc & Hloop & Hover & Hcomp & -> & ->)];
      simpl.
    + apply reparentLoop_linked in Hloop as (Hl & (m & ->) & _); [|done].
      split_and!; [done|by apply Hhead| | |done].
      * intros E0. by apply Hnil in E0.
      * intros _. split; [|done]. unfold lastOr.
        destruct (last (take (S nbi) tp ++ m)) eqn:El; [done|].
        apply last_None in El. by apply Hnil in El.
    + apply logCall_inv in Hcomp as [_ ->]. simpl in *.
      pose proof (rebaseLoop_linked _ _ _ _ _ _ _ _ _ _ _ _ _ Hloop Hltp Hlast) as [Hl Hlast'].
      destruct (stripLoop_drop _ _ _ _ _ _ Hstrip) as (k & _ & _ & _ & -> & _).
      pose proof (derefAll_drop _ _ _ k Hcs) as Hcs'.
      pose proof (rebaseLoop_effects _ _ _ _ _ _ _ _ _ _ _ _ _ _ Hcs' Hloop)
        as (_ & _ & minted & _ & _ & _ & _ & _ & -> & _).
      split_and!; [done|by apply Hhead| |done|done].
      intros E0. by apply Hnil in E0.
Qed.

End ResultShape.

(** ** The cancel-out scenario *)

Section CancelOut.
Variable changeRebaser : ChangeRebaser Z.

(** C1. On [cancelHeap] (target [A-B-C], source [A-B'-D], [B'] tagged like
    [B]), [rebaseBranch] of [D] onto [C] with head [C] keeps [newBase = C],
    mints a head [D'] with [D]'s tag whose change is [D]'s change rebased
    over [C] alone, and reports [deletedSourceCommits = [B'; D]] and
    [newSourceCommits = [B; C; D']].  The algebra is asked for one rebase
    (over [C]), one inverse (of [D]) and the final compose. *)
Theorem cancel_out_scenario (n : nat) (d' i sc : Z) :
  let tagC := {| tcRevision := Some 2; tcChange := 2%Z; rollbackOf := None |} in
  let tagD := {| tcRevision := Some 3; tcChange := 3%Z; rollbackOf := None |} in
  let composed :=
    [ {| tcRevision := Some n; tcChange := i; rollbackOf := Some 3 |};
      tagC;
      {| tcRevision := Some 3; tcChange := d'; rollbackOf := None |} ] in
  rebase changeRebaser 3%Z tagC = Some d' →
  invert changeRebaser tagD true = Some i →
  compose changeRebaser composed = Some sc →
  rebaseBranch changeRebaser 4 2 (Some 2)
    {| heap := cancelHeap; tagCounter := n; calls := [] |}
  = (Ok (5, Some sc,
         {| newBase := 2; deletedSourceCommits := [3; 4];
            newSourceCommits := [1; 2; 5] |}),
     {| heap := cancelHeap ++
                [ mkCommit 3 "source" d' (Some 2);
                  mkCommit 3 "source" d' (Some 3) ];
        tagCounter := S n;
        calls := [ CallRebase 3%Z tagC; CallInvert tagD true;
                   CallCompose composed ] |}).
Proof.
  intros tagC tagD composed Hr Hi Hc. subst tagC tagD composed.
  vm_compute. vm_compute in Hr, Hi, Hc. rewrite Hr, Hi, Hc. reflexivity.
Qed.

End CancelOut.

(** ** The two paths that never ask the algebra, and the one that only composes *)

Section FastPaths.
Context {TChange : Type} (changeRebaser : ChangeRebaser TChange).
Implicit Types (w : World TChange) (sp tp trp nsc : list ref).

Lemma strippedTo_newBase (h : Heap TChange) sp tp tc ss nbi sp' trp' :
  strippedTo h sp tp tc ss nbi sp' trp' → ∃ nb, tp !! nbi = Some nb.
Proof.
  intros (tci & cs & Hidx & _ & Hscan & _).
  apply findIndex_Some, lookup_lt_Some in Hidx.
  apply scanTarget_bounds in Hscan as [_ Hb].
  apply lookup_lt_is_Some. simpl in Hb. lia.
Qed.

(** The source path is a proper prefix, tag by tag, of the target rebase
    path: stripping empties the source path, the loop has nothing to do
    and the only algebra call is the final [compose]. *)
Lemma rebaseBranch_source_prefix w (s tc th : ref) anc sp tp tci cs ss nbi nb ct :
  findCommonAncestor (heap w) (Some s) (Some []) (Some th) (Some [])
    = Ok (Some anc, Some sp, Some tp) →
  findIndex tc tp = Some tci →
  derefAll (heap w) sp = Ok cs →
  scanTarget (heap w) tci 0 tp (list_to_set (revision <$> cs)) tci = Ok (ss, nbi) →
  tp !! nbi = Some nb →
  derefAll (heap w) (take (S nbi) tp) = Ok ct →
  revision <$> cs = take (length cs) (revision <$> ct) →
  length cs < length ct →
  let over := asTagged <$> drop (length cs) ct in
  rebaseBranch changeRebaser s tc (Some th) w =
    (match compose changeRebaser over with
     | Some sc =>
       Ok (nb, Some sc,
           {| newBase := nb; deletedSourceCommits := sp;
              newSourceCommits := take (S nbi) tp |})
     | None => Err AlgebraException
     end,
     {| heap := heap w; tagCounter := tagCounter w;
        calls := calls w ++ [CallCompose over] |}).
Proof.
  intros H1 H2 H3 H4 H5 H6 Hrev Hlen over.
  pose proof (proj1 (derefAll_lookup _ _ _) H3) as [Ls _].
  pose proof (proj1 (derefAll_lookup _ _ _) H6) as [Lt _].
  assert (Hstrip : stripLoop (heap w) (length sp `min` length (take (S nbi) tp)) sp
                     (take (S nbi) tp) = Ok ([], drop (length sp) (take (S nbi) tp))).
  { eapply stripLoop_source_prefix; eauto; lia. }
  pose proof (derefAll_drop _ _ _ (length sp) H6) as Hover.
  destruct (drop (length sp) (take (S nbi) tp)) as [|t rest] eqn:Ed.
  { apply (f_equal length) in Ed. rewrite length_drop in Ed. simpl in Ed. lia. }
  unfold rebaseBranch. simpl.
  erewrite bind_Ok; [|by apply liftR_Ok]. simpl. rewrite H2.
  erewrite bind_Ok; [|by apply liftR_Ok].
  erewrite bind_Ok; [|by apply liftR_Ok]. simpl. rewrite H5.
  erewrite bind_Ok; [|by apply liftR_Ok]. cbv iota beta.
  erewrite bind_Ok; [|reflexivity]. cbv iota beta.
  erewrite bind_Ok; [|by apply liftR_Ok].
  rewrite <- Ls. fold over. simpl.
  unfold mbind, M_bind, callCompose, logCall.
  destruct (compose changeRebaser over); done.
Qed.

Lemma last_seq_snoc l n k : last (l ++ seq n (S k)) = Some (n + k).
Proof.
  rewrite seq_S, app_assoc. by rewrite last_snoc.
Qed.

(** C3, as the code has it.  Whenever the target rebase path is empty
    after stripping the common prefix, no algebra function is invoked: the
    call log is unchanged and the only new cells are copies of the
    remaining source commits, in their order, with revision, sessionId and
    change kept and the parent set to [newBase] for the first and to the
    previous copy for the others.  When instead the source path is, tag by
    tag, a proper prefix of the target rebase path, nothing is minted and
    [rebase] and [invert] are not invoked, but [compose] is invoked once,
    on the rest of the target rebase path, and the commits reported are the
    target-branch commits themselves. *)
Theorem fast_forward :
  (∀ w (sourceHead targetCommit targetHead : ref) ps pt anc ca ss nbi sp',
     ancestry (heap w) (Some sourceHead) (ps ++ anc :: ca) →
     ancestry (heap w) (Some targetHead) (pt ++ anc :: ca) →
     (∀ y, y ∈ ps → y ∉ pt) →
     strippedTo (heap w) (reverse ps) (reverse pt) targetCommit ss nbi sp' [] →
     ∃ nb cs',
       reverse pt !! nbi = Some nb ∧ derefAll (heap w) sp' = Ok cs' ∧
       let nsc := take (S nbi) (reverse pt) ++ seq (length (heap w)) (length sp') in
       let h' := heap w ++ reparented nb (length (heap w)) cs' in
       rebaseBranch changeRebaser sourceHead targetCommit (Some targetHead) w =
         (Ok (lastOr nb nsc, None,
              {| newBase := nb; deletedSourceCommits := reverse ps;
                 newSourceCommits := nsc |}),
          {| heap := h'; tagCounter := tagCounter w; calls := calls w |}) ∧
       ∀ i c, cs' !! i = Some c →
         h' !! (length (heap w) + i) =
           Some {| revision := revision c; sessionId := sessionId c;
                   change := change c;
                   parent := Some (match i with
                                   | 0 => nb
                                   | S j => length (heap w) + j
                                   end) |})
  ∧ (∀ w (sourceHead targetCommit targetHead : ref) ps pt anc ca tci cs ss nbi ct,
     ancestry (heap w) (Some sourceHead) (ps ++ anc :: ca) →
     ancestry (heap w) (Some targetHead) (pt ++ anc :: ca) →
     (∀ y, y ∈ ps → y ∉ pt) →
     findIndex targetCommit (reverse pt) = Some tci →
     derefAll (heap w) (reverse ps) = Ok cs →
     scanTarget (heap w) tci 0 (reverse pt) (list_to_set (revision <$> cs)) tci
       = Ok (ss, nbi) →
     derefAll (heap w) (take (S nbi) (reverse pt)) = Ok ct →
     revision <$> cs = take (length cs) (revision <$> ct) →
     length cs < length ct →
     ∃ nb, reverse pt !! nbi = Some nb ∧
       let over := asTagged <$> drop (length cs) ct in
       rebaseBranch changeRebaser sourceHead targetCommit (Some targetHead) w =
         (match compose changeRebaser over with
          | Some sc =>
            Ok (nb, Some sc,
                {| newBase := nb; deletedSourceCommits := reverse ps;
                   newSourceCommits := take (S nbi) (reverse pt) |})
          | None => Err AlgebraException
          end,
          {| heap := heap w; tagCounter := tagCounter w;
             calls := calls w ++ [CallCompose over] |})).
Proof.
  split.
  - intros w s tc th ps pt anc ca ss nbi sp' Hs Ht Hd Hstr.
    pose proof (findCommonAncestor_paths _ _ _ _ _ _ _ Hs Ht Hd) as E.
    destruct (strippedTo_newBase _ _ _ _ _ _ _ _ Hstr) as [nb Hnb].
    destruct Hstr as (tci & cs & Hidx & Hcs & Hscan & Hstrip).
    destruct (rebaseBranch_reparent changeRebaser _ _ _ _ _ _ _ _ _ _ _ _ _
                E Hidx Hcs Hscan Hnb Hstrip) as (k & cs' & -> & -> & Hrun).
    exists nb, (drop k cs). split_and!; [done|by apply derefAll_drop|].
    cbv zeta. split; [done|].
    intros i c Hc. rewrite lookup_app_r by lia.
    replace (length (heap w) + i - length (heap w)) with i by lia.
    by apply reparented_lookup.
  - intros w s tc th ps pt anc ca tci cs ss nbi ct Hs Ht Hd Hidx Hcs Hscan Hct Hrev Hlen.
    pose proof (findCommonAncestor_paths _ _ _ _ _ _ _ Hs Ht Hd) as E.
    destruct (lookup_lt_is_Some_2 (reverse pt) nbi) as [nb Hnb].
    { apply findIndex_Some, lookup_lt_Some in Hidx.
      apply scanTarget_bounds in Hscan as [_ Hb]. simpl in Hb. lia. }
    exists nb. split; [done|]. by eapply rebaseBranch_source_prefix.
Qed.

(** C10. On both paths of [rebaseBranch] that never ask the algebra the
    cumulative change comes back undefined.  When [targetCommit] is not on
    the target path, every result has an undefined change and the input
    [sourceHead] as head.  When the target rebase path is empty after
    stripping, the call returns, again with an undefined change and an
    unchanged call log, and as soon as a source commit remains to be
    reparented the head returned is a commit minted by the call, absent from
    the initial store and so different from the input [sourceHead]. *)
Theorem undefined_change_without_algebra w (sourceHead targetCommit targetHead : ref)
    ps pt anc ca :
  ancestry (heap w) (Some sourceHead) (ps ++ anc :: ca) →
  ancestry (heap w) (Some targetHead) (pt ++ anc :: ca) →
  (∀ y, y ∈ ps → y ∉ pt) →
  (targetCommit ∉ pt →
     ∀ hd chg rc w',
       rebaseBranch changeRebaser sourceHead targetCommit (Some targetHead) w
         = (Ok (hd, chg, rc), w') →
       chg = None ∧ hd = sourceHead ∧ calls w' = calls w)
  ∧ (∀ ss nbi sp',
       strippedTo (heap w) (reverse ps) (reverse pt) targetCommit ss nbi sp' [] →
       ∃ hd rc w',
         rebaseBranch changeRebaser sourceHead targetCommit (Some targetHead) w
           = (Ok (hd, None, rc), w') ∧
         calls w' = calls w ∧
         (sp' ≠ [] →
            hd ≠ sourceHead ∧ heap w !! hd = None ∧ is_Some (heap w' !! hd))).
Proof.
  intros Hs Ht Hd.
  pose proof (findCommonAncestor_paths _ _ _ _ _ _ _ Hs Ht Hd) as E.
  split.
  - intros Hnot hd chg rc w' H.
    apply rebaseBranch_inv in H as (anc' & osp & otp & E' & H).
    simpl in E'. rewrite E in E'. injection E' as <- <- <-. simpl in H.
    destruct H as [(_ & -> & -> & -> & _)|(tci & ? & ? & ? & ? & ? & ? & Hidx & _)]; [done|].
    exfalso. apply Hnot. apply elem_of_reverse.
    apply findIndex_Some in Hidx. by eapply list_elem_of_lookup_2.
  - intros ss nbi sp' Hstr.
    destruct (strippedTo_newBase _ _ _ _ _ _ _ _ Hstr) as [nb Hnb].
    destruct Hstr as (tci & cs & Hidx & Hcs & Hscan & Hstrip).
    destruct (rebaseBranch_reparent changeRebaser _ _ _ _ _ _ _ _ _ _ _ _ _
                E Hidx Hcs Hscan Hnb Hstrip) as (k & cs' & -> & -> & Hrun).
    simpl in Hrun. eexists _, _, _. split; [exact Hrun|].
    split; [done|]. intros Hne. simpl.
    pose proof (derefAll_drop _ _ _ k Hcs) as Hcs'.
    apply derefAll_lookup in Hcs' as [Hlen _].
    destruct (length (drop k (reverse ps))) as [|m] eqn:Em.
    { by destruct (drop k (reverse ps)). }
    unfold lastOr. rewrite last_seq_snoc. simpl.
    assert (∃ c, heap w !! sourceHead = Some c) as [c Hc].
    { inversion Hs; eauto. }
    apply lookup_lt_Some in Hc.
    split_and!; [lia|apply lookup_ge_None; lia|].
    apply lookup_lt_is_Some. rewrite length_app, length_reparented. lia.
Qed.

(** C2, as the code has it.  Take a successful [rebaseBranch] that reaches
    its per-commit loop: after the cancel-out scan has left the tags [ss] in
    the source set and the common prefix has been stripped, the source path
    [sp'] and a non-empty target rebase path [trp'] remain.  Then the calls
    of the algebra are those of [loopVisits] on the commits of [sp'],
    followed by one [compose]:
    - a commit whose tag is not in [ss] (it was cancelled out) is not
      rebased and no commit is minted for it;
    - a commit whose tag is in [ss] is rebased over the inverses computed
      so far followed by the target rebase path, and re-emitted as a newly
      minted commit with the change this gives;
    - [invert] is called, as a rollback, on every commit of [sp'],
      cancelled or not, and its rollback inverse is put in front of the
      inverses, which the commits after it are rebased over;
    - the cumulative change is [compose] of all the inverses followed by
      the target rebase path with the re-emitted commits.
    The last three conjuncts spell out what follows for the tags. *)
Theorem cancelled_commits_are_inverted w (sourceHead targetCommit targetHead : ref)
    ps pt anc ca ss nbi sp' trp' cs ct hd chg rc w' :
  ancestry (heap w) (Some sourceHead) (ps ++ anc :: ca) →
  ancestry (heap w) (Some targetHead) (pt ++ anc :: ca) →
  (∀ y, y ∈ ps → y ∉ pt) →
  strippedTo (heap w) (reverse ps) (reverse pt) targetCommit ss nbi sp' trp' →
  trp' ≠ [] →
  derefAll (heap w) sp' = Ok cs →
  derefAll (heap w) trp' = Ok ct →
  rebaseBranch changeRebaser sourceHead targetCommit (Some targetHead) w
    = (Ok (hd, chg, rc), w') →
  ∃ lc inverses over minted mc,
    loopVisits changeRebaser ss (tagCounter w) [] (asTagged <$> ct) cs
      lc inverses over (content <$> mc) ∧
    calls w' = calls w ++ lc ++ [CallCompose (inverses ++ over)] ∧
    chg = compose changeRebaser (inverses ++ over) ∧
    newSourceCommits rc = take (S nbi) (reverse pt) ++ minted ∧
    derefAll (heap w') minted = Ok mc ∧
    (∀ m, m ∈ minted → heap w !! m = None) ∧
    revision <$> mc = filter (λ t, t ∈ ss) (revision <$> cs) ∧
    invertedCommits lc = asTagged <$> cs ∧
    rollbackOf <$> inverses = Some <$> reverse (revision <$> cs).
Proof.
  intros Hs Ht Hd Hstr Hne Hcs Hct H.
  pose proof (findCommonAncestor_paths _ _ _ _ _ _ _ Hs Ht Hd) as E.
  apply rebaseBranch_inv in H as (anc' & osp & otp & E' & H).
  simpl in E'. rewrite E in E'. injection E' as <- <- <-. simpl in H.
  destruct Hstr as (tci & cs0 & Hidx & Hcs0 & Hscan & Hstrip).
  destruct H as [(Hnone & _)
                |(tci' & cs0' & ss' & nbi' & nb & sp0 & trp0 & Hidx' & Hcs0' & Hscan' & Hnb & Hstrip' & H)].
  { rewrite Hidx in Hnone. done. }
  rewrite Hidx in Hidx'. injection Hidx' as <-.
  rewrite Hcs0 in Hcs0'. injection Hcs0' as <-.
  rewrite Hscan in Hscan'. injection Hscan' as <- <-.
  rewrite Hstrip in Hstrip'. injection Hstrip' as <- <-.
  destruct H as [(-> & _)
                |(_ & inv & trp'' & nsc & w1 & over & sc & Hloop & Hover & Hcomp & -> & ->)];
    [done|].
  unfold callCompose in Hcomp. apply logCall_inv in Hcomp as [Hsc ->].
  destruct (rebaseLoop_effects _ _ _ _ _ _ _ _ _ _ _ _ _ _ Hcs Hloop)
    as (newInv & newCalls & minted0 & mc0 & Hinv & Hrb & Hcalls0 & Hic & Hnsc0 & Hmc0 & Hrev & _).
  destruct (rebaseLoop_visits _ _ _ _ _ _ _ _ _ _ _ _ _ _ _ Hcs Hct Hloop)
    as (lc & ct' & emitted & minted & mc & Hv & Hcalls & Hct' & Hnsc & Hmc & Hem & Hlen & Hfresh & Hpre).
  rewrite Hover in Hct'. injection Hct' as <-.
  rewrite Hnsc in Hnsc0. apply app_inv_head in Hnsc0 as <-.
  rewrite Hmc in Hmc0. injection Hmc0 as <-.
  rewrite Hcalls in Hcalls0. apply app_inv_head in Hcalls0 as <-.
  rewrite app_nil_r in Hinv. subst inv emitted.
  exists lc, newInv, (asTagged <$> over), minted, mc. simpl.
  split_and!; try done.
  - rewrite Hcalls, <- app_assoc. done.
  - intros m Hm. apply lookup_ge_None. by apply Hfresh.
Qed.

End FastPaths.

(** ** The failures that only the embedding has are never reached

    [TypeError], [DanglingRef] and [OutOfFuel] exist because the embedding
    reads the store through references and bounds its loops.  On commits
    with finite histories [rebaseBranch] ends in none of them: it returns,
    or fails its assertion on [targetCommit], or the algebra throws. *)

Section Safety.
Context {TChange : Type} (changeRebaser : ChangeRebaser TChange).
Implicit Types (w : World TChange) (sp tp trp nsc : list ref).

Lemma bound_mono (h h' : Heap TChange) l : h `prefix_of` h' → bound h l → bound h' l.
Proof.
  intros Hp Hb x Hx. destruct (Hb x Hx) as [c Hc].
  exists c. by eapply prefix_lookup_Some.
Qed.

Lemma bound_derefAll (h : Heap TChange) l : bound h l → ∃ cs, derefAll h l = Ok cs.
Proof. apply derefAll_bound. Qed.

Lemma derefAll_is_bound (h : Heap TChange) l cs : derefAll h l = Ok cs → bound h l.
Proof.
  intros [Hlen Hl]%derefAll_lookup x [i Hi]%list_elem_of_lookup.
  rewrite (Hl _ _ Hi). apply lookup_lt_is_Some.
  apply lookup_lt_Some in Hi. lia.
Qed.

Lemma bind_assoc {A B C} (m : M A) (f : A → M B) (g : B → M C) w :
  ((m ≫= f) ≫= g) w = (m ≫= λ x, f x ≫= g) w.
Proof. unfold mbind, M_bind. by destruct (m w) as [[a|e] w1]. Qed.

Lemma rebaseChangeOverChanges_expected : ∀ overs c w,
  expected (rebaseChangeOverChanges changeRebaser c overs w).1.
Proof.
  induction overs as [|b rest IH]; intros c w; simpl; [done|].
  unfold mbind, M_bind, callRebase, logCall.
  destruct (rebase changeRebaser c b); simpl; [apply IH|done].
Qed.

Lemma inverseFromCommit_expected c w :
  expected (inverseFromCommit changeRebaser c w).1.
Proof.
  unfold inverseFromCommit, mbind, M_bind, callInvert, logCall.
  destruct (invert changeRebaser (asTagged c) true); done.
Qed.

Lemma rebaseLoop_expected ss : ∀ sp nh inv trp nsc w,
  bound (heap w) sp → bound (heap w) trp →
  expected (rebaseLoop changeRebaser ss sp nh inv trp nsc w).1
  ∧ ∀ res w', rebaseLoop changeRebaser ss sp nh inv trp nsc w = (Ok res, w') →
      bound (heap w') res.1.2.
Proof.
  induction sp as [|r sp IH]; intros nh inv trp nsc w Hsp Htrp.
  - simpl. split; [done|]. intros res w' [-> ->]%mret_inv. done.
  - assert (Hsp' : bound (heap w) sp) by (intros x Hx; apply Hsp; by right).
    destruct (Hsp r) as [c Hc]; [left|].
    assert (Hstep : ∀ nh1 trp1 nsc1 w1,
      heap w `prefix_of` heap w1 → bound (heap w1) trp1 →
      expected ((inverseFromCommit changeRebaser c ≫= λ i,
                   rebaseLoop changeRebaser ss sp nh1 (i :: inv) trp1 nsc1) w1).1
      ∧ ∀ res w', (inverseFromCommit changeRebaser c ≫= λ i,
                     rebaseLoop changeRebaser ss sp nh1 (i :: inv) trp1 nsc1) w1
                  = (Ok res, w') → bound (heap w') res.1.2).
    { intros nh1 trp1 nsc1 w1 Hp Hb.
      pose proof (inverseFromCommit_expected c w1) as He.
      unfold mbind, M_bind.
      destruct (inverseFromCommit changeRebaser c w1) as [[i|f] w2] eqn:Ei.
      - apply inverseFromCommit_inv in Ei as (x & _ & _ & ->).
        apply IH; simpl; [by eapply bound_mono|done].
      - split; [done|]. by intros. }
    simpl. erewrite bind_Ok; [|apply liftR_Ok; by apply deref_Some].
    destruct (decide (revision c ∈ ss)).
    + destruct (bound_derefAll _ _ Htrp) as [over Hover].
      rewrite !bind_assoc.
      erewrite bind_Ok; [|by apply liftR_Ok]. rewrite ?bind_assoc.
      pose proof (rebaseChangeOverChanges_expected (inv ++ (asTagged <$> over)) (change c) w) as He.
      destruct (rebaseChangeOverChanges changeRebaser (change c) (inv ++ (asTagged <$> over)) w)
        as [[c'|f] w1] eqn:Er.
      * erewrite bind_Ok; [|exact Er].
        apply rebaseChangeOverChanges_inv in Er as (rc & -> & _).
        rewrite ?bind_assoc.
        erewrite bind_Ok; [|reflexivity]. rewrite ?bind_assoc.
        erewrite bind_Ok; [|reflexivity]. rewrite ?bind_assoc.
        erewrite bind_Ok; [|reflexivity]. cbv iota beta.
        apply Hstep; simpl.
        -- rewrite <- app_assoc. by apply prefix_app_r.
        -- intros x [Hx| ->%list_elem_of_singleton]%elem_of_app.
           ++ destruct (Htrp x Hx) as [cx Hcx]. exists cx.
              eapply prefix_lookup_Some; [done|].
              rewrite <- app_assoc. by apply prefix_app_r.
           ++ apply lookup_lt_is_Some. rewrite !length_app. simpl. lia.
      * erewrite bind_Err; [|exact Er]. simpl. split; [done|]. by intros.
    + erewrite bind_Ok; [|reflexivity]. cbv iota beta. by apply Hstep.
Qed.

Theorem rebaseBranch_expected w (sourceHead targetCommit targetHead : ref)
    ps pt anc ca ctc :
  ancestry (heap w) (Some sourceHead) (ps ++ anc :: ca) →
  ancestry (heap w) (Some targetHead) (pt ++ anc :: ca) →
  (∀ y, y ∈ ps → y ∉ pt) →
  ancestry (heap w) (Some targetCommit) ctc →
  expected (rebaseBranch changeRebaser sourceHead targetCommit (Some targetHead) w).1.
Proof.
  intros Hs Ht Hd Htc.
  pose proof (findCommonAncestor_paths _ _ _ _ _ _ _ Hs Ht Hd) as E.
  assert (Bs : bound (heap w) (reverse ps)).
  { intros x Hx. rewrite elem_of_reverse in Hx. apply (ancestry_bound _ _ _ x Hs).
    apply elem_of_app. by left. }
  assert (Bt : bound (heap w) (reverse pt)).
  { intros x Hx. rewrite elem_of_reverse in Hx. apply (ancestry_bound _ _ _ x Ht).
    apply elem_of_app. by left. }
  unfold rebaseBranch. simpl.
  erewrite bind_Ok; [|by apply liftR_Ok]. simpl.
  destruct (findIndex targetCommit (reverse pt)) as [tci|] eqn:Hidx.
  - destruct (bound_derefAll _ _ Bs) as [cs Hcs].
    erewrite bind_Ok; [|by apply liftR_Ok].
    destruct (bound_derefAll _ _ Bt) as [ct Hct].
    destruct (scanTarget_total (heap w) tci (reverse pt) ct 0
                (list_to_set (revision <$> cs)) tci Hct) as [[ss nbi] Hscan].
    erewrite bind_Ok; [|by apply liftR_Ok]. simpl.
    destruct (lookup_lt_is_Some_2 (reverse pt) nbi) as [nb Hnb].
    { apply findIndex_Some, lookup_lt_Some in Hidx.
      apply scanTarget_bounds in Hscan as [_ Hb]. simpl in Hb. lia. }
    rewrite Hnb.
    assert (Btake : bound (heap w) (take (S nbi) (reverse pt))).
    { intros x Hx. apply Bt. by eapply subseteq_take. }
    destruct (bound_derefAll _ _ Btake) as [ctk Hctk].
    destruct (stripLoop_total (heap w)
                (length (reverse ps) `min` length (take (S nbi) (reverse pt)))
                (reverse ps) (take (S nbi) (reverse pt)) cs ctk Hcs Hctk)
      as [[sp' trp'] Hstrip]; [lia..|].
    erewrite bind_Ok; [|by apply liftR_Ok]. cbv iota beta.
    destruct (stripLoop_drop _ _ _ _ _ _ Hstrip) as (k & _ & _ & _ & Esp & Etrp).
    assert (Bsp' : bound (heap w) sp').
    { subst sp'. apply (derefAll_is_bound _ _ (drop k cs)). by apply derefAll_drop. }
    assert (Btrp' : bound (heap w) trp').
    { subst trp'. apply (derefAll_is_bound _ _ (drop k ctk)). by apply derefAll_drop. }
    destruct trp' as [|t trp'].
    + destruct (bound_derefAll _ _ Bsp') as [cs' Hcs'].
      erewrite bind_Ok; [|by apply reparentLoop_spec]. done.
    + destruct (rebaseLoop_expected ss sp' nb [] (t :: trp') (take (S nbi) (reverse pt)) w
                  Bsp' Btrp') as [He Hb].
      unfold mbind at 1, M_bind at 1.
      destruct (rebaseLoop changeRebaser ss sp' nb [] (t :: trp')
                  (take (S nbi) (reverse pt)) w) as [[[[[nh inv] trp''] nsc]|f] w1] eqn:El;
        [|done].
      specialize (Hb _ _ eq_refl). simpl in Hb.
      destruct (bound_derefAll _ _ Hb) as [over Hover].
      erewrite bind_Ok; [|by apply liftR_Ok].
      unfold mbind, M_bind, callCompose, logCall.
      destruct (compose changeRebaser _); done.
  - destruct (findCommonAncestor_spec (heap w) (Some targetCommit) (Some targetHead)
                false false _ _ Htc Ht) as ([[rel pa] pb] & Erel & _).
    simpl in Erel.
    erewrite bind_Ok; [|by apply liftR_Ok]. simpl.
    unfold mbind, M_bind, assertM, liftR, assertO.
    destruct (bool_decide (rel ≠ None)); done.
Qed.

End Safety.

(** ** The properties on concrete graphs *)

Ltac chain_tac :=
  repeat first [ apply ancestry_root
               | eapply ancestry_step; [reflexivity|simpl] ].

Ltac apart_tac :=
  let y := fresh "y" in let Hy := fresh "Hy" in let Hz := fresh "Hz" in
  intros y Hy Hz;
  repeat (apply elem_of_cons in Hy as [->|Hy]);
  repeat (apply elem_of_cons in Hz as [Hz|Hz]; [discriminate Hz|]);
  solve [ by apply elem_of_nil in Hz | by apply elem_of_nil in Hy ].

Ltac notin_tac :=
  let Hz := fresh "Hz" in
  intros Hz;
  repeat (apply elem_of_cons in Hz as [Hz|Hz]; [discriminate Hz|]);
  by apply elem_of_nil in Hz.

Ltac member_tac := repeat first [ by left | right ].

Lemma cancel_out_scenario_witness :
  rebaseBranch counterAlgebra 4 2 (Some 2) (startWorld cancelHeap)
  = (Ok (5, Some 2%Z,
         {| newBase := 2; deletedSourceCommits := [3; 4];
            newSourceCommits := [1; 2; 5] |}),
     {| heap := cancelHeap ++
                [ mkCommit 3 "source" 3%Z (Some 2);
                  mkCommit 3 "source" 3%Z (Some 3) ];
        tagCounter := 101;
        calls :=
          [ CallRebase 3%Z {| tcRevision := Some 2; tcChange := 2%Z; rollbackOf := None |};
            CallInvert {| tcRevision := Some 3; tcChange := 3%Z; rollbackOf := None |} true;
            CallCompose
              [ {| tcRevision := Some 100; tcChange := (-3)%Z; rollbackOf := Some 3 |};
                {| tcRevision := Some 2; tcChange := 2%Z; rollbackOf := None |};
                {| tcRevision := Some 3; tcChange := 3%Z; rollbackOf := None |} ] ] |}).
Proof.
  apply (cancel_out_scenario counterAlgebra 100 3%Z (-3)%Z 2%Z); reflexivity.
Defined.

Lemma findCommonAncestor_deepest_witness :
  ancestry cancelHeap (Some 4) [4; 3; 0] ∧ ancestry cancelHeap (Some 2) [2; 1; 0] ∧
  0 ∈ [4; 3; 0] ∧ 0 ∈ [2; 1; 0] ∧
  ∃ anc pathA pathB chain,
    findCommonAncestor cancelHeap (Some 4) (Some []) (Some 2) (Some [])
      = Ok (Some anc, Some pathA, Some pathB)
    ∧ ancestry cancelHeap (Some anc) chain
    ∧ [4; 3; 0] = reverse pathA ++ chain
    ∧ [2; 1; 0] = reverse pathB ++ chain
    ∧ (∀ y, y ∈ [4; 3; 0] → y ∈ [2; 1; 0] → y ∈ chain)
    ∧ (∀ anc' chain', ancestry cancelHeap (Some anc') chain' →
         anc' ∈ [4; 3; 0] → anc' ∈ [2; 1; 0] →
         (∀ y, y ∈ [4; 3; 0] → y ∈ [2; 1; 0] → y ∈ chain') → anc' = anc)
    ∧ (4 = 2 → anc = 4 ∧ pathA = [] ∧ pathB = []).
Proof.
  assert (Ha : ancestry cancelHeap (Some 4) [4; 3; 0]) by chain_tac.
  assert (Hb : ancestry cancelHeap (Some 2) [2; 1; 0]) by chain_tac.
  assert (Hza : 0 ∈ [4; 3; 0]) by member_tac.
  assert (Hzb : 0 ∈ [2; 1; 0]) by member_tac.
  split_and!; try assumption.
  exact (findCommonAncestor_deepest cancelHeap 4 2 _ _ 0 Ha Hb Hza Hzb).
Defined.

Lemma unrelated_branches_fail_witness :
  ancestry unrelatedHeap (Some 0) [0] ∧ ancestry unrelatedHeap (Some 1) [1] ∧
  (∀ y, y ∈ [0] → y ∉ [1]) ∧
  rebaseBranch counterAlgebra 0 1 None (startWorld unrelatedHeap)
    = (Err (AssertionFailed "branches must be related"), startWorld unrelatedHeap) ∧
  rebaseChange counterAlgebra 7%Z 0 1 (startWorld unrelatedHeap)
    = (Err (AssertionFailed "branch A and branch B must be related"),
       startWorld unrelatedHeap).
Proof.
  assert (Ha : ancestry unrelatedHeap (Some 0) [0]) by chain_tac.
  assert (Hb : ancestry unrelatedHeap (Some 1) [1]) by chain_tac.
  assert (Hd : ∀ y, y ∈ [0] → y ∉ [1]) by apart_tac.
  split_and!; try assumption;
    apply (unrelated_branches_fail counterAlgebra (startWorld unrelatedHeap) 0 1 None 7%Z
             [0] [1] Ha Hb Hd).
Defined.

Lemma target_not_on_path_witness :
  ancestry cancelHeap (Some 4) ([4; 3] ++ 0 :: []) ∧
  ancestry cancelHeap (Some 2) ([2; 1] ++ 0 :: []) ∧
  (∀ y, y ∈ [4; 3] → y ∉ [2; 1]) ∧ (0 ∉ [2; 1]) ∧ 0 ∈ [0] ∧
  rebaseBranch counterAlgebra 4 0 (Some 2) (startWorld cancelHeap)
    = (Ok (4, None,
           {| newBase := 0; deletedSourceCommits := []; newSourceCommits := [] |}),
       startWorld cancelHeap).
Proof.
  assert (Ha : ancestry cancelHeap (Some 4) ([4; 3] ++ 0 :: [])) by chain_tac.
  assert (Hb : ancestry cancelHeap (Some 2) ([2; 1] ++ 0 :: [])) by chain_tac.
  assert (Hd : ∀ y, y ∈ [4; 3] → y ∉ [2; 1]) by apart_tac.
  assert (Hn : 0 ∉ [2; 1]) by notin_tac.
  assert (Hi : 0 ∈ [0]) by member_tac.
  split_and!; try assumption.
  exact (target_not_on_path counterAlgebra (startWorld cancelHeap) 4 0 2 [4; 3] [2; 1] 0 []
           Ha Hb Hd Hn Hi).
Defined.

(** The run of the cancel-out scenario. *)
Lemma cancel_out_run :
  rebaseBranch counterAlgebra 4 2 (Some 2) (startWorld cancelHeap)
  = (Ok (5, Some 2%Z,
         {| newBase := 2; deletedSourceCommits := [3; 4];
            newSourceCommits := [1; 2; 5] |}),
     {| heap := cancelHeap ++
                [ mkCommit 3 "source" 3%Z (Some 2);
                  mkCommit 3 "source" 3%Z (Some 3) ];
        tagCounter := 101;
        calls :=
          [ CallRebase 3%Z {| tcRevision := Some 2; tcChange := 2%Z; rollbackOf := None |};
            CallInvert {| tcRevision := Some 3; tcChange := 3%Z; rollbackOf := None |} true;
            CallCompose
              [ {| tcRevision := Some 100; tcChange := (-3)%Z; rollbackOf := Some 3 |};
                {| tcRevision := Some 2; tcChange := 2%Z; rollbackOf := None |};
                {| tcRevision := Some 3; tcChange := 3%Z; rollbackOf := None |} ] ] |}).
Proof. vm_compute. reflexivity. Qed.

Lemma newBase_descends_from_target_witness :
  ancestry cancelHeap (Some 4) ([4; 3] ++ 0 :: []) ∧
  ancestry cancelHeap (Some 2) ([2; 1] ++ 0 :: []) ∧
  (∀ y, y ∈ [4; 3] → y ∉ [2; 1]) ∧ 2 ∈ [2; 1] ++ 0 :: [] ∧
  ∃ chain, ancestry cancelHeap (Some 2) chain ∧ 2 ∈ chain.
Proof.
  assert (Ha : ancestry cancelHeap (Some 4) ([4; 3] ++ 0 :: [])) by chain_tac.
  assert (Hb : ancestry cancelHeap (Some 2) ([2; 1] ++ 0 :: [])) by chain_tac.
  assert (Hd : ∀ y, y ∈ [4; 3] → y ∉ [2; 1]) by apart_tac.
  assert (Hi : 2 ∈ [2; 1] ++ 0 :: []) by (simpl; member_tac).
  split_and!; try assumption.
  exact (proj1 (newBase_descends_from_target counterAlgebra)
           (startWorld cancelHeap) 4 2 2 [4; 3] [2; 1] 0 [] _ _ _ _
           Ha Hb Hd Hi cancel_out_run).
Defined.

Lemma newSourceCommits_chain_witness :
  ancestry cancelHeap (Some 4) ([4; 3] ++ 0 :: []) ∧
  ancestry cancelHeap (Some 2) ([2; 1] ++ 0 :: []) ∧
  (∀ y, y ∈ [4; 3] → y ∉ [2; 1]) ∧
  ∃ w' : World Z,
    rebaseBranch counterAlgebra 4 2 (Some 2) (startWorld cancelHeap)
      = (Ok (5, Some 2%Z,
             {| newBase := 2; deletedSourceCommits := [3; 4];
                newSourceCommits := [1; 2; 5] |}), w')
    ∧ linked (heap w') [1; 2; 5]
    ∧ (∀ x, head [1; 2; 5] = Some x → ∃ c, heap w' !! x = Some c ∧ parent c = Some 0)
    ∧ ([1; 2; 5] = [] → 5 = 4)
    ∧ ([1; 2; 5] ≠ [] → last [1; 2; 5] = Some 5 ∧ 2 ∈ [1; 2; 5])
    ∧ cancelHeap `prefix_of` heap w'.
Proof.
  assert (Ha : ancestry cancelHeap (Some 4) ([4; 3] ++ 0 :: [])) by chain_tac.
  assert (Hb : ancestry cancelHeap (Some 2) ([2; 1] ++ 0 :: [])) by chain_tac.
  assert (Hd : ∀ y, y ∈ [4; 3] → y ∉ [2; 1]) by apart_tac.
  split_and!; try assumption.
  eexists. split; [exact cancel_out_run|].
  exact (newSourceCommits_chain counterAlgebra (startWorld cancelHeap) 4 2 2
           [4; 3] [2; 1] 0 [] _ _ _ _ Ha Hb Hd cancel_out_run).
Defined.

(** Rebasing [D] of [cancelHeap] onto [B]: the target rebase path [[B]] is
    stripped against [B'] and nothing is left of it. *)
Lemma cancelHeap_stripped_onto_B :
  strippedTo cancelHeap (reverse [4; 3]) (reverse [1]) 1 {[3]} 0 [4] [].
Proof.
  exists 0, [mkCommit 1 "source" 5%Z (Some 0); mkCommit 3 "source" 3%Z (Some 3)].
  split_and!; vm_compute; reflexivity.
Qed.

Lemma fast_forward_witness :
  (ancestry cancelHeap (Some 4) ([4; 3] ++ 0 :: []) ∧
   ancestry cancelHeap (Some 1) ([1] ++ 0 :: []) ∧
   (∀ y, y ∈ [4; 3] → y ∉ [1]) ∧
   strippedTo cancelHeap (reverse [4; 3]) (reverse [1]) 1 {[3]} 0 [4] [] ∧
   ∃ nb cs',
     reverse [1] !! 0 = Some nb ∧ derefAll cancelHeap [4] = Ok cs' ∧
     rebaseBranch counterAlgebra 4 1 (Some 1) (startWorld cancelHeap) =
       (Ok (lastOr nb (take 1 (reverse [1]) ++ seq 5 1), None,
            {| newBase := nb; deletedSourceCommits := reverse [4; 3];
               newSourceCommits := take 1 (reverse [1]) ++ seq 5 1 |}),
        {| heap := cancelHeap ++ reparented nb 5 cs';
           tagCounter := 100; calls := [] |}) ∧
     ∀ i c, cs' !! i = Some c →
       (cancelHeap ++ reparented nb 5 cs') !! (5 + i) =
         Some {| revision := revision c; sessionId := sessionId c;
                 change := change c;
                 parent := Some (match i with 0 => nb | S j => 5 + j end) |})
  ∧ (ancestry cancelHeap (Some 3) ([3] ++ 0 :: []) ∧
     ancestry cancelHeap (Some 2) ([2; 1] ++ 0 :: []) ∧
     (∀ y, y ∈ [3] → y ∉ [2; 1]) ∧
     ∃ nb, reverse [2; 1] !! 1 = Some nb ∧
       rebaseBranch counterAlgebra 3 2 (Some 2) (startWorld cancelHeap) =
         (Ok (nb, Some 2%Z,
              {| newBase := nb; deletedSourceCommits := reverse [3];
                 newSourceCommits := take 2 (reverse [2; 1]) |}),
          {| heap := cancelHeap; tagCounter := 100;
             calls := [ CallCompose
                          [ {| tcRevision := Some 2; tcChange := 2%Z;
                               rollbackOf := None |} ] ] |})).
Proof.
  split.
  - assert (Ha : ancestry cancelHeap (Some 4) ([4; 3] ++ 0 :: [])) by chain_tac.
    assert (Hb : ancestry cancelHeap (Some 1) ([1] ++ 0 :: [])) by chain_tac.
    assert (Hd : ∀ y, y ∈ [4; 3] → y ∉ [1]) by apart_tac.
    split_and!; try assumption; [exact cancelHeap_stripped_onto_B|].
    exact (proj1 (fast_forward counterAlgebra) (startWorld cancelHeap) 4 1 1
             [4; 3] [1] 0 [] {[3]} 0 [4] Ha Hb Hd cancelHeap_stripped_onto_B).
  - assert (Ha : ancestry cancelHeap (Some 3) ([3] ++ 0 :: [])) by chain_tac.
    assert (Hb : ancestry cancelHeap (Some 2) ([2; 1] ++ 0 :: [])) by chain_tac.
    assert (Hd : ∀ y, y ∈ [3] → y ∉ [2; 1]) by apart_tac.
    split_and!; try assumption.
    refine (proj2 (fast_forward counterAlgebra) (startWorld cancelHeap) 3 2 2
             [3] [2; 1] 0 [] 1 [mkCommit 1 "source" 5%Z (Some 0)] ∅ 1
             [mkCommit 1 "target" 1%Z (Some 0); mkCommit 2 "target" 2%Z (Some 1)]
             Ha Hb Hd _ _ _ _ _ _); first [simpl; lia | vm_compute; reflexivity].
Defined.

Lemma undefined_change_without_algebra_witness :
  ancestry cancelHeap (Some 4) ([4; 3] ++ 0 :: []) ∧
  ancestry cancelHeap (Some 1) ([1] ++ 0 :: []) ∧
  (∀ y, y ∈ [4; 3] → y ∉ [1]) ∧
  strippedTo cancelHeap (reverse [4; 3]) (reverse [1]) 1 {[3]} 0 [4] [] ∧
  ∃ hd rc (w' : World Z),
    rebaseBranch counterAlgebra 4 1 (Some 1) (startWorld cancelHeap)
      = (Ok (hd, None, rc), w')
    ∧ calls w' = []
    ∧ ([4] ≠ [] → hd ≠ 4 ∧ cancelHeap !! hd = None ∧ is_Some (heap w' !! hd)).
Proof.
  assert (Ha : ancestry cancelHeap (Some 4) ([4; 3] ++ 0 :: [])) by chain_tac.
  assert (Hb : ancestry cancelHeap (Some 1) ([1] ++ 0 :: [])) by chain_tac.
  assert (Hd : ∀ y, y ∈ [4; 3] → y ∉ [1]) by apart_tac.
  split_and!; try assumption; [exact cancelHeap_stripped_onto_B|].
  exact (proj2 (undefined_change_without_algebra counterAlgebra (startWorld cancelHeap)
                  4 1 1 [4; 3] [1] 0 [] Ha Hb Hd)
           {[3]} 0 [4] cancelHeap_stripped_onto_B).
Defined.

(** The run on [interleavedHeap]: rebasing [D] onto [C]. *)
Lemma interleaved_run :
  ∃ w' : World Z,
    rebaseBranch counterAlgebra 5 2 (Some 2) (startWorld interleavedHeap)
    = (Ok (8, Some (-2)%Z,
           {| newBase := 2; deletedSourceCommits := [3; 4; 5];
              newSourceCommits := [1; 2; 6; 8] |}), w').
Proof. eexists. vm_compute. reflexivity. Qed.

Lemma interleavedHeap_stripped :
  strippedTo interleavedHeap (reverse [5; 4; 3]) (reverse [2; 1]) 2 {[5; 3]} 1
    [3; 4; 5] [1; 2].
Proof.
  exists 1, [ mkCommit 5 "source" 7%Z (Some 0); mkCommit 1 "source" 5%Z (Some 3);
             mkCommit 3 "source" 3%Z (Some 4) ].
  split_and!; vm_compute; reflexivity.
Qed.

Lemma cancelled_commits_are_inverted_witness :
  let cs := [ mkCommit 5 "source" 7%Z (Some 0); mkCommit 1 "source" 5%Z (Some 3);
              mkCommit 3 "source" 3%Z (Some 4) ] in
  let ct := [ mkCommit 1 "target" 1%Z (Some 0); mkCommit 2 "target" 2%Z (Some 1) ] in
  ancestry interleavedHeap (Some 5) ([5; 4; 3] ++ 0 :: []) ∧
  ancestry interleavedHeap (Some 2) ([2; 1] ++ 0 :: []) ∧
  (∀ y, y ∈ [5; 4; 3] → y ∉ [2; 1]) ∧
  strippedTo interleavedHeap (reverse [5; 4; 3]) (reverse [2; 1]) 2 {[5; 3]} 1
    [3; 4; 5] [1; 2] ∧
  [1; 2] ≠ ([] : list nat) ∧
  derefAll interleavedHeap [3; 4; 5] = Ok cs ∧
  derefAll interleavedHeap [1; 2] = Ok ct ∧
  ∃ w' : World Z,
    rebaseBranch counterAlgebra 5 2 (Some 2) (startWorld interleavedHeap)
    = (Ok (8, Some (-2)%Z,
           {| newBase := 2; deletedSourceCommits := [3; 4; 5];
              newSourceCommits := [1; 2; 6; 8] |}), w') ∧
    ∃ lc inverses over minted mc,
      loopVisits counterAlgebra {[5; 3]} 100 [] (asTagged <$> ct) cs
        lc inverses over (content <$> mc) ∧
      calls w' = [] ++ lc ++ [CallCompose (inverses ++ over)] ∧
      Some (-2)%Z = compose counterAlgebra (inverses ++ over) ∧
      [1; 2; 6; 8] = take 2 (reverse [2; 1]) ++ minted ∧
      derefAll (heap w') minted = Ok mc ∧
      (∀ m, m ∈ minted → interleavedHeap !! m = None) ∧
      revision <$> mc = filter (λ t, t ∈ ({[5; 3]} : gset nat)) (revision <$> cs) ∧
      invertedCommits lc = asTagged <$> cs ∧
      rollbackOf <$> inverses = Some <$> reverse (revision <$> cs).
Proof.
  intros cs ct.
  assert (Ha : ancestry interleavedHeap (Some 5) ([5; 4; 3] ++ 0 :: [])) by chain_tac.
  assert (Hb : ancestry interleavedHeap (Some 2) ([2; 1] ++ 0 :: [])) by chain_tac.
  assert (Hd : ∀ y, y ∈ [5; 4; 3] → y ∉ [2; 1]) by apart_tac.
  assert (Hne : [1; 2] ≠ ([] : list nat)) by discriminate.
  split_and!;
    [exact Ha|exact Hb|exact Hd|exact interleavedHeap_stripped|exact Hne
    |reflexivity|reflexivity|].
  destruct interleaved_run as [w' Hrun]. exists w'. split; [exact Hrun|].
  exact (cancelled_commits_are_inverted counterAlgebra (startWorld interleavedHeap)
           5 2 2 [5; 4; 3] [2; 1] 0 [] {[5; 3]} 1 [3; 4; 5] [1; 2] cs ct _ _ _ w'
           Ha Hb Hd interleavedHeap_stripped Hne eq_refl eq_refl Hrun).
Defined.

(** ** Where the design document and the code part ways *)

(** C2 as written does not hold.  On [interleavedHeap], rebasing [D] onto
    [C]: the source commit [B'] (reference 4, tag 1) is cancelled out by [B],
    its tag is gone from the source set, yet it stays on the source path of
    the loop.  The fourth algebra call is [invert] on [B'] and the fifth
    rebases [D]'s change over the rollback inverse of [B']. *)
Lemma cancelled_commit_inverted_counterexample :
  let run := rebaseBranch counterAlgebra 5 2 (Some 2) (startWorld interleavedHeap) in
  strippedTo interleavedHeap [3; 4; 5] [1; 2] 2 {[5; 3]} 1 [3; 4; 5] [1; 2]
  ∧ (revision <$> interleavedHeap !! 4) = Some 1
  ∧ (1 ∉ ({[5; 3]} : gset nat))
  ∧ calls run.2 !! 3
    = Some (CallInvert {| tcRevision := Some 1; tcChange := 5%Z; rollbackOf := None |} true)
  ∧ calls run.2 !! 4
    = Some (CallRebase 3%Z
              {| tcRevision := Some 101; tcChange := (-5)%Z; rollbackOf := Some 1 |}).
Proof.
  split_and!.
  - exists 1, [ mkCommit 5 "source" 7%Z (Some 0); mkCommit 1 "source" 5%Z (Some 3);
               mkCommit 3 "source" 3%Z (Some 4) ].
    split_and!; vm_compute; reflexivity.
  - reflexivity.
  - intros H. apply elem_of_union in H as [H|H]; apply elem_of_singleton in H; discriminate.
  - vm_compute. reflexivity.
  - vm_compute. reflexivity.
Qed.

(** C3 as written does not hold.  On [cancelHeap], rebasing [B'] onto [C]:
    the source path [[B']] is, by tag, a proper prefix of the target rebase
    path [[B; C]], yet [compose] is invoked (with an algebra that throws the
    call fails), and the commits reported are [B] and [C], whose changes
    differ from the change of [B']. *)
Lemma strict_prefix_composes_counterexample :
  rebaseBranch counterAlgebra 3 2 (Some 2) (startWorld cancelHeap)
    = (Ok (2, Some 2%Z,
           {| newBase := 2; deletedSourceCommits := [3]; newSourceCommits := [1; 2] |}),
       {| heap := cancelHeap; tagCounter := 100;
          calls := [ CallCompose
                       [ {| tcRevision := Some 2; tcChange := 2%Z;
                            rollbackOf := None |} ] ] |})
  ∧ (rebaseBranch throwingAlgebra 3 2 (Some 2) (startWorld cancelHeap)).1
    = Err AlgebraException
  ∧ (change <$> cancelHeap !! 3) = Some 5%Z
  ∧ (change <$> cancelHeap !! 1) = Some 1%Z
  ∧ (change <$> cancelHeap !! 2) = Some 2%Z.
Proof. split_and!; vm_compute; reflexivity. Qed.

(** C5 as written does not hold.  On [cancelHeap], rebasing [D] onto
    [targetCommit = B'] with [targetHead = C] succeeds: [B'] is related to
    [C] but not on its branch.  The [newBase] returned is [A], the parent of
    [B'], so [B'] is not on the parent chain of [newBase]. *)
Lemma newBase_strict_ancestor_counterexample :
  rebaseBranch counterAlgebra 4 3 (Some 2) (startWorld cancelHeap)
    = (Ok (4, None,
           {| newBase := 0; deletedSourceCommits := []; newSourceCommits := [] |}),
       startWorld cancelHeap)
  ∧ ancestry cancelHeap (Some 3) [3; 0]
  ∧ ancestry cancelHeap (Some 0) [0]
  ∧ 3 ∉ [0].
Proof.
  split_and!; [vm_compute; reflexivity|chain_tac|chain_tac|notin_tac].
Qed.

(** C8 as written does not hold.  In the cancel-out scenario
    [newSourceCommits] is [[B; C; D']] and [newBase] is [C]; the parent of
    [B], the first commit of the list, is [A], which is neither [newBase] nor
    a commit of the list. *)
Lemma first_new_commit_parent_counterexample :
  let run := rebaseBranch counterAlgebra 4 2 (Some 2) (startWorld cancelHeap) in
  run.1 = Ok (5, Some 2%Z,
              {| newBase := 2; deletedSourceCommits := [3; 4];
                 newSourceCommits := [1; 2; 5] |})
  ∧ (parent <$> heap run.2 !! 1) = Some (Some 0)
  ∧ 0 ≠ 2
  ∧ 0 ∉ [1; 2; 5].
Proof.
  split_and!; [vm_compute; reflexivity|vm_compute; reflexivity|discriminate|notin_tac].
Qed.

(** * Further properties of the rebase utilities *)

(** ** [findAncestor] *)

Section FindAncestor.
Context {TChange : Type}.
Implicit Types (h : Heap TChange) (l pre : list ref) (path : option (list ref)).

Lemma findAncestorLoop_found h predicate : ∀ pre fuel cur path x rest,
  ancestry h cur (pre ++ x :: rest) →
  predicate x = true → (∀ y, y ∈ pre → predicate y = false) →
  length pre < fuel →
  findAncestorLoop h fuel predicate cur path
  = Ok (Some x, (λ p, reverse pre ++ p) <$> path).
Proof.
  induction pre as [|y pre IH]; intros fuel cur path x rest Ha Hx Hpre Hfuel;
    (destruct fuel as [|fuel]; [simpl in Hfuel; lia|]);
    inversion Ha as [|? c ? Hc Hp]; subst; simpl.
  - rewrite Hx. by destruct path.
  - rewrite (Hpre y) by left. rewrite (deref_Some _ _ _ Hc). simpl.
    erewrite IH; [|done|done|intros z Hz; apply Hpre; by right|simpl in Hfuel; lia].
    destruct path; simpl; [|done].
    by rewrite reverse_cons, <- app_assoc.
Qed.

Lemma findAncestorLoop_absent h predicate : ∀ chain fuel cur path,
  ancestry h cur chain →
  (∀ y, y ∈ chain → predicate y = false) →
  length chain < fuel →
  findAncestorLoop h fuel predicate cur path = Ok (None, clearOpt path).
Proof.
  induction chain as [|y chain IH]; intros fuel cur path Ha Hall Hfuel;
    (destruct fuel as [|fuel]; [simpl in Hfuel; lia|]);
    inversion Ha as [|? c ? Hc Hp]; subst; simpl; [done|].
  rewrite (Hall y) by left. rewrite (deref_Some _ _ _ Hc). simpl.
  erewrite IH; [|done|intros z Hz; apply Hall; by right|simpl in Hfuel; lia].
  by destruct path.
Qed.

(** X1. [findAncestor] returns the closest commit, starting with the
    descendant itself, that satisfies the predicate.  A supplied path gets
    the commits walked before it put in front of what it held, most distant
    first, the descendant last; the path need not be empty. *)
Theorem findAncestor_closest h predicate (d : option ref) path pre x rest :
  ancestry h d (pre ++ x :: rest) →
  predicate x = true →
  (∀ y, y ∈ pre → predicate y = false) →
  findAncestor h d path predicate = Ok (Some x, (λ p, reverse pre ++ p) <$> path).
Proof.
  intros Ha Hx Hpre. apply findAncestorLoop_found with (rest := rest); try done.
  pose proof (ancestry_length _ _ _ Ha) as Hl. rewrite length_app in Hl.
  simpl in Hl. lia.
Qed.

(** X2. When no commit on the chain of the descendant satisfies the
    predicate, or the descendant is undefined, [findAncestor] returns
    undefined and a supplied path comes back empty, whatever it held. *)
Theorem findAncestor_absent h predicate (d : option ref) path chain :
  ancestry h d chain →
  (∀ y, y ∈ chain → predicate y = false) →
  findAncestor h d path predicate = Ok (None, (λ _, []) <$> path).
Proof.
  intros Ha Hall. apply findAncestorLoop_absent with (chain := chain); try done.
  pose proof (ancestry_length _ _ _ Ha). lia.
Qed.

End FindAncestor.

(** ** More on [findCommonAncestor] *)

Section FindCommonAncestorMore.
Context {TChange : Type}.
Implicit Types (h : Heap TChange) (l : list ref).

(** X3. The search is symmetric: exchanging the two descendants gives the
    same ancestor and exchanges the two paths. *)
Theorem findCommonAncestor_symmetric h (a b : option ref) (fa fb : bool) ca cb :
  ancestry h a ca → ancestry h b cb →
  ∃ r pA pB,
    findCommonAncestor h a (pathOf fa []) b (pathOf fb []) = Ok (r, pA, pB) ∧
    findCommonAncestor h b (pathOf fb []) a (pathOf fa []) = Ok (r, pB, pA).
Proof.
  intros Ha Hb.
  destruct (findCommonAncestor_spec h a b fa fb _ _ Ha Hb) as ([[r pA] pB] & E & Hpost).
  exists r, pA, pB. split; [done|].
  destruct r as [x|]; simpl in Hpost.
  - destruct Hpost as (pa & pb & cx & Hx & -> & -> & Hd & -> & ->).
    inversion Hx as [|? c cx' Hc Hp]; subst.
    apply (findCommonAncestor_split h b a fb fa pb pa x cx'); try done.
    intros y Hy Hy'. by apply (Hd y).
  - destruct Hpost as (Hd & -> & ->).
    apply (findCommonAncestor_unrelated h b a fb fa cb ca); try done.
    intros y Hy Hy'. by apply (Hd y).
Qed.

(** X4. On commits without a common ancestor, and when one descendant is
    undefined, the search returns undefined and both supplied paths come
    back empty: nothing of the walk leaks out. *)
Theorem findCommonAncestor_clears_paths h (a b : option ref) ca cb :
  ancestry h a ca → ancestry h b cb → (∀ y, y ∈ ca → y ∉ cb) →
  findCommonAncestor h a (Some []) b (Some []) = Ok (None, Some [], Some []).
Proof.
  intros Ha Hb Hd.
  exact (findCommonAncestor_unrelated h a b true true ca cb Ha Hb Hd).
Qed.

(** X5. When the second commit is an ancestor of the first (or the first
    itself), it is the ancestor returned: its own path is empty and the path
    of the first holds the commits from just below it down to the first. *)
Theorem findCommonAncestor_of_ancestor h (a b : ref) pre rest :
  ancestry h (Some a) (pre ++ b :: rest) →
  findCommonAncestor h (Some a) (Some []) (Some b) (Some [])
  = Ok (Some b, Some (reverse pre), Some []).
Proof.
  intros Ha.
  apply (findCommonAncestor_split h (Some a) (Some b) true true pre [] b rest).
  - done.
  - by apply ancestry_suffix in Ha.
  - intros y _ Hy. by apply elem_of_nil in Hy.
Qed.

End FindCommonAncestorMore.

(** ** The scan and the prefix stripping of [rebaseBranch] *)

Section ScanAndStrip.
Context {TChange : Type}.
Implicit Types (h : Heap TChange) (w : World TChange) (sp tp trp : list ref).

(** Once the first tags differ the loop changes nothing more. *)
Lemma stripLoop_stuck h : ∀ n s sp t trp cs ct,
  deref h s = Ok cs → deref h t = Ok ct → revision cs ≠ revision ct →
  stripLoop h n (s :: sp) (t :: trp) = Ok (s :: sp, t :: trp).
Proof.
  induction n as [|n IH]; intros s sp t trp cs ct Hs Ht Hne; simpl; [done|].
  rewrite Hs, Ht. simpl. rewrite decide_False by done. by eapply IH.
Qed.

Lemma stripLoop_common h : ∀ n sp trp cs ct,
  derefAll h sp = Ok cs → derefAll h trp = Ok ct →
  n ≤ length sp → n ≤ length trp →
  let k := n `min` commonPrefix (revision <$> cs) (revision <$> ct) in
  stripLoop h n sp trp = Ok (drop k sp, drop k trp).
Proof.
  induction n as [|n IH]; intros sp trp cs ct Hs Ht Hn1 Hn2; simpl; [done|].
  destruct sp as [|s sp], trp as [|t trp]; simpl in *; try lia.
  destruct (deref h s) as [c1|] eqn:E1; [|done]. simpl in *.
  destruct (deref h t) as [c2|] eqn:E2; [|done]. simpl in *.
  destruct (derefAll h sp) as [cs'|] eqn:E3; [|done].
  destruct (derefAll h trp) as [ct'|] eqn:E4; [|done].
  simpl in *. injection Hs as <-. injection Ht as <-. simpl.
  destruct (decide (revision c1 = revision c2)) as [Heq|Hne].
  - rewrite (IH sp trp cs' ct') by (done || lia). done.
  - by erewrite stripLoop_stuck.
Qed.

Lemma commonPrefix_le l1 l2 : commonPrefix l1 l2 ≤ length l1 `min` length l2.
Proof.
  revert l2. induction l1 as [|x l1 IH]; intros [|y l2]; simpl; try lia.
  destruct (decide (x = y)); [|lia]. specialize (IH l2). lia.
Qed.

(** X6. The stripping loop of [rebaseBranch], run for as many rounds as
    the shorter path is long, removes from both paths exactly their longest
    common prefix by revision tag, although it has no [break]; it never reads
    past the end of a path. *)
Theorem stripLoop_strips_common_prefix h sp trp cs ct :
  derefAll h sp = Ok cs → derefAll h trp = Ok ct →
  let k := commonPrefix (revision <$> cs) (revision <$> ct) in
  stripLoop h (length sp `min` length trp) sp trp = Ok (drop k sp, drop k trp).
Proof.
  intros Hs Ht k.
  pose proof (stripLoop_common h (length sp `min` length trp) sp trp cs ct Hs Ht) as H.
  simpl in H. rewrite H by lia. clear H.
  pose proof (commonPrefix_le (revision <$> cs) (revision <$> ct)) as Hle.
  rewrite !length_fmap in Hle.
  apply derefAll_lookup in Hs as [L1 _]. apply derefAll_lookup in Ht as [L2 _].
  subst k. f_equal. f_equal; f_equal; lia.
Qed.

(** The scan leaves [newBaseIndex] alone when the commit at
    [targetCommitIndex] carries a tag outside the source set. *)
Lemma scanTarget_stops h tci c : ∀ rest i ss ss' nbi' t,
  i ≤ tci → rest !! (tci - i) = Some t → deref h t = Ok c →
  revision c ∉ ss →
  scanTarget h tci i rest ss tci = Ok (ss', nbi') → nbi' = tci.
Proof.
  induction rest as [|t0 rest IH]; intros i ss ss' nbi' t Hi Ht Hc Hnin; simpl; [done|].
  destruct (decide (i = tci)) as [->|Hne].
  - rewrite Nat.sub_diag in Ht. injection Ht as ->. rewrite Hc. simpl.
    rewrite decide_False by done. rewrite decide_True by done. by intros [= _ <-].
  - replace (tci - i) with (S (tci - S i)) in Ht by lia. simpl in Ht.
    destruct (deref h t0) as [c0|]; [|done]. simpl.
    destruct (decide (revision c0 ∈ ss)).
    + replace (tci `max` i) with tci by lia.
      apply (IH (S i) _ _ _ t); [lia|done|done|].
      intros Hin. apply elem_of_difference in Hin as [? _]. done.
    + rewrite decide_False by lia. apply (IH (S i) _ _ _ t); [lia|done|done|done].
Qed.

(** Every tag the scan takes out of the source set is the tag of a target
    commit at an index up to the final [newBaseIndex]. *)
Lemma scanTarget_removed h tci : ∀ rest i ss nbi ss' nbi' t,
  scanTarget h tci i rest ss nbi = Ok (ss', nbi') →
  t ∈ ss → t ∉ ss' →
  ∃ j r c, j ≤ nbi' ∧ i ≤ j ∧ rest !! (j - i) = Some r ∧
    deref h r = Ok c ∧ revision c = t.
Proof.
  induction rest as [|t0 rest IH]; intros i ss nbi ss' nbi' t; simpl.
  - intros [= <- _] Hin Hnin. done.
  - destruct (deref h t0) as [c0|] eqn:E0; [|done]. simpl.
    destruct (decide (revision c0 ∈ ss)) as [Hc0|Hc0].
    + intros H Hin Hnin.
      destruct (decide (t = revision c0)) as [->|Hne].
      * exists i, t0, c0. apply scanTarget_bounds in H as [Hle _].
        rewrite Nat.sub_diag. split_and!; auto; lia.
      * destruct (IH _ _ _ _ _ t H) as (j & r & c & ? & ? & Hr & ? & ?); [set_solver|done|].
        exists j, r, c. split_and!; auto; [lia|].
        replace (j - i) with (S (j - S i)) by lia. done.
    + destruct (decide (tci ≤ i)).
      * intros [= <- _] Hin Hnin. done.
      * intros H Hin Hnin.
        destruct (IH _ _ _ _ _ t H) as (j & r & c & ? & ? & Hr & ? & ?); [done|done|].
        exists j, r, c. split_and!; auto; [lia|].
        replace (j - i) with (S (j - S i)) by lia. done.
Qed.

(** With an empty source set the scan ends at [targetCommitIndex]. *)
Lemma scanTarget_empty h tci : ∀ rest cs i,
  derefAll h rest = Ok cs → i ≤ tci → tci < i + length rest →
  scanTarget h tci i rest ∅ tci = Ok (∅, tci).
Proof.
  induction rest as [|t0 rest IH]; intros cs i Hcs Hi Hlen; simpl in *; [lia|].
  destruct (deref h t0) as [c0|]; [|done]. simpl in *.
  destruct (derefAll h rest) as [cs'|] eqn:E; [|done].
  rewrite decide_False by set_solver.
  destruct (decide (tci ≤ i)); [done|]. eapply IH; eauto; lia.
Qed.

(** The tags of what the stripping removed agree on both sides. *)
Lemma stripLoop_tags h : ∀ n sp trp sp' trp',
  stripLoop h n sp trp = Ok (sp', trp') →
  ∃ k c1 c2, sp' = drop k sp ∧ trp' = drop k trp ∧
    derefAll h (take k sp) = Ok c1 ∧ derefAll h (take k trp) = Ok c2 ∧
    revision <$> c1 = revision <$> c2.
Proof.
  induction n as [|n IH]; intros sp trp sp' trp'; simpl.
  - intros [= <- <-]. by exists 0, [], [].
  - destruct sp as [|s sp], trp as [|t trp]; try done.
    destruct (deref h s) as [cs|] eqn:Es; [|done]. simpl.
    destruct (deref h t) as [ct|] eqn:Et; [|done]. simpl.
    destruct (decide _) as [Heq|Hne].
    + intros H. destruct (IH _ _ _ _ H) as (k & c1 & c2 & -> & -> & H1 & H2 & Hr).
      exists (S k), (cs :: c1), (ct :: c2). simpl.
      rewrite Es, Et, H1, H2. simpl. split_and!; auto.
      change (revision cs :: (revision <$> c1) = revision ct :: (revision <$> c2)).
      by f_equal.
    + intros H. destruct (IH _ _ _ _ H) as (k & c1 & c2 & E1 & E2 & H1 & H2 & Hr).
      exists k, c1, c2. done.
Qed.

End ScanAndStrip.

(** ** What [rebaseBranch] reports *)

Section Report.
Context {TChange : Type} (changeRebaser : ChangeRebaser TChange).
Implicit Types (w : World TChange) (sp tp trp : list ref).

Lemma findIndex_elem x (l : list ref) : x ∈ l → ∃ i, findIndex x l = Some i.
Proof.
  intros Hx. destruct (findIndex x l) as [i|] eqn:E; [eauto|].
  by apply findIndex_None_inv in E.
Qed.

(** The commit read at a position of a dereferenced path. *)
Lemma derefAll_elem (h : Heap TChange) l cs c :
  derefAll h l = Ok cs → c ∈ cs → ∃ r, r ∈ l ∧ h !! r = Some c.
Proof.
  intros [Hlen Hl]%derefAll_lookup [i Hi]%list_elem_of_lookup.
  destruct (lookup_lt_is_Some_2 l i) as [r Hr].
  { apply lookup_lt_Some in Hi. lia. }
  exists r. split; [by eapply list_elem_of_lookup_2|]. by rewrite (Hl _ _ Hr).
Qed.

Lemma derefAll_elem_inv (h : Heap TChange) l cs r :
  derefAll h l = Ok cs → r ∈ l → ∃ c, c ∈ cs ∧ h !! r = Some c.
Proof.
  intros [Hlen Hl]%derefAll_lookup [i Hi]%list_elem_of_lookup.
  destruct (lookup_lt_is_Some_2 cs i) as [c Hc].
  { apply lookup_lt_Some in Hi. lia. }
  exists c. split; [by eapply list_elem_of_lookup_2|]. by rewrite (Hl _ _ Hi).
Qed.

(** The successful runs in which [targetCommit] is on the target path. *)
Lemma rebaseBranch_found_inv w (s tc th : ref) ps pt anc ca hd chg rc w' :
  ancestry (heap w) (Some s) (ps ++ anc :: ca) →
  ancestry (heap w) (Some th) (pt ++ anc :: ca) →
  (∀ y, y ∈ ps → y ∉ pt) →
  tc ∈ pt →
  rebaseBranch changeRebaser s tc (Some th) w = (Ok (hd, chg, rc), w') →
  let sp := reverse ps in
  let tp := reverse pt in
  ∃ tci cs ss nbi nb sp' trp',
    findIndex tc tp = Some tci ∧
    derefAll (heap w) sp = Ok cs ∧
    scanTarget (heap w) tci 0 tp (list_to_set (revision <$> cs)) tci = Ok (ss, nbi) ∧
    tp !! nbi = Some nb ∧
    stripLoop (heap w) (length sp `min` length (take (S nbi) tp)) sp
      (take (S nbi) tp) = Ok (sp', trp') ∧
    newBase rc = nb ∧ deletedSourceCommits rc = sp ∧
    ((trp' = [] ∧ chg = None ∧
      reparentLoop sp' nb (take (S nbi) tp) w = (Ok (newSourceCommits rc), w'))
     ∨ (trp' ≠ [] ∧
        ∃ inv trp'' w1,
          rebaseLoop changeRebaser ss sp' nb [] trp' (take (S nbi) tp) w
            = (Ok (hd, inv, trp'', newSourceCommits rc), w1) ∧
          heap w' = heap w1)).
Proof.
  intros Hs Ht Hd Htc H.
  pose proof (findCommonAncestor_paths _ _ _ _ _ _ _ Hs Ht Hd) as E.
  apply rebaseBranch_inv in H as (anc' & osp & otp & E' & H).
  simpl in E'. rewrite E in E'. injection E' as <- <- <-. simpl in H.
  destruct H as [(Hnone & _)
                |(tci & cs & ss & nbi & nb & sp' & trp' & Hidx & Hcs & Hscan & Hnb & Hstrip & H)].
  { apply findIndex_None_inv in Hnone. rewrite elem_of_reverse in Hnone. done. }
  exists tci, cs, ss, nbi, nb, sp', trp'. simpl.
  destruct H as [(-> & -> & nsc & Hloop & -> & ->)
                |(Hne & inv & trp'' & nsc & w1 & over & sc & Hloop & Hover & Hcomp & -> & ->)];
    simpl; split_and!; auto.
  right. split; [done|]. exists inv, trp'', w1. split; [done|].
  by apply logCall_inv in Hcomp as [_ ->].
Qed.

(** X7. When the revision tag of [targetCommit] is carried by no commit of
    the source path, the scan stops at [targetCommit]: the [newBase] of a
    successful rebase is [targetCommit] itself, whatever tags later target
    commits share with the source branch. *)
Theorem newBase_is_target_when_its_tag_is_unmatched w (sourceHead targetCommit targetHead : ref)
    ps pt anc ca c hd chg rc w' :
  ancestry (heap w) (Some sourceHead) (ps ++ anc :: ca) →
  ancestry (heap w) (Some targetHead) (pt ++ anc :: ca) →
  (∀ y, y ∈ ps → y ∉ pt) →
  targetCommit ∈ pt →
  heap w !! targetCommit = Some c →
  (∀ r c', r ∈ ps → heap w !! r = Some c' → revision c' ≠ revision c) →
  rebaseBranch changeRebaser sourceHead targetCommit (Some targetHead) w
    = (Ok (hd, chg, rc), w') →
  newBase rc = targetCommit.
Proof.
  intros Hs Ht Hd Htc Hc Htags H.
  destruct (rebaseBranch_found_inv _ _ _ _ _ _ _ _ _ _ _ _ Hs Ht Hd Htc H)
    as (tci & cs & ss & nbi & nb & sp' & trp' & Hidx & Hcs & Hscan & Hnb & _ & -> & _).
  apply findIndex_Some in Hidx.
  assert (nbi = tci) as ->.
  { eapply (scanTarget_stops _ tci c); [|by rewrite Nat.sub_0_r|by apply deref_Some| |done]; [lia|].
    rewrite elem_of_list_to_set, list_elem_of_fmap. intros (c' & Hrev & Hin).
    destruct (derefAll_elem _ _ _ _ Hcs Hin) as (r & Hr & Hr').
    rewrite elem_of_reverse in Hr. by apply (Htags r c'). }
  rewrite Hidx in Hnb. by injection Hnb.
Qed.

(** X8. Whenever [targetCommit] is on the target path, the [newBase] of a
    successful rebase is a commit of the target path as well: it lies
    strictly after the common ancestor and at or before [targetHead]. *)
Theorem newBase_on_target_path w (sourceHead targetCommit targetHead : ref)
    ps pt anc ca hd chg rc w' :
  ancestry (heap w) (Some sourceHead) (ps ++ anc :: ca) →
  ancestry (heap w) (Some targetHead) (pt ++ anc :: ca) →
  (∀ y, y ∈ ps → y ∉ pt) →
  targetCommit ∈ pt →
  rebaseBranch changeRebaser sourceHead targetCommit (Some targetHead) w
    = (Ok (hd, chg, rc), w') →
  newBase rc ∈ pt.
Proof.
  intros Hs Ht Hd Htc H.
  destruct (rebaseBranch_found_inv _ _ _ _ _ _ _ _ _ _ _ _ Hs Ht Hd Htc H)
    as (tci & cs & ss & nbi & nb & sp' & trp' & _ & _ & _ & Hnb & _ & -> & _).
  apply elem_of_reverse. by eapply list_elem_of_lookup_2.
Qed.

(** X9. Whenever [targetCommit] is on the target path, a successful
    rebase reports as [deletedSourceCommits] the whole original source path,
    from the commit after the old common ancestor to [sourceHead], in that
    order, including the commits that were cancelled out or reparented. *)
Theorem deletedSourceCommits_is_source_path w (sourceHead targetCommit targetHead : ref)
    ps pt anc ca hd chg rc w' :
  ancestry (heap w) (Some sourceHead) (ps ++ anc :: ca) →
  ancestry (heap w) (Some targetHead) (pt ++ anc :: ca) →
  (∀ y, y ∈ ps → y ∉ pt) →
  targetCommit ∈ pt →
  rebaseBranch changeRebaser sourceHead targetCommit (Some targetHead) w
    = (Ok (hd, chg, rc), w') →
  deletedSourceCommits rc = reverse ps.
Proof.
  intros Hs Ht Hd Htc H.
  by destruct (rebaseBranch_found_inv _ _ _ _ _ _ _ _ _ _ _ _ Hs Ht Hd Htc H)
    as (tci & cs & ss & nbi & nb & sp' & trp' & _ & _ & _ & _ & _ & _ & -> & _).
Qed.

(** X11. Rebasing a branch that has no commit of its own (the source head
    is the common ancestor) onto a commit of the target path mints nothing
    and calls neither [rebase] nor [invert]: the head returned and [newBase]
    are [targetCommit], the new source commits are the target commits from
    after the ancestor up to [targetCommit], and the cumulative change is
    [compose] of exactly those commits. *)
Theorem rebase_of_empty_branch w (sourceHead targetCommit targetHead : ref) pt ca :
  ancestry (heap w) (Some targetHead) (pt ++ sourceHead :: ca) →
  targetCommit ∈ pt →
  ∃ tci ct,
    reverse pt !! tci = Some targetCommit ∧
    derefAll (heap w) (take (S tci) (reverse pt)) = Ok ct ∧
    rebaseBranch changeRebaser sourceHead targetCommit (Some targetHead) w =
      (match compose changeRebaser (asTagged <$> ct) with
       | Some sc =>
         Ok (targetCommit, Some sc,
             {| newBase := targetCommit; deletedSourceCommits := [];
                newSourceCommits := take (S tci) (reverse pt) |})
       | None => Err AlgebraException
       end,
       {| heap := heap w; tagCounter := tagCounter w;
          calls := calls w ++ [CallCompose (asTagged <$> ct)] |}).
Proof.
  intros Ht Htc.
  assert (Hs : ancestry (heap w) (Some sourceHead) ([] ++ sourceHead :: ca)).
  { by apply ancestry_suffix in Ht. }
  assert (Hd : ∀ y, y ∈ [] → y ∉ pt) by (intros y Hy; by apply elem_of_nil in Hy).
  pose proof (findCommonAncestor_paths _ _ _ _ _ _ _ Hs Ht Hd) as E.
  destruct (findIndex_elem targetCommit (reverse pt)) as [tci Hidx].
  { by apply elem_of_reverse. }
  pose proof (findIndex_Some _ _ _ Hidx) as Htci.
  destruct (derefAll_bound (heap w) (reverse pt)) as [cta Hcta].
  { intros x Hx. rewrite elem_of_reverse in Hx. apply (ancestry_bound _ _ _ x Ht).
    apply elem_of_app. by left. }
  destruct (derefAll_bound (heap w) (take (S tci) (reverse pt))) as [ct Hct].
  { intros x Hx. apply subseteq_take in Hx. rewrite elem_of_reverse in Hx.
    apply (ancestry_bound _ _ _ x Ht). apply elem_of_app. by left. }
  exists tci, ct. split_and!; [done|done|].
  pose proof (lookup_lt_Some _ _ _ Htci) as Hlt.
  assert (Hscan : scanTarget (heap w) tci 0 (reverse pt)
                    (list_to_set (revision <$> ([] : list (GraphCommit TChange)))) tci
                  = Ok (∅, tci)).
  { apply (scanTarget_empty _ _ _ cta); [done|lia|lia]. }
  pose proof (rebaseBranch_source_prefix changeRebaser w sourceHead targetCommit targetHead
                sourceHead (reverse []) (reverse pt) tci [] ∅ tci targetCommit ct
                E Hidx eq_refl Hscan Htci Hct eq_refl) as Hrun.
  simpl in Hrun. rewrite drop_0 in Hrun. apply Hrun.
  apply derefAll_lookup in Hct as [-> _]. rewrite length_take. lia.
Qed.

End Report.

(** ** Which revisions survive a rebase *)

Section Revisions.
Context {TChange : Type} (changeRebaser : ChangeRebaser TChange).
Implicit Types (w : World TChange) (sp tp trp : list ref).

(** The commits the loop appends copy revision and session of the source
    commits that are still in the source set, in order. *)
Lemma rebaseLoop_copies ss : ∀ sp cs nh inv trp nsc w nh' inv' trp' nsc' w',
  derefAll (heap w) sp = Ok cs →
  rebaseLoop changeRebaser ss sp nh inv trp nsc w = (Ok (nh', inv', trp', nsc'), w') →
  ∃ minted mc,
    nsc' = nsc ++ minted ∧
    derefAll (heap w') minted = Ok mc ∧
    (λ c, (revision c, sessionId c)) <$> mc
      = (λ c, (revision c, sessionId c)) <$> filter (λ c, revision c ∈ ss) cs.
Proof.
  induction sp as [|r sp IH]; intros cs nh inv trp nsc w nh' inv' trp' nsc' w' Hcs H.
  - simpl in *. injection Hcs as <-. apply mret_inv in H as [[= -> -> -> ->] ->].
    exists [], []. by rewrite app_nil_r.
  - pose proof (frames_rebaseLoop changeRebaser ss (r :: sp) nh inv trp nsc w) as Hfr.
    rewrite H in Hfr. simpl in Hfr.
    apply rebaseLoop_cons_inv in H
      as (c & x & nh1 & trp1 & nsc1 & h1 & calls1 & Hc & Hx & H & Hcase).
    simpl in Hcs. rewrite Hc in Hcs. simpl in Hcs.
    destruct (derefAll (heap w) sp) as [cs'|] eqn:Hcs'; [|done].
    injection Hcs as <-.
    assert (Hp1 : heap w `prefix_of` h1).
    { destruct Hcase as [(_&_&_&_&->&_)|(_&?&?&_&_&_&->&_)]; [done|by apply prefix_app_r]. }
    pose proof (frames_rebaseLoop changeRebaser ss sp nh1
                  (tagRollbackInverse x (tagCounter w) (revision c) :: inv) trp1 nsc1
                  {| heap := h1; tagCounter := S (tagCounter w);
                     calls := calls1 ++ [CallInvert (asTagged c) true] |}) as Hpre.
    rewrite H in Hpre. simpl in Hpre.
    eapply IH in H as (minted & mc & -> & Hmc & Hmeta);
      [|simpl; by eapply derefAll_mono].
    simpl in Hmc.
    destruct Hcase as [(Hnin & -> & -> & -> & -> & ->)
                      |(Hin & change' & rc & -> & -> & -> & -> & -> & Hrc)].
    + exists minted, mc. split_and!; auto.
      rewrite filter_cons_False by done. done.
    + exists (length (heap w) :: minted),
        ({| revision := revision c; sessionId := sessionId c; change := change';
            parent := Some nh |} :: mc).
      split_and!.
      * by rewrite <- app_assoc.
      * simpl. erewrite deref_Some, Hmc; [done|].
        eapply prefix_lookup_Some; [|done].
        rewrite lookup_app_r by lia. by rewrite Nat.sub_diag.
      * rewrite filter_cons_True by done.
        change ((revision c, sessionId c) :: ((λ c0, (revision c0, sessionId c0)) <$> mc)
                = (revision c, sessionId c)
                  :: ((λ c0, (revision c0, sessionId c0))
                        <$> filter (λ c0, revision c0 ∈ ss) cs')).
        by f_equal.
Qed.

(** X10. The ordinary rebase.  When no commit of the source path shares
    its revision tag with a commit of the target path, nothing is cancelled
    or stripped: [newBase] is [targetCommit], and [newSourceCommits] is the
    target path up to [targetCommit] followed by one minted commit for each
    source commit, in order, with the same revision tag and session id. *)
Theorem rebase_without_shared_tags w (sourceHead targetCommit targetHead : ref)
    ps pt anc ca cs hd chg rc w' :
  ancestry (heap w) (Some sourceHead) (ps ++ anc :: ca) →
  ancestry (heap w) (Some targetHead) (pt ++ anc :: ca) →
  (∀ y, y ∈ ps → y ∉ pt) →
  targetCommit ∈ pt →
  derefAll (heap w) (reverse ps) = Ok cs →
  (∀ r r' c c', r ∈ ps → r' ∈ pt →
     heap w !! r = Some c → heap w !! r' = Some c' → revision c ≠ revision c') →
  rebaseBranch changeRebaser sourceHead targetCommit (Some targetHead) w
    = (Ok (hd, chg, rc), w') →
  newBase rc = targetCommit ∧
  ∃ tci minted mc,
    reverse pt !! tci = Some targetCommit ∧
    newSourceCommits rc = take (S tci) (reverse pt) ++ minted ∧
    derefAll (heap w') minted = Ok mc ∧
    (λ c, (revision c, sessionId c)) <$> mc = (λ c, (revision c, sessionId c)) <$> cs.
Proof.
  intros Hs Ht Hd Htc Hcs Htags H.
  destruct (rebaseBranch_found_inv _ _ _ _ _ _ _ _ _ _ _ _ _ Hs Ht Hd Htc H)
    as (tci & cs0 & ss & nbi & nb & sp' & trp' & Hidx & Hcs0 & Hscan & Hnb & Hstrip
        & Enb & _ & Hpath).
  rewrite Hcs in Hcs0. injection Hcs0 as <-.
  pose proof (findIndex_Some _ _ _ Hidx) as Htci.
  assert (Hsrc : ∀ c, c ∈ cs → ∃ r, r ∈ ps ∧ heap w !! r = Some c).
  { intros c Hc. destruct (derefAll_elem _ _ _ _ Hcs Hc) as (r & Hr & Hr').
    rewrite elem_of_reverse in Hr. eauto. }
  assert (Htp : ∀ i r, reverse pt !! i = Some r → r ∈ pt).
  { intros i r Hr. apply elem_of_reverse. by eapply list_elem_of_lookup_2. }
  assert (∃ ctc, heap w !! targetCommit = Some ctc) as [ctc Hctc].
  { apply (ancestry_bound _ _ _ targetCommit Ht). apply elem_of_app. by left. }
  assert (nbi = tci) as ->.
  { eapply (scanTarget_stops _ tci ctc); [|by rewrite Nat.sub_0_r|by apply deref_Some| |done]; [lia|].
    rewrite elem_of_list_to_set, list_elem_of_fmap. intros (c' & Hrev & Hin).
    destruct (Hsrc c' Hin) as (r & Hr & Hr').
    by apply (Htags r targetCommit c' ctc). }
  rewrite Htci in Hnb. injection Hnb as <-.
  split; [done|].
  (* the scan removes nothing *)
  assert (Hss : ∀ c, c ∈ cs → revision c ∈ ss).
  { intros c Hc. destruct (decide (revision c ∈ ss)) as [|Hnin]; [done|]. exfalso.
    destruct (scanTarget_removed _ _ _ _ _ _ _ _ (revision c) Hscan) as (j & r & c' & _ & _ & Hr & Hc' & Hrev);
      [|done|].
    { rewrite elem_of_list_to_set, list_elem_of_fmap. eauto. }
    rewrite Nat.sub_0_r in Hr. destruct (Hsrc c Hc) as (r0 & Hr0 & Hr0').
    apply deref_inv in Hc'. symmetry in Hrev.
    by apply (Htags r0 r c c' Hr0 (Htp _ _ Hr) Hr0' Hc'). }
  (* and nothing is stripped *)
  destruct (stripLoop_tags _ _ _ _ _ _ Hstrip) as (k & c1 & c2 & -> & -> & H1 & H2 & Hrev).
  assert (Hk : take k (reverse ps) = []).
  { destruct (take k (reverse ps)) as [|s0 l1] eqn:E1; [done|]. exfalso.
    simpl in H1. destruct (deref (heap w) s0) as [x|] eqn:Ex; [|done]. simpl in H1.
    destruct (derefAll (heap w) l1) as [xs|]; [|done]. injection H1 as <-.
    destruct c2 as [|y c2]; [done|]. injection Hrev as Hxy _.
    assert (Hs0 : s0 ∈ ps).
    { apply elem_of_reverse. apply (subseteq_take k). rewrite E1. left. }
    destruct (derefAll_elem _ _ _ y H2) as (t0 & Ht0 & Ht0'); [left|].
    apply subseteq_take, subseteq_take in Ht0. rewrite elem_of_reverse in Ht0.
    apply deref_inv in Ex. by apply (Htags s0 t0 x y). }
  assert (c1 = []) as ->.
  { rewrite Hk in H1. by injection H1. }
  assert (Hk' : take k (take (S tci) (reverse pt)) = []).
  { destruct c2; [|done]. apply derefAll_lookup in H2 as [Hl _].
    by destruct (take k (take (S tci) (reverse pt))). }
  assert (Esp : drop k (reverse ps) = reverse ps).
  { rewrite <- (take_drop k (reverse ps)) at 2. by rewrite Hk. }
  assert (Etrp : drop k (take (S tci) (reverse pt)) = take (S tci) (reverse pt)).
  { rewrite <- (take_drop k (take (S tci) (reverse pt))) at 2. by rewrite Hk'. }
  rewrite Esp, Etrp in Hpath.
  destruct Hpath as [(Hnil & _)|(_ & inv & trp'' & w1 & Hloop & Hheap)].
  { rewrite (take_S_r _ _ _ Htci) in Hnil. by destruct (take tci (reverse pt)). }
  destruct (rebaseLoop_copies _ _ _ _ _ _ _ _ _ _ _ _ _ Hcs Hloop)
    as (minted & mc & Hnsc & Hmc & Hmeta).
  exists tci, minted, mc. rewrite Hheap. split_and!; auto.
  rewrite Hmeta. f_equal. clear -Hss.
  induction cs as [|c cs IH]; [done|].
  rewrite filter_cons_True by (apply Hss; left).
  f_equal. apply IH. intros c' Hc'. apply Hss. by right.
Qed.
(** X12. No revision tag is lost.  Whenever [targetCommit] is on the
    target path and the rebase succeeds, every commit of the original source
    path has its revision tag carried by some commit of [newSourceCommits]:
    by a minted copy if it was rebased or reparented, by the target commit
    that cancelled it otherwise. *)
Theorem every_source_tag_survives w (sourceHead targetCommit targetHead : ref)
    ps pt anc ca hd chg rc w' :
  ancestry (heap w) (Some sourceHead) (ps ++ anc :: ca) →
  ancestry (heap w) (Some targetHead) (pt ++ anc :: ca) →
  (∀ y, y ∈ ps → y ∉ pt) →
  targetCommit ∈ pt →
  rebaseBranch changeRebaser sourceHead targetCommit (Some targetHead) w
    = (Ok (hd, chg, rc), w') →
  ∀ r c, r ∈ ps → heap w !! r = Some c →
    ∃ r' c', r' ∈ newSourceCommits rc ∧ heap w' !! r' = Some c' ∧
      revision c' = revision c.
Proof.
  intros Hs Ht Hd Htc H r c Hr Hc.
  pose proof (frames_rebaseBranch changeRebaser sourceHead targetCommit (Some targetHead) w)
    as Hfr.
  rewrite H in Hfr. simpl in Hfr.
  destruct (rebaseBranch_found_inv _ _ _ _ _ _ _ _ _ _ _ _ _ Hs Ht Hd Htc H)
    as (tci & cs & ss & nbi & nb & sp' & trp' & Hidx & Hcs & Hscan & Hnb & Hstrip
        & Enb & _ & Hpath).
  set (tp := reverse pt) in *. set (sp := reverse ps) in *.
  (* the reused target commits are all reported *)
  assert (∃ m, newSourceCommits rc = take (S nbi) tp ++ m) as [m Hm].
  { destruct Hpath as [(_ & _ & Hloop)|(_ & inv & trp'' & w1 & Hloop & _)].
    - assert (Hl0 : linked (heap w) (take (S nbi) tp)).
      { apply ancestry_linked in Ht. rewrite reverse_app in Ht.
        apply linked_app_r in Ht. fold tp in Ht.
        rewrite <- (take_drop (S nbi) tp) in Ht. by apply linked_app_l in Ht. }
      by destruct (reparentLoop_linked _ _ _ _ _ _ Hloop Hl0) as (_ & Hex & _).
    - destruct (stripLoop_drop _ _ _ _ _ _ Hstrip) as (k & _ & _ & _ & Esp & _).
      pose proof (derefAll_drop _ _ _ k Hcs) as Hcs'. rewrite <- Esp in Hcs'.
      destruct (rebaseLoop_copies _ _ _ _ _ _ _ _ _ _ _ _ _ Hcs' Hloop)
        as (minted & mc & ? & _). eauto. }
  assert (Htarget : ∀ j r' c', j ≤ nbi → tp !! j = Some r' → heap w !! r' = Some c' →
            revision c' = revision c →
            ∃ r' c', r' ∈ newSourceCommits rc ∧ heap w' !! r' = Some c' ∧
              revision c' = revision c).
  { intros j r' c' Hj Hr' Hc' Hrev. exists r', c'. split_and!; [|by eapply prefix_lookup_Some|done].
    rewrite Hm. apply elem_of_app. left. apply list_elem_of_lookup. exists j.
    rewrite lookup_take_lt by lia. done. }
  destruct (stripLoop_tags _ _ _ _ _ _ Hstrip) as (k & c1 & c2 & Esp & Etrp & H1 & H2 & Hrev).
  assert (Hin : r ∈ take k sp ++ drop k sp).
  { rewrite take_drop. unfold sp. by apply elem_of_reverse. }
  apply elem_of_app in Hin as [Hin|Hin].
  - (* stripped: a target commit with the same tag stands at the same place *)
    apply list_elem_of_lookup in Hin as [i Hi].
    pose proof (proj1 (derefAll_lookup _ _ _) H1) as [L1 Hl1].
    pose proof (proj1 (derefAll_lookup _ _ _) H2) as [L2 Hl2].
    pose proof (Hl1 _ _ Hi) as Hci. rewrite Hc in Hci. symmetry in Hci.
    assert (∃ c', c2 !! i = Some c' ∧ revision c' = revision c) as (c' & Hc' & Hrc').
    { pose proof (f_equal (λ l, l !! i) Hrev) as Hri. simpl in Hri.
      rewrite !list_lookup_fmap, Hci in Hri. simpl in Hri.
      destruct (c2 !! i) as [c'|]; [|done]. injection Hri as Hri. eauto. }
    destruct (lookup_lt_is_Some_2 (take k (take (S nbi) tp)) i) as [r' Hr'].
    { apply lookup_lt_Some in Hc'. lia. }
    pose proof (Hl2 _ _ Hr') as Hh. rewrite Hc' in Hh.
    assert (Hi' : i < k) by (apply lookup_lt_Some in Hr'; rewrite length_take in Hr'; lia).
    rewrite lookup_take_lt in Hr' by done.
    assert (Hi'' : i < S nbi).
    { apply lookup_lt_Some in Hr'. rewrite length_take in Hr'. lia. }
    rewrite lookup_take_lt in Hr' by done.
    apply (Htarget i r' c'); [lia|done|done|done].
  - rewrite <- Esp in Hin.
    pose proof (derefAll_drop _ _ _ k Hcs) as Hcs'. rewrite <- Esp in Hcs'.
    assert (Hcin : c ∈ drop k cs).
    { destruct (derefAll_elem_inv _ _ _ _ Hcs' Hin) as (c0 & Hc0 & Hc0').
      rewrite Hc in Hc0'. by injection Hc0' as ->. }
    destruct Hpath as [(_ & _ & Hloop)|(_ & inv & trp'' & w1 & Hloop & Hheap)].
    + (* reparented *)
      rewrite (reparentLoop_spec _ _ _ _ _ Hcs') in Hloop.
      injection Hloop as Hnsc Hw'.
      apply list_elem_of_lookup in Hcin as [i Hi].
      exists (length (heap w) + i). eexists. split_and!.
      * rewrite <- Hnsc. apply elem_of_app. right. apply elem_of_seq.
        apply lookup_lt_Some in Hi.
        apply derefAll_lookup in Hcs' as [Hl _]. lia.
      * rewrite <- Hw'. simpl. rewrite lookup_app_r by lia.
        replace (length (heap w) + i - length (heap w)) with i by lia.
        by apply reparented_lookup.
      * done.
    + destruct (decide (revision c ∈ ss)) as [Hss|Hss].
      * (* rebased *)
        destruct (rebaseLoop_copies _ _ _ _ _ _ _ _ _ _ _ _ _ Hcs' Hloop)
          as (minted & mc & Hnsc & Hmc & Hmeta).
        assert (Hex : (revision c, sessionId c)
                      ∈ (λ c0, (revision c0, sessionId c0)) <$> mc).
        { rewrite Hmeta. apply list_elem_of_fmap. exists c. split; [done|].
          by apply list_elem_of_filter. }
        apply list_elem_of_fmap in Hex as (c' & Heq & Hc').
        injection Heq as Heq _.
        destruct (derefAll_elem _ _ _ _ Hmc Hc') as (r' & Hr' & Hr'').
        exists r', c'. rewrite Hheap. split_and!; [|done|done].
        rewrite Hnsc. apply elem_of_app. by right.
      * (* cancelled *)
        destruct (scanTarget_removed _ _ _ _ _ _ _ _ (revision c) Hscan)
          as (j & r' & c' & Hj & _ & Hr' & Hc' & Hrc'); [|done|].
        { rewrite elem_of_list_to_set, list_elem_of_fmap. exists c. split; [done|].
          apply (subseteq_drop k). done. }
        rewrite Nat.sub_0_r in Hr'. apply deref_inv in Hc'.
        by apply (Htarget j r' c').
Qed.

End Revisions.

(** ** [rebaseChange] and [rebaseChangeOverChanges] *)

Section RebaseChange.
Context {TChange : Type} (changeRebaser : ChangeRebaser TChange).
Implicit Types (w : World TChange) (sp tp trp : list ref).

Lemma bind_ext {A B} (m : M A) (f g : A → M B) w :
  (∀ a w1, f a w1 = g a w1) → (m ≫= f) w = (m ≫= g) w.
Proof. intros Hfg. unfold mbind, M_bind. destruct (m w) as [[a|e] w1]; auto. Qed.

(** X16. Rebasing a change over a concatenation of changes is rebasing it
    over the first part and then rebasing the outcome over the second part:
    same result, same calls in the same order, and a failure in the first
    part stops everything. *)
Theorem rebaseChangeOverChanges_app (c : TChange) (l1 l2 : list (TaggedChange TChange)) w :
  rebaseChangeOverChanges changeRebaser c (l1 ++ l2) w
  = (rebaseChangeOverChanges changeRebaser c l1
       ≫= λ c', rebaseChangeOverChanges changeRebaser c' l2) w.
Proof.
  revert c w. induction l1 as [|b l1 IH]; intros c w; simpl.
  - done.
  - rewrite bind_assoc. apply bind_ext. intros a w1. apply IH.
Qed.

Lemma derefAll_reverse (h : Heap TChange) l cs :
  derefAll h l = Ok cs → derefAll h (reverse l) = Ok (reverse cs).
Proof.
  revert cs. induction l as [|r l IH]; intros cs; simpl.
  - by intros [= <-].
  - destruct (deref h r) as [c|] eqn:Er; [|done]. simpl.
    destruct (derefAll h l) as [cs'|] eqn:El; [|done]. simpl.
    intros [= <-]. rewrite !reverse_cons.
    apply derefAll_app; [by apply IH|]. simpl. by rewrite Er.
Qed.

(** The [reduceRight] of [rebaseChange] with every call of the algebra. *)
Lemma rebaseOverInverses_trace : ∀ cs c w c' w',
  rebaseOverInverses changeRebaser cs c w = (Ok c', w') →
  ∃ xs,
    Forall2 (λ cm x, invert changeRebaser (asTagged cm) true = Some x) cs xs ∧
    foldRebase changeRebaser c (rollbacks (tagCounter w) cs xs) = Some c' ∧
    w' = {| heap := heap w; tagCounter := tagCounter w + length cs;
            calls := calls w ++
              interleave ((λ cm, CallInvert (asTagged cm) true) <$> cs)
                (rebaseCalls changeRebaser c (rollbacks (tagCounter w) cs xs)) |}.
Proof.
  induction cs as [|b cs IH]; intros c w c' w'; simpl.
  - intros H. apply mret_inv in H as [-> ->].
    exists []. rewrite app_nil_r, Nat.add_0_r. split_and!; [constructor|done|by destruct w].
  - intros H. apply bind_inv in H as (i & w1 & H1 & H).
    apply inverseFromCommit_inv in H1 as (x & Hx & -> & ->).
    apply bind_inv in H as (a & w2 & H2 & H).
    apply logCall_inv in H2 as [Ha ->]. simpl in H, Ha.
    apply IH in H as (xs & Hxs & Hfold & ->). simpl in *.
    exists (x :: xs). simpl. rewrite Ha.
    split_and!; [by constructor|done|].
    rewrite <- !app_assoc. simpl. f_equal. lia.
Qed.

(** X14. The sandwich.  A successful [rebaseChange] mints no commit.  It
    visits the commits of the source path from [sourceHead] back to the
    commit after the ancestor: for each one it calls [invert], as a
    rollback, and rebases the change obtained so far over the rollback
    inverse this gives, tagged with a fresh tag and the revision it rolls
    back.  The change [cRef] this ends with is then rebased over the commits
    of the target path from the one after the ancestor to [targetHead], and
    the outcome of that is the change returned.  The calls of the algebra
    are exactly these, in this order. *)
Theorem rebaseChange_sandwich w (c c' : TChange) (sourceHead targetHead : ref)
    ps pt anc ca cps ctp w' :
  ancestry (heap w) (Some sourceHead) (ps ++ anc :: ca) →
  ancestry (heap w) (Some targetHead) (pt ++ anc :: ca) →
  (∀ y, y ∈ ps → y ∉ pt) →
  derefAll (heap w) ps = Ok cps →
  derefAll (heap w) (reverse pt) = Ok ctp →
  rebaseChange changeRebaser c sourceHead targetHead w = (Ok c', w') →
  ∃ xs cRef,
    Forall2 (λ cm x, invert changeRebaser (asTagged cm) true = Some x) cps xs ∧
    let inverses := rollbacks (tagCounter w) cps xs in
    foldRebase changeRebaser c inverses = Some cRef ∧
    foldRebase changeRebaser cRef (asTagged <$> ctp) = Some c' ∧
    w' = {| heap := heap w; tagCounter := tagCounter w + length cps;
            calls := calls w ++
              interleave ((λ cm, CallInvert (asTagged cm) true) <$> cps)
                (rebaseCalls changeRebaser c inverses) ++
              rebaseCalls changeRebaser cRef (asTagged <$> ctp) |}.
Proof.
  intros Hs Ht Hd Hcps Hctp H.
  pose proof (findCommonAncestor_paths _ _ _ _ _ _ _ Hs Ht Hd) as E.
  unfold rebaseChange in H.
  apply bind_inv in H as ([[a osp] otp] & w1 & H1 & H).
  apply liftR_inv in H1 as [H1 ->]. rewrite E in H1. injection H1 as <- <- <-.
  apply bind_inv in H as (? & w1 & H2 & H). apply liftR_inv in H2 as [_ ->].
  apply bind_inv in H as (scs & w1 & H3 & H). apply liftR_inv in H3 as [H3 ->].
  simpl in H3. rewrite (derefAll_reverse _ _ _ Hcps) in H3. injection H3 as <-.
  rewrite reverse_involutive in H.
  apply bind_inv in H as (c1 & w1 & H4 & H).
  apply rebaseOverInverses_trace in H4 as (xs & Hxs & Hfold & ->).
  apply bind_inv in H as (tcs & w2 & H5 & H). apply liftR_inv in H5 as [H5 ->].
  simpl in H5. rewrite Hctp in H5. injection H5 as <-.
  apply rebaseChangeOverChanges_trace_inv in H as [Hfold2 ->]. simpl.
  exists xs, c1. split_and!; [done|done|done|].
  by rewrite <- app_assoc.
Qed.

End RebaseChange.

(** ** With an algebra that never throws the calls return *)

Section Returns.
Context {TChange : Type} (changeRebaser : ChangeRebaser TChange).
Hypothesis total : neverThrows changeRebaser.
Implicit Types (w : World TChange) (sp tp trp nsc : list ref).

Lemma rebaseChangeOverChanges_returns : ∀ overs (c : TChange) w,
  ∃ c' rc, rebaseChangeOverChanges changeRebaser c overs w
           = (Ok c', {| heap := heap w; tagCounter := tagCounter w;
                        calls := calls w ++ rc |}).
Proof using total.
  induction overs as [|b rest IH]; intros c w; simpl.
  - exists c, []. rewrite app_nil_r. by destruct w.
  - destruct (proj1 total c b) as [a Ha].
    destruct (IH a {| heap := heap w; tagCounter := tagCounter w;
                      calls := calls w ++ [CallRebase c b] |}) as (c' & rc & Hrun).
    exists c', (CallRebase c b :: rc).
    erewrite bind_Ok; [|unfold callRebase, logCall; rewrite Ha; reflexivity].
    rewrite Hrun. simpl. by rewrite <- app_assoc.
Qed.

Lemma inverseFromCommit_returns (c : GraphCommit TChange) w :
  ∃ i, inverseFromCommit changeRebaser c w
       = (Ok i, {| heap := heap w; tagCounter := S (tagCounter w);
                   calls := calls w ++ [CallInvert (asTagged c) true] |}).
Proof using total.
  destruct (proj1 (proj2 total) (asTagged c) true) as [x Hx].
  exists (tagRollbackInverse x (tagCounter w) (revision c)).
  unfold inverseFromCommit.
  erewrite bind_Ok; [|unfold callInvert, logCall; rewrite Hx; reflexivity].
  erewrite bind_Ok; [|reflexivity]. done.
Qed.

Lemma rebaseLoop_returns ss : ∀ sp nh inv trp nsc w,
  bound (heap w) sp → bound (heap w) trp →
  ∃ res w', rebaseLoop changeRebaser ss sp nh inv trp nsc w = (Ok res, w')
            ∧ bound (heap w') res.1.2.
Proof using total.
  induction sp as [|r sp IH]; intros nh inv trp nsc w Hsp Htrp.
  - simpl. by eexists _, _.
  - assert (Hsp' : bound (heap w) sp) by (intros x Hx; apply Hsp; by right).
    destruct (Hsp r) as [c Hc]; [left|].
    assert (Hstep : ∀ nh1 trp1 nsc1 w1,
      heap w `prefix_of` heap w1 → bound (heap w1) trp1 →
      ∃ res w', (inverseFromCommit changeRebaser c ≫= λ i,
                   rebaseLoop changeRebaser ss sp nh1 (i :: inv) trp1 nsc1) w1
                = (Ok res, w') ∧ bound (heap w') res.1.2).
    { intros nh1 trp1 nsc1 w1 Hp Hb.
      destruct (inverseFromCommit_returns c w1) as [i Hi].
      erewrite bind_Ok; [|exact Hi].
      apply IH; simpl; [by eapply bound_mono|done]. }
    simpl. erewrite bind_Ok; [|apply liftR_Ok; by apply deref_Some].
    destruct (decide (revision c ∈ ss)).
    + destruct (bound_derefAll _ _ Htrp) as [over Hover].
      rewrite !bind_assoc.
      erewrite bind_Ok; [|by apply liftR_Ok]. rewrite ?bind_assoc.
      destruct (rebaseChangeOverChanges_returns (inv ++ (asTagged <$> over)) (change c) w)
        as (c' & rc & Er).
      erewrite bind_Ok; [|exact Er].
      rewrite ?bind_assoc.
      erewrite bind_Ok; [|reflexivity]. rewrite ?bind_assoc.
      erewrite bind_Ok; [|reflexivity]. rewrite ?bind_assoc.
      erewrite bind_Ok; [|reflexivity]. cbv iota beta.
      apply Hstep; simpl.
      * rewrite <- app_assoc. by apply prefix_app_r.
      * intros x [Hx| ->%list_elem_of_singleton]%elem_of_app.
        -- destruct (Htrp x Hx) as [cx Hcx]. exists cx.
           eapply prefix_lookup_Some; [done|].
           rewrite <- app_assoc. by apply prefix_app_r.
        -- apply lookup_lt_is_Some. rewrite !length_app. simpl. lia.
    + erewrite bind_Ok; [|reflexivity]. cbv iota beta. by apply Hstep.
Qed.

(** X13. With an algebra that never throws, [rebaseBranch] on related
    branches with finite histories and a [targetCommit] that lies on the
    branch of [targetHead] always returns a result: no assertion fails and
    every loop ends. *)
Theorem rebaseBranch_returns w (sourceHead targetCommit targetHead : ref)
    ps pt anc ca :
  ancestry (heap w) (Some sourceHead) (ps ++ anc :: ca) →
  ancestry (heap w) (Some targetHead) (pt ++ anc :: ca) →
  (∀ y, y ∈ ps → y ∉ pt) →
  targetCommit ∈ pt ++ anc :: ca →
  ∃ hd chg rc w',
    rebaseBranch changeRebaser sourceHead targetCommit (Some targetHead) w
    = (Ok (hd, chg, rc), w').
Proof using total.
  intros Hs Ht Hd Htc.
  pose proof (findCommonAncestor_paths _ _ _ _ _ _ _ Hs Ht Hd) as E.
  assert (Bs : bound (heap w) (reverse ps)).
  { intros x Hx. rewrite elem_of_reverse in Hx. apply (ancestry_bound _ _ _ x Hs).
    apply elem_of_app. by left. }
  assert (Bt : bound (heap w) (reverse pt)).
  { intros x Hx. rewrite elem_of_reverse in Hx. apply (ancestry_bound _ _ _ x Ht).
    apply elem_of_app. by left. }
  unfold rebaseBranch. simpl.
  erewrite bind_Ok; [|by apply liftR_Ok]. simpl.
  destruct (findIndex targetCommit (reverse pt)) as [tci|] eqn:Hidx.
  - destruct (bound_derefAll _ _ Bs) as [cs Hcs].
    erewrite bind_Ok; [|by apply liftR_Ok].
    destruct (bound_derefAll _ _ Bt) as [ct Hct].
    destruct (scanTarget_total (heap w) tci (reverse pt) ct 0
                (list_to_set (revision <$> cs)) tci Hct) as [[ss nbi] Hscan].
    erewrite bind_Ok; [|by apply liftR_Ok]. simpl.
    destruct (lookup_lt_is_Some_2 (reverse pt) nbi) as [nb Hnb].
    { apply findIndex_Some, lookup_lt_Some in Hidx.
      apply scanTarget_bounds in Hscan as [_ Hb]. simpl in Hb. lia. }
    rewrite Hnb.
    assert (Btake : bound (heap w) (take (S nbi) (reverse pt))).
    { intros x Hx. apply Bt. by eapply subseteq_take. }
    destruct (bound_derefAll _ _ Btake) as [ctk Hctk].
    destruct (stripLoop_total (heap w)
                (length (reverse ps) `min` length (take (S nbi) (reverse pt)))
                (reverse ps) (take (S nbi) (reverse pt)) cs ctk Hcs Hctk)
      as [[sp' trp'] Hstrip]; [lia..|].
    erewrite bind_Ok; [|by apply liftR_Ok]. cbv iota beta.
    destruct (stripLoop_drop _ _ _ _ _ _ Hstrip) as (k & _ & _ & _ & Esp & Etrp).
    assert (Bsp' : bound (heap w) sp').
    { subst sp'. apply (derefAll_is_bound _ _ (drop k cs)). by apply derefAll_drop. }
    assert (Btrp' : bound (heap w) trp').
    { subst trp'. apply (derefAll_is_bound _ _ (drop k ctk)). by apply derefAll_drop. }
    destruct trp' as [|t trp'].
    + destruct (bound_derefAll _ _ Bsp') as [cs' Hcs'].
      erewrite bind_Ok; [|by apply reparentLoop_spec]. by eexists _, _, _, _.
    + destruct (rebaseLoop_returns ss sp' nb [] (t :: trp') (take (S nbi) (reverse pt)) w
                  Bsp' Btrp') as ([[[nh inv] trp''] nsc] & w1 & El & Hb).
      erewrite bind_Ok; [|exact El]. cbv iota beta.
      simpl in Hb. destruct (bound_derefAll _ _ Hb) as [over Hover].
      erewrite bind_Ok; [|by apply liftR_Ok].
      destruct (proj2 (proj2 total) (inv ++ (asTagged <$> over))) as [sc Hsc].
      erewrite bind_Ok; [|unfold callCompose, logCall; rewrite Hsc; reflexivity].
      by eexists _, _, _, _.
  - apply findIndex_None_inv in Hidx. rewrite elem_of_reverse in Hidx.
    apply elem_of_app in Htc as [Htc|Htc]; [done|].
    apply list_elem_of_split in Htc as (c1 & c2 & Hc).
    assert (E2 : findCommonAncestor (heap w) (Some targetCommit) None (Some targetHead) None
                 = Ok (Some targetCommit, None, None)).
    { apply (findCommonAncestor_split _ _ _ false false [] (pt ++ c1) targetCommit c2).
      - rewrite Hc, app_assoc in Ht. by apply ancestry_suffix in Ht.
      - by rewrite <- app_assoc, <- Hc.
      - intros y Hy. by apply elem_of_nil in Hy. }
    erewrite bind_Ok; [|by apply liftR_Ok]. simpl.
    erewrite bind_Ok; [|reflexivity]. by eexists _, _, _, _.
Qed.

Lemma rebaseOverInverses_returns : ∀ (cs : list (GraphCommit TChange)) (c : TChange) w,
  ∃ c' w', rebaseOverInverses changeRebaser cs c w = (Ok c', w') ∧ heap w' = heap w.
Proof using total.
  induction cs as [|b cs IH]; intros c w; simpl.
  - by eexists _, _.
  - destruct (inverseFromCommit_returns b w) as [i Hi].
    erewrite bind_Ok; [|exact Hi].
    destruct (proj1 total c i) as [a Ha].
    erewrite bind_Ok; [|unfold callRebase, logCall; rewrite Ha; reflexivity].
    destruct (IH a {| heap := heap w; tagCounter := S (tagCounter w);
                      calls := (calls w ++ [CallInvert (asTagged b) true])
                               ++ [CallRebase c i] |}) as (c' & w' & Hrun & Hh).
    exists c', w'. done.
Qed.

(** X15. With an algebra that never throws, [rebaseChange] between two
    related heads with finite histories always returns a change, and the
    store afterwards is the store before: it mints no commit. *)
Theorem rebaseChange_returns w (c : TChange) (sourceHead targetHead : ref)
    ps pt anc ca :
  ancestry (heap w) (Some sourceHead) (ps ++ anc :: ca) →
  ancestry (heap w) (Some targetHead) (pt ++ anc :: ca) →
  (∀ y, y ∈ ps → y ∉ pt) →
  ∃ c' w',
    rebaseChange changeRebaser c sourceHead targetHead w = (Ok c', w') ∧
    heap w' = heap w.
Proof using total.
  intros Hs Ht Hd.
  pose proof (findCommonAncestor_paths _ _ _ _ _ _ _ Hs Ht Hd) as E.
  unfold rebaseChange.
  erewrite bind_Ok; [|by apply liftR_Ok]. cbv iota beta.
  erewrite bind_Ok; [|reflexivity].
  destruct (derefAll_bound (heap w) (reverse ps)) as [scs Hscs].
  { intros x Hx. rewrite elem_of_reverse in Hx. apply (ancestry_bound _ _ _ x Hs).
    apply elem_of_app. by left. }
  erewrite bind_Ok; [|by apply liftR_Ok].
  destruct (rebaseOverInverses_returns (reverse scs) c w) as (c1 & w1 & H1 & Hh1).
  erewrite bind_Ok; [|exact H1].
  destruct (derefAll_bound (heap w1) (reverse pt)) as [tcs Htcs].
  { rewrite Hh1. intros x Hx. rewrite elem_of_reverse in Hx.
    apply (ancestry_bound _ _ _ x Ht). apply elem_of_app. by left. }
  erewrite bind_Ok; [|by apply liftR_Ok].
  destruct (rebaseChangeOverChanges_returns (asTagged <$> tcs) c1 w1) as (c' & rc & Hrun).
  eexists _, _. split; [exact Hrun|]. done.
Qed.

End Returns.

(** ** The further properties on concrete graphs *)

Ltac cases_tac :=
  intros;
  repeat match goal with
         | H : _ ∈ _ :: _ |- _ => apply elem_of_cons in H as [->|H]
         | H : _ ∈ [] |- _ => by apply elem_of_nil in H
         end;
  repeat match goal with
         | H : _ !! _ = Some _ |- _ => vm_compute in H; injection H as <-
         end;
  first [ done | simpl; congruence | by vm_compute ].

Lemma findAncestor_closest_witness :
  ancestry cancelHeap (Some 4) ([4; 3] ++ 0 :: []) ∧
  Nat.eqb 0 0 = true ∧
  (∀ y, y ∈ [4; 3] → Nat.eqb y 0 = false) ∧
  findAncestor cancelHeap (Some 4) (Some [7]) (λ r, Nat.eqb r 0)
    = Ok (Some 0, Some [3; 4; 7]).
Proof.
  assert (Hp : ∀ y, y ∈ [4; 3] → Nat.eqb y 0 = false) by cases_tac.
  assert (Ha : ancestry cancelHeap (Some 4) ([4; 3] ++ 0 :: [])) by chain_tac.
  split_and!; [assumption|reflexivity|assumption|].
  exact (findAncestor_closest cancelHeap (λ r, Nat.eqb r 0) (Some 4) (Some [7])
           [4; 3] 0 [] Ha eq_refl Hp).
Defined.

Lemma findAncestor_absent_witness :
  ancestry cancelHeap (Some 4) [4; 3; 0] ∧
  (∀ y, y ∈ [4; 3; 0] → Nat.eqb y 9 = false) ∧
  findAncestor cancelHeap (Some 4) (Some [7]) (λ r, Nat.eqb r 9) = Ok (None, Some []).
Proof.
  assert (Hp : ∀ y, y ∈ [4; 3; 0] → Nat.eqb y 9 = false) by cases_tac.
  assert (Ha : ancestry cancelHeap (Some 4) [4; 3; 0]) by chain_tac.
  split_and!; try assumption.
  exact (findAncestor_absent cancelHeap (λ r, Nat.eqb r 9) (Some 4) (Some [7])
           [4; 3; 0] Ha Hp).
Defined.

Lemma findCommonAncestor_symmetric_witness :
  ancestry cancelHeap (Some 4) [4; 3; 0] ∧ ancestry cancelHeap (Some 2) [2; 1; 0] ∧
  ∃ r pA pB,
    findCommonAncestor cancelHeap (Some 4) (Some []) (Some 2) (Some []) = Ok (r, pA, pB) ∧
    findCommonAncestor cancelHeap (Some 2) (Some []) (Some 4) (Some []) = Ok (r, pB, pA).
Proof.
  assert (Ha : ancestry cancelHeap (Some 4) [4; 3; 0]) by chain_tac.
  assert (Hb : ancestry cancelHeap (Some 2) [2; 1; 0]) by chain_tac.
  split_and!; try assumption.
  exact (findCommonAncestor_symmetric cancelHeap (Some 4) (Some 2) true true _ _ Ha Hb).
Defined.

Lemma findCommonAncestor_clears_paths_witness :
  ancestry unrelatedHeap (Some 0) [0] ∧ ancestry unrelatedHeap (Some 1) [1] ∧
  (∀ y, y ∈ [0] → y ∉ [1]) ∧
  findCommonAncestor unrelatedHeap (Some 0) (Some []) (Some 1) (Some [])
    = Ok (None, Some [], Some []).
Proof.
  assert (Ha : ancestry unrelatedHeap (Some 0) [0]) by chain_tac.
  assert (Hb : ancestry unrelatedHeap (Some 1) [1]) by chain_tac.
  assert (Hd : ∀ y, y ∈ [0] → y ∉ [1]) by apart_tac.
  split_and!; try assumption.
  exact (findCommonAncestor_clears_paths unrelatedHeap (Some 0) (Some 1) [0] [1] Ha Hb Hd).
Defined.

Lemma findCommonAncestor_of_ancestor_witness :
  ancestry cancelHeap (Some 4) ([4] ++ 3 :: [0]) ∧
  findCommonAncestor cancelHeap (Some 4) (Some []) (Some 3) (Some [])
    = Ok (Some 3, Some (reverse [4]), Some []).
Proof.
  assert (Ha : ancestry cancelHeap (Some 4) ([4] ++ 3 :: [0])) by chain_tac.
  split; [assumption|].
  exact (findCommonAncestor_of_ancestor cancelHeap 4 3 [4] [0] Ha).
Defined.

Lemma stripLoop_strips_common_prefix_witness :
  derefAll cancelHeap [3; 4]
    = Ok [mkCommit 1 "source" 5%Z (Some 0); mkCommit 3 "source" 3%Z (Some 3)] ∧
  derefAll cancelHeap [1; 2]
    = Ok [mkCommit 1 "target" 1%Z (Some 0); mkCommit 2 "target" 2%Z (Some 1)] ∧
  stripLoop cancelHeap (length [3; 4] `min` length [1; 2]) [3; 4] [1; 2]
    = Ok (drop (commonPrefix [1; 3] [1; 2]) [3; 4],
          drop (commonPrefix [1; 3] [1; 2]) [1; 2]).
Proof.
  split_and!; [reflexivity|reflexivity|].
  exact (stripLoop_strips_common_prefix cancelHeap [3; 4] [1; 2] _ _ eq_refl eq_refl).
Defined.

(** The run on [skipHeap]: rebasing [F] onto [C] with head [E]. *)
Lemma skip_run :
  ∃ w' : World Z,
    rebaseBranch counterAlgebra 7 2 (Some 4) (startWorld skipHeap)
    = (Ok (10, Some 2%Z,
           {| newBase := 2; deletedSourceCommits := [5; 6; 7];
              newSourceCommits := [1; 2; 8; 10] |}), w').
Proof. eexists. vm_compute. reflexivity. Qed.

Lemma newBase_is_target_when_its_tag_is_unmatched_witness :
  ancestry skipHeap (Some 7) ([7; 6; 5] ++ 0 :: []) ∧
  ancestry skipHeap (Some 4) ([4; 3; 2; 1] ++ 0 :: []) ∧
  (∀ y, y ∈ [7; 6; 5] → y ∉ [4; 3; 2; 1]) ∧
  2 ∈ [4; 3; 2; 1] ∧
  skipHeap !! 2 = Some (mkCommit 2 "target" 2%Z (Some 1)) ∧
  (∀ r c', r ∈ [7; 6; 5] → skipHeap !! r = Some c' → revision c' ≠ 2) ∧
  ∃ hd chg rc (w' : World Z),
    rebaseBranch counterAlgebra 7 2 (Some 4) (startWorld skipHeap) = (Ok (hd, chg, rc), w') ∧
    newBase rc = 2.
Proof.
  assert (Ht : ∀ r c', r ∈ [7; 6; 5] → skipHeap !! r = Some c' → revision c' ≠ 2)
    by cases_tac.
  assert (Ha : ancestry skipHeap (Some 7) ([7; 6; 5] ++ 0 :: [])) by chain_tac.
  assert (Hb : ancestry skipHeap (Some 4) ([4; 3; 2; 1] ++ 0 :: [])) by chain_tac.
  assert (Hd : ∀ y, y ∈ [7; 6; 5] → y ∉ [4; 3; 2; 1]) by apart_tac.
  assert (Hi : 2 ∈ [4; 3; 2; 1]) by member_tac.
  split_and!; try assumption; [reflexivity|].
  destruct skip_run as [w' Hrun].
  eexists _, _, _, w'. split; [exact Hrun|].
  exact (newBase_is_target_when_its_tag_is_unmatched counterAlgebra (startWorld skipHeap)
           7 2 4 [7; 6; 5] [4; 3; 2; 1] 0 [] _ _ _ _ _ Ha Hb Hd Hi eq_refl Ht Hrun).
Defined.

Lemma newBase_on_target_path_witness :
  ancestry cancelHeap (Some 4) ([4; 3] ++ 0 :: []) ∧
  ancestry cancelHeap (Some 2) ([2; 1] ++ 0 :: []) ∧
  (∀ y, y ∈ [4; 3] → y ∉ [2; 1]) ∧ 2 ∈ [2; 1] ∧
  ∃ hd chg rc (w' : World Z),
    rebaseBranch counterAlgebra 4 2 (Some 2) (startWorld cancelHeap) = (Ok (hd, chg, rc), w') ∧
    newBase rc ∈ [2; 1].
Proof.
  assert (Ha : ancestry cancelHeap (Some 4) ([4; 3] ++ 0 :: [])) by chain_tac.
  assert (Hb : ancestry cancelHeap (Some 2) ([2; 1] ++ 0 :: [])) by chain_tac.
  assert (Hd : ∀ y, y ∈ [4; 3] → y ∉ [2; 1]) by apart_tac.
  assert (Hi : 2 ∈ [2; 1]) by member_tac.
  split_and!; [exact Ha|exact Hb|exact Hd|exact Hi|].
  eexists _, _, _, _. split; [exact cancel_out_run|].
  exact (newBase_on_target_path counterAlgebra (startWorld cancelHeap) 4 2 2
           [4; 3] [2; 1] 0 [] _ _ _ _ Ha Hb Hd Hi cancel_out_run).
Defined.

Lemma deletedSourceCommits_is_source_path_witness :
  ancestry cancelHeap (Some 4) ([4; 3] ++ 0 :: []) ∧
  ancestry cancelHeap (Some 2) ([2; 1] ++ 0 :: []) ∧
  (∀ y, y ∈ [4; 3] → y ∉ [2; 1]) ∧ 2 ∈ [2; 1] ∧
  ∃ hd chg rc (w' : World Z),
    rebaseBranch counterAlgebra 4 2 (Some 2) (startWorld cancelHeap) = (Ok (hd, chg, rc), w') ∧
    deletedSourceCommits rc = reverse [4; 3].
Proof.
  assert (Ha : ancestry cancelHeap (Some 4) ([4; 3] ++ 0 :: [])) by chain_tac.
  assert (Hb : ancestry cancelHeap (Some 2) ([2; 1] ++ 0 :: [])) by chain_tac.
  assert (Hd : ∀ y, y ∈ [4; 3] → y ∉ [2; 1]) by apart_tac.
  assert (Hi : 2 ∈ [2; 1]) by member_tac.
  split_and!; [exact Ha|exact Hb|exact Hd|exact Hi|].
  eexists _, _, _, _. split; [exact cancel_out_run|].
  exact (deletedSourceCommits_is_source_path counterAlgebra (startWorld cancelHeap) 4 2 2
           [4; 3] [2; 1] 0 [] _ _ _ _ Ha Hb Hd Hi cancel_out_run).
Defined.

(** The run on [plainHeap]: rebasing [V] onto [U]. *)
Lemma plain_run :
  ∃ w' : World Z,
    rebaseBranch counterAlgebra 4 2 (Some 2) (startWorld plainHeap)
    = (Ok (7, Some 3%Z,
           {| newBase := 2; deletedSourceCommits := [3; 4];
              newSourceCommits := [1; 2; 5; 7] |}), w').
Proof. eexists. vm_compute. reflexivity. Qed.

Lemma rebase_without_shared_tags_witness :
  ancestry plainHeap (Some 4) ([4; 3] ++ 0 :: []) ∧
  ancestry plainHeap (Some 2) ([2; 1] ++ 0 :: []) ∧
  (∀ y, y ∈ [4; 3] → y ∉ [2; 1]) ∧ 2 ∈ [2; 1] ∧
  derefAll plainHeap (reverse [4; 3])
    = Ok [mkCommit 7 "alice" 10%Z (Some 0); mkCommit 8 "bob" 20%Z (Some 3)] ∧
  (∀ r r' c c', r ∈ [4; 3] → r' ∈ [2; 1] →
     plainHeap !! r = Some c → plainHeap !! r' = Some c' → revision c ≠ revision c') ∧
  ∃ w' : World Z,
    ∃ tci minted mc,
      reverse [2; 1] !! tci = Some 2 ∧
      [1; 2; 5; 7] = take (S tci) (reverse [2; 1]) ++ minted ∧
      derefAll (heap w') minted = Ok mc ∧
      (λ c, (revision c, sessionId c)) <$> mc = [(7, "alice"); (8, "bob")].
Proof.
  assert (Ht : ∀ r r' c c', r ∈ [4; 3] → r' ∈ [2; 1] →
     plainHeap !! r = Some c → plainHeap !! r' = Some c' → revision c ≠ revision c')
    by cases_tac.
  assert (Ha : ancestry plainHeap (Some 4) ([4; 3] ++ 0 :: [])) by chain_tac.
  assert (Hb : ancestry plainHeap (Some 2) ([2; 1] ++ 0 :: [])) by chain_tac.
  assert (Hd : ∀ y, y ∈ [4; 3] → y ∉ [2; 1]) by apart_tac.
  assert (Hi : 2 ∈ [2; 1]) by member_tac.
  split_and!; try assumption; [reflexivity|].
  destruct plain_run as [w' Hrun]. exists w'.
  exact (proj2 (rebase_without_shared_tags counterAlgebra (startWorld plainHeap) 4 2 2
           [4; 3] [2; 1] 0 [] _ _ _ _ _ Ha Hb Hd Hi eq_refl Ht Hrun)).
Defined.

Lemma rebase_of_empty_branch_witness :
  ancestry cancelHeap (Some 2) ([2; 1] ++ 0 :: []) ∧ 1 ∈ [2; 1] ∧
  ∃ tci ct,
    reverse [2; 1] !! tci = Some 1 ∧
    derefAll cancelHeap (take (S tci) (reverse [2; 1])) = Ok ct ∧
    rebaseBranch counterAlgebra 0 1 (Some 2) (startWorld cancelHeap) =
      (match compose counterAlgebra (asTagged <$> ct) with
       | Some sc =>
         Ok (1, Some sc,
             {| newBase := 1; deletedSourceCommits := [];
                newSourceCommits := take (S tci) (reverse [2; 1]) |})
       | None => Err AlgebraException
       end,
       {| heap := cancelHeap; tagCounter := 100;
          calls := [] ++ [CallCompose (asTagged <$> ct)] |}).
Proof.
  assert (Hb : ancestry cancelHeap (Some 2) ([2; 1] ++ 0 :: [])) by chain_tac.
  assert (Hi : 1 ∈ [2; 1]) by member_tac.
  split_and!; try assumption.
  exact (rebase_of_empty_branch counterAlgebra (startWorld cancelHeap) 0 1 2 [2; 1] [] Hb Hi).
Defined.

Lemma every_source_tag_survives_witness :
  ancestry cancelHeap (Some 4) ([4; 3] ++ 0 :: []) ∧
  ancestry cancelHeap (Some 2) ([2; 1] ++ 0 :: []) ∧
  (∀ y, y ∈ [4; 3] → y ∉ [2; 1]) ∧ 2 ∈ [2; 1] ∧
  3 ∈ [4; 3] ∧
  cancelHeap !! 3 = Some (mkCommit 1 "source" 5%Z (Some 0)) ∧
  ∃ r' c', r' ∈ [1; 2; 5] ∧
    (cancelHeap ++ [ mkCommit 3 "source" 3%Z (Some 2);
                     mkCommit 3 "source" 3%Z (Some 3) ]) !! r' = Some c' ∧
    revision c' = 1.
Proof.
  assert (Ha : ancestry cancelHeap (Some 4) ([4; 3] ++ 0 :: [])) by chain_tac.
  assert (Hb : ancestry cancelHeap (Some 2) ([2; 1] ++ 0 :: [])) by chain_tac.
  assert (Hd : ∀ y, y ∈ [4; 3] → y ∉ [2; 1]) by apart_tac.
  assert (Hi : 2 ∈ [2; 1]) by member_tac.
  assert (Hr : 3 ∈ [4; 3]) by member_tac.
  split_and!; try assumption; [reflexivity|].
  exact (every_source_tag_survives counterAlgebra (startWorld cancelHeap) 4 2 2
           [4; 3] [2; 1] 0 [] _ _ _ _ Ha Hb Hd Hi cancel_out_run 3 _ Hr eq_refl).
Defined.

Lemma counterAlgebra_neverThrows : neverThrows counterAlgebra.
Proof. split_and!; intros; eexists; reflexivity. Qed.

Lemma rebaseBranch_returns_witness :
  neverThrows counterAlgebra ∧
  ancestry cancelHeap (Some 4) ([4; 3] ++ 0 :: []) ∧
  ancestry cancelHeap (Some 2) ([2; 1] ++ 0 :: []) ∧
  (∀ y, y ∈ [4; 3] → y ∉ [2; 1]) ∧ 2 ∈ [2; 1] ++ 0 :: [] ∧
  ∃ hd chg rc (w' : World Z),
    rebaseBranch counterAlgebra 4 2 (Some 2) (startWorld cancelHeap)
    = (Ok (hd, chg, rc), w').
Proof.
  assert (Ha : ancestry cancelHeap (Some 4) ([4; 3] ++ 0 :: [])) by chain_tac.
  assert (Hb : ancestry cancelHeap (Some 2) ([2; 1] ++ 0 :: [])) by chain_tac.
  assert (Hd : ∀ y, y ∈ [4; 3] → y ∉ [2; 1]) by apart_tac.
  assert (Hi : 2 ∈ [2; 1] ++ 0 :: []) by (simpl; member_tac).
  split_and!; try assumption; [exact counterAlgebra_neverThrows|].
  exact (rebaseBranch_returns counterAlgebra counterAlgebra_neverThrows
           (startWorld cancelHeap) 4 2 2 [4; 3] [2; 1] 0 [] Ha Hb Hd Hi).
Defined.

Lemma rebaseChange_returns_witness :
  neverThrows counterAlgebra ∧
  ancestry cancelHeap (Some 4) ([4; 3] ++ 0 :: []) ∧
  ancestry cancelHeap (Some 2) ([2; 1] ++ 0 :: []) ∧
  (∀ y, y ∈ [4; 3] → y ∉ [2; 1]) ∧
  ∃ c' (w' : World Z),
    rebaseChange counterAlgebra 10%Z 4 2 (startWorld cancelHeap) = (Ok c', w') ∧
    heap w' = cancelHeap.
Proof.
  assert (Ha : ancestry cancelHeap (Some 4) ([4; 3] ++ 0 :: [])) by chain_tac.
  assert (Hb : ancestry cancelHeap (Some 2) ([2; 1] ++ 0 :: [])) by chain_tac.
  assert (Hd : ∀ y, y ∈ [4; 3] → y ∉ [2; 1]) by apart_tac.
  split_and!; try assumption; [exact counterAlgebra_neverThrows|].
  exact (rebaseChange_returns counterAlgebra counterAlgebra_neverThrows
           (startWorld cancelHeap) 10%Z 4 2 [4; 3] [2; 1] 0 [] Ha Hb Hd).
Defined.

(** The run of [rebaseChange] on [cancelHeap], from [D] to [C]. *)
Lemma change_run :
  ∃ w' : World Z,
    rebaseChange counterAlgebra 10%Z 4 2 (startWorld cancelHeap) = (Ok 10%Z, w').
Proof. eexists. vm_compute. reflexivity. Qed.

Lemma rebaseChange_sandwich_witness :
  let cps := [mkCommit 3 "source" 3%Z (Some 3); mkCommit 1 "source" 5%Z (Some 0)] in
  let ctp := [mkCommit 1 "target" 1%Z (Some 0); mkCommit 2 "target" 2%Z (Some 1)] in
  ancestry cancelHeap (Some 4) ([4; 3] ++ 0 :: []) ∧
  ancestry cancelHeap (Some 2) ([2; 1] ++ 0 :: []) ∧
  (∀ y, y ∈ [4; 3] → y ∉ [2; 1]) ∧
  derefAll cancelHeap [4; 3] = Ok cps ∧
  derefAll cancelHeap (reverse [2; 1]) = Ok ctp ∧
  ∃ w' : World Z,
    rebaseChange counterAlgebra 10%Z 4 2 (startWorld cancelHeap) = (Ok 10%Z, w') ∧
    ∃ xs cRef,
      Forall2 (λ cm x, invert counterAlgebra (asTagged cm) true = Some x) cps xs ∧
      foldRebase counterAlgebra 10%Z (rollbacks 100 cps xs) = Some cRef ∧
      foldRebase counterAlgebra cRef (asTagged <$> ctp) = Some 10%Z ∧
      w' = {| heap := cancelHeap; tagCounter := 100 + length cps;
              calls := [] ++
                interleave ((λ cm, CallInvert (asTagged cm) true) <$> cps)
                  (rebaseCalls counterAlgebra 10%Z (rollbacks 100 cps xs)) ++
                rebaseCalls counterAlgebra cRef (asTagged <$> ctp) |}.
Proof.
  intros cps ctp.
  assert (Ha : ancestry cancelHeap (Some 4) ([4; 3] ++ 0 :: [])) by chain_tac.
  assert (Hb : ancestry cancelHeap (Some 2) ([2; 1] ++ 0 :: [])) by chain_tac.
  assert (Hd : ∀ y, y ∈ [4; 3] → y ∉ [2; 1]) by apart_tac.
  split_and!; [exact Ha|exact Hb|exact Hd|reflexivity|reflexivity|].
  destruct change_run as [w' Hrun]. exists w'. split; [exact Hrun|].
  exact (rebaseChange_sandwich counterAlgebra (startWorld cancelHeap) 10%Z 10%Z 4 2
           [4; 3] [2; 1] 0 [] cps ctp w' Ha Hb Hd eq_refl eq_refl Hrun).
Defined.
